(** * CaptionDecompiler: a shallow embedding of [CaptionDecompiler.py]

    The development follows the layout of the script.  Definitions:

    - [PyBase]: Python values, exceptions, loops with early return;
    - [Codec]: the library functions the script calls ([zlib.crc32], the
      ascii / utf-8 / utf-16-le codecs, [int.from_bytes]);
    - [Forcer]: the CRC-32 forcer [generateStrWithNewCRC] with its nested
      helpers [reverse32], [multiply_mod], [divide_and_remainder],
      [reciprocal_mod] and [modify_string_crc32];
    - [World]: the opened caption file, the console and the output file,
      as a state the functions thread through;
    - [Index]: the candidate index, [getSoundscriptsFromFiles];
    - [Reader]: the archive reader, [getDirEntries] and
      [readCaptionBlocks];
    - [Emitter]: the text emitter, [writeCaptions];
    - [Main]: [main] from the opening of the caption file on;
    - [Startup]: the language and the output path [main] settles on
      before it opens the caption file;
    - [IndexSpec], [Layout], [Effects]: the index in closed form, the
      layout of a caption file, and what a computation leaves alone.

    Properties: [EmitterProps], [MainProps], [IndexProps], [ReaderProps],
    [Bits], [EngineProps] (the GF(2) arithmetic) and [ForcerProps]; then
    [EngineLaws], [ForcerLaws], [IndexLaws], [DirectoryProps],
    [ReaderLaws], [MainLaws], [PipelineProps] and [StartupProps].

    Python integers are [Z]; the bit operators [<<], [>>], [&], [|], [^]
    are [Z.shiftl], [Z.shiftr], [Z.land], [Z.lor], [Z.lxor], which agree
    with Python on negative numbers as well (two's complement, infinite
    sign extension).  A Python [str] is the list of its code points, a
    [bytes] / [bytearray] the list of its byte values.  [while] loops take
    a fuel argument and answer [OutOfFuel] when it runs out; [for] loops
    over a [range] or over a string are structural.  The [printstatus]
    argument of the forcer (always [False]) and its prints are left out.
    The quotient [/] of two integers is a float, kept as a mantissa and a
    binary exponent; a seek can be refused by the file system, and the
    write of the output by the encoder. *)

From Stdlib Require Import ZArith Zbitwise Lia List Bool String Ascii DecimalString.
From stdpp Require Import base option list gmap.
Import ListNotations.
Local Open Scope Z_scope.

(* ===================================================================== *)
(** * Python values, exceptions, results *)
(* ===================================================================== *)

Module PyBase.

(** The exceptions the script can raise (and [SystemExit] for [sys.exit()]). *)
Inductive exn : Type :=
  | ValueError (msg : string)
  | AssertionError (msg : string)
  | UnicodeEncodeError
  | UnicodeDecodeError
  | IndexError
  | TypeError
  | OSError
  | SystemExit.

(** Outcome of running a piece of the script: a value, a raised
    exception, or a [while] loop that used up its fuel. *)
Inductive result (A : Type) : Type :=
  | Ok (a : A)
  | Raise (e : exn)
  | OutOfFuel.
Arguments Ok {A} a.
Arguments Raise {A} e.
Arguments OutOfFuel {A}.

(** Sequencing: an exception (or fuel exhaustion) in [r] skips the rest.
    Written [x ← r; k] below. *)
#[export] Instance result_bind : MBind result := fun A B k r =>
  match r with
  | Ok a => k a
  | Raise e => Raise e
  | OutOfFuel => OutOfFuel
  end.

(** A Python [str]: its code points.  [bytes]: its byte values. *)
Abbreviation str := (list Z).
Abbreviation bytes := (list Z).

(** String literals of the script. *)
Fixpoint str_of (s : string) : str :=
  match s with
  | EmptyString => []
  | String c r => Z.of_nat (nat_of_ascii c) :: str_of r
  end.

(** The two kinds of value a caption name can be: [generateStrWithNewCRC]
    returns either a [str] or the integer [-1]. *)
Inductive pyval : Type :=
  | PStr (s : str)
  | PInt (n : Z).

(** [int.bit_length()]: bits needed for the absolute value. *)
Definition bit_length (x : Z) : Z :=
  if x =? 0 then 0 else Z.log2 (Z.abs x) + 1.

(** [c in s] for a one-character [c]. *)
Definition str_mem (c : Z) (s : str) : bool :=
  existsb (Z.eqb c) s.

(** [s[-n:]] *)
Definition last_n {A} (n : nat) (s : list A) : list A :=
  skipn (List.length s - n) s.

(** A [for] loop whose body may [return]: [Ok (Some r)] is an early
    return of [r], [Ok None] is normal completion of the loop. *)
Fixpoint for_in {A R} (l : list A) (body : A -> result (option R))
  : result (option R) :=
  match l with
  | [] => Ok None
  | a :: rest =>
      match body a with
      | Ok None => for_in rest body
      | other => other
      end
  end.

(** [for i in l: s = body(s, i)], where the body may raise. *)
Fixpoint for_fold {A S} (l : list A) (body : S -> A -> result S) (s : S)
  : result S :=
  match l with
  | [] => Ok s
  | a :: rest => s' ← body s a; for_fold rest body s'
  end.

(** [str(n)] for an integer, and [s.rjust(width, fill)]. *)
Definition str_int (n : Z) : str :=
  str_of (NilZero.string_of_int (Z.to_int n)).

Definition rjust (s : str) (width : Z) (fill : Z) : str :=
  repeat fill (Z.to_nat (width - Z.of_nat (length s))) ++ s.

(** Equality of strings and of values ([==] never identifies a [str]
    with an [int]). *)
Definition str_eqb (s t : str) : bool := bool_decide (s = t).

Definition pyval_eqb (v w : pyval) : bool :=
  match v, w with
  | PStr s, PStr t => str_eqb s t
  | PInt n, PInt m => n =? m
  | _, _ => false
  end.

(** [len(v)]: integers have no length. *)
Definition len (v : pyval) : result Z :=
  match v with
  | PStr s => Ok (Z.of_nat (length s))
  | PInt _ => Raise TypeError
  end.

(** [f"{v}"] *)
Definition format (v : pyval) : str :=
  match v with
  | PStr s => s
  | PInt n => str_int n
  end.

(** An insertion-ordered [dict]: [d[k] = v] replaces the value of an
    existing key in place and appends a new key at the end. *)
Fixpoint dict_set {V} (d : list (pyval * V)) (k : pyval) (v : V)
  : list (pyval * V) :=
  match d with
  | [] => [(k, v)]
  | (k', v') :: rest =>
      if pyval_eqb k' k then (k', v) :: rest else (k', v') :: dict_set rest k v
  end.

End PyBase.
Import PyBase.

(* ===================================================================== *)
(** * Library functions used by the script *)
(* ===================================================================== *)

Module Codec.

(** Modelled from the spec: [zlib.crc32] is a library function, not part
    of the script.  The spec (4.2) fixes it as the standard CRC-32:
    reflected, initial value and final xor 0xFFFFFFFF, polynomial
    0xEDB88320 in bit-reflected form.  One step per message bit. *)
Definition crc32_bit (c : Z) : Z :=
  if Z.testbit c 0 then Z.lxor (Z.shiftr c 1) 0xEDB88320 else Z.shiftr c 1.

Definition crc32_byte (c b : Z) : Z :=
  Nat.iter 8 crc32_bit (Z.lxor c b).

Definition crc32_update (c : Z) (data : bytes) : Z :=
  fold_left crc32_byte data c.

Definition crc32 (data : bytes) : Z :=
  Z.lxor (crc32_update 0xFFFFFFFF data) 0xFFFFFFFF.

(** [bytearray(s, "ascii")] / [bytes(s, "ascii")]: every code point must
    be below 128. *)
Definition encode_ascii (s : str) : result bytes :=
  if forallb (fun c => (0 <=? c) && (c <? 128)) s then Ok s
  else Raise UnicodeEncodeError.

(** [bytes(s, "utf-8")]: strict utf-8, surrogates are refused. *)
Definition utf8_encode_char (c : Z) : option bytes :=
  if (0 <=? c) && (c <? 0x80) then Some [c]
  else if (0x80 <=? c) && (c <? 0x800) then
    Some [Z.lor 0xC0 (Z.shiftr c 6); Z.lor 0x80 (Z.land c 0x3F)]
  else if (0xD800 <=? c) && (c <? 0xE000) then None
  else if (0x800 <=? c) && (c <? 0x10000) then
    Some [Z.lor 0xE0 (Z.shiftr c 12);
          Z.lor 0x80 (Z.land (Z.shiftr c 6) 0x3F);
          Z.lor 0x80 (Z.land c 0x3F)]
  else if (0x10000 <=? c) && (c <? 0x110000) then
    Some [Z.lor 0xF0 (Z.shiftr c 18);
          Z.lor 0x80 (Z.land (Z.shiftr c 12) 0x3F);
          Z.lor 0x80 (Z.land (Z.shiftr c 6) 0x3F);
          Z.lor 0x80 (Z.land c 0x3F)]
  else None.

Fixpoint encode_utf8 (s : str) : result bytes :=
  match s with
  | [] => Ok []
  | c :: rest =>
      match utf8_encode_char c with
      | Some bs => tl ← encode_utf8 rest; Ok (bs ++ tl)
      | None => Raise UnicodeEncodeError
      end
  end.

(** [b.decode()]: strict utf-8 (shortest form only, no surrogates, at
    most U+10FFFF). *)
Definition is_cont (b : Z) : bool := (0x80 <=? b) && (b <? 0xC0).

Fixpoint decode_utf8 (b : bytes) : result str :=
  match b with
  | [] => Ok []
  | b0 :: r0 =>
      if (0 <=? b0) && (b0 <? 0x80) then
        tl ← decode_utf8 r0; Ok (b0 :: tl)
      else if (0xC2 <=? b0) && (b0 <? 0xE0) then
        match r0 with
        | b1 :: r1 =>
            if is_cont b1 then
              tl ← decode_utf8 r1;
              Ok (Z.lor (Z.shiftl (Z.land b0 0x1F) 6) (Z.land b1 0x3F) :: tl)
            else Raise UnicodeDecodeError
        | _ => Raise UnicodeDecodeError
        end
      else if (0xE0 <=? b0) && (b0 <? 0xF0) then
        match r0 with
        | b1 :: b2 :: r2 =>
            let c := Z.lor (Z.shiftl (Z.land b0 0x0F) 12)
                       (Z.lor (Z.shiftl (Z.land b1 0x3F) 6) (Z.land b2 0x3F)) in
            if is_cont b1 && is_cont b2 && (0x800 <=? c)
               && negb ((0xD800 <=? c) && (c <? 0xE000)) then
              tl ← decode_utf8 r2; Ok (c :: tl)
            else Raise UnicodeDecodeError
        | _ => Raise UnicodeDecodeError
        end
      else if (0xF0 <=? b0) && (b0 <? 0xF5) then
        match r0 with
        | b1 :: b2 :: b3 :: r3 =>
            let c := Z.lor (Z.shiftl (Z.land b0 0x07) 18)
                       (Z.lor (Z.shiftl (Z.land b1 0x3F) 12)
                          (Z.lor (Z.shiftl (Z.land b2 0x3F) 6) (Z.land b3 0x3F))) in
            if is_cont b1 && is_cont b2 && is_cont b3
               && (0x10000 <=? c) && (c <? 0x110000) then
              tl ← decode_utf8 r3; Ok (c :: tl)
            else Raise UnicodeDecodeError
        | _ => Raise UnicodeDecodeError
        end
      else Raise UnicodeDecodeError
  end.

(** [b.decode("utf_16_le")] of what [file.read(2)] returned: nothing at
    the end of the stream, one code unit otherwise.  A lone byte or a
    lone surrogate does not decode. *)
Definition decode_utf16le_unit (b : bytes) : result str :=
  match b with
  | [] => Ok []
  | [lo; hi] =>
      let u := Z.lor lo (Z.shiftl hi 8) in
      if (0xD800 <=? u) && (u <? 0xE000) then Raise UnicodeDecodeError
      else Ok [u]
  | _ => Raise UnicodeDecodeError
  end.

(** The utf-16-le bytes of a sequence of code units (how the archive
    stores a caption). *)
Definition encode_utf16le (units : list Z) : bytes :=
  flat_map (fun u => [Z.land u 0xFF; Z.shiftr u 8]) units.

(** A code unit that decodes on its own: 16 bits, not a surrogate. *)
Definition bmp_unit (u : Z) : Prop :=
  0 <= u < 0x10000 /\ ~ (0xD800 <= u < 0xE000).

(** A surrogate code point.  A [str] holds code points, so a surrogate
    in it stands alone, and the strict codecs of Python refuse it. *)
Definition surrogate (c : Z) : bool := (0xD800 <=? c) && (c <? 0xE000).

(** [int.from_bytes(b, "little")] *)
Fixpoint int_from_bytes_little (b : bytes) : Z :=
  match b with
  | [] => 0
  | x :: rest => Z.lor x (Z.shiftl (int_from_bytes_little rest) 8)
  end.

End Codec.
Import Codec.

(* ===================================================================== *)
(** * The CRC-32 forcer: [generateStrWithNewCRC] *)
(* ===================================================================== *)

Module Forcer.

(** Python subscripting [l[i]]: a negative index counts from the end,
    an index out of range raises. *)
Definition py_index {A} (l : list A) (i : Z) : result nat :=
  let n := Z.of_nat (length l) in
  let j := if i <? 0 then i + n else i in
  if (0 <=? j) && (j <? n) then Ok (Z.to_nat j) else Raise IndexError.

(** [l[i] ^= v] *)
Definition xor_item (l : bytes) (i v : Z) : result bytes :=
  j ← py_index l i;
  match l !! j with
  | Some b => Ok (<[j := Z.lxor b v]> l)
  | None => Raise IndexError
  end.

(** Generator polynomial. *)
Definition POLYNOMIAL : Z := 0x104C11DB7.

Fixpoint reverse32_loop (n : nat) (y x : Z) : Z :=
  match n with
  | O => y
  | S n' => reverse32_loop n' (Z.lor (Z.shiftl y 1) (Z.land x 1)) (Z.shiftr x 1)
  end.

Definition reverse32 (x : Z) : Z := reverse32_loop 32 0 x.

(** Polynomial division: the [for i in range(n, -1, -1)] loop, [k]
    iterations left, [i = k - 1]. *)
Fixpoint divide_loop (k : nat) (ydeg x y z : Z) : Z * Z :=
  match k with
  | O => (z, x)
  | S k' =>
      let i := Z.of_nat k' in
      if negb (Z.land (Z.shiftr x (i + ydeg)) 1 =? 0)
      then divide_loop k' ydeg (Z.lxor x (Z.shiftl y i)) y (Z.lor z (Z.shiftl 1 i))
      else divide_loop k' ydeg x y z
  end.

Definition divide_and_remainder (x y : Z) : result (Z * Z) :=
  if y =? 0 then Raise (ValueError "Division by zero")
  else if x =? 0 then Ok (0, 0)
  else
    let ydeg := bit_length y - 1 in
    Ok (divide_loop (Z.to_nat ((bit_length x - 1) - ydeg + 1)) ydeg x y 0).

Section WithFuel.

(** Bound on the number of iterations of each [while] loop. *)
Variable fuel : nat.

(** Russian peasant multiplication: the [while y != 0] loop. *)
Fixpoint multiply_mod_loop (n : nat) (x y z : Z) {struct n} : result Z :=
  if y =? 0 then Ok z
  else
    match n with
    | O => OutOfFuel
    | S n' =>
        let z := Z.lxor z (x * Z.land y 1) in
        let y := Z.shiftr y 1 in
        let x := Z.shiftl x 1 in
        let x := if negb (Z.land (Z.shiftr x 32) 1 =? 0)
                 then Z.lxor x POLYNOMIAL else x in
        multiply_mod_loop n' x y z
    end.

Definition multiply_mod (x y : Z) : result Z := multiply_mod_loop fuel x y 0.

(** [pow_mod], inlined in [reciprocal_mod]: the [while b != 0] loop. *)
Fixpoint pow_loop (n : nat) (x a b : Z) {struct n} : result Z :=
  if b =? 0 then Ok x
  else
    match n with
    | O => OutOfFuel
    | S n' =>
        x ← (if negb (Z.land b 1 =? 0) then multiply_mod x a else Ok x);
        a ← multiply_mod a a;
        pow_loop n' x a (Z.shiftr b 1)
    end.

(** The extended Euclidean loop [while y != 0]; answers the final
    [(x, a)]. *)
Fixpoint euclid_loop (n : nat) (x y a b : Z) {struct n} : result (Z * Z) :=
  if y =? 0 then Ok (x, a)
  else
    match n with
    | O => OutOfFuel
    | S n' =>
        '(q, r) ← divide_and_remainder x y;
        m ← multiply_mod q b;
        let c := Z.lxor a m in
        euclid_loop n' y r b c
    end.

(** [length] and [offset] are variables of the enclosing
    [modify_string_crc32]. *)
Definition reciprocal_mod (length offset : Z) : result Z :=
  x ← pow_loop fuel 1 2 ((length - offset) * 8);
  '(x, a) ← euclid_loop fuel POLYNOMIAL x 0 1;
  if x =? 1 then Ok a
  else Raise (ValueError "Reciprocal does not exist").

(** [modify_string_crc32] up to and including the patch of the last 4
    bytes. *)
Definition patch_string (string : str) (newcrc : Z) : result bytes :=
  string ← encode_ascii string;
  let length := Z.of_nat (length string) in
  let offset := length - 4 in
  if offset + 4 >? length
  then Raise (ValueError "Byte offset plus 4 exceeds file length")
  else
    let crc := crc32 string in
    let delta := Z.lxor crc newcrc in
    r ← reciprocal_mod length offset;
    delta ← multiply_mod r (reverse32 delta);
    for_fold [0; 1; 2; 3]
      (fun string i =>
         xor_item string (offset + i)
           (Z.land (Z.shiftr (reverse32 delta) (i * 8)) 0xFF))
      string.

(** ... and the recheck of the entire string that follows the patch. *)
Definition modify_string_crc32 (string : str) (newcrc : Z) : result bytes :=
  string ← patch_string string newcrc;
  if negb (crc32 string =? newcrc)
  then Raise (AssertionError "Failed to update CRC-32 to desired value")
  else Ok string.

Definition USABLE_CHARS : str := str_of "0123456789abcdefghijklmnopqrstuvwxyz".

(** The [try: end = newString.decode()[-4:] / except: pass] step. *)
Definition decode_end (newString : bytes) : str :=
  match decode_utf8 newString with
  | Ok s => last_n 4 s
  | _ => str_of "-"
  end.

(** Loop body for one choice of [c1 c2 c3 c4]. *)
Definition try_candidate (string : str) (newcrc c1 c2 c3 c4 : Z)
  : result (option pyval) :=
  newString ← modify_string_crc32
                (string ++ [c1] ++ [c2] ++ [c3] ++ [c4] ++ str_of "0000") newcrc;
  let end_ := decode_end newString in
  if negb (0 <? Z.of_nat
                  (length (List.filter (fun c => negb (str_mem c USABLE_CHARS)) end_)))
  then s ← decode_utf8 newString; Ok (Some (PStr s))
  else Ok None.

Definition generateStrWithNewCRC (string : str) (newcrc : Z) : result pyval :=
  r ← for_in USABLE_CHARS (fun c1 =>
       for_in USABLE_CHARS (fun c2 =>
        for_in USABLE_CHARS (fun c3 =>
         for_in USABLE_CHARS (fun c4 =>
          try_candidate string newcrc c1 c2 c3 c4))));
  match r with
  | Some v => Ok v
  | None => Ok (PInt (-1))
  end.

End WithFuel.

(** ** Closed forms of the loops, used to state their properties *)

(** One doubling step of [multiply_mod]: [x <<= 1], then the reduction
    by the generator when bit 32 comes up. *)
Definition shift_reduce (x : Z) : Z :=
  let x := Z.shiftl x 1 in
  if negb (Z.land (Z.shiftr x 32) 1 =? 0) then Z.lxor x POLYNOMIAL else x.

(** What [multiply_mod] accumulates in [z] over the low [n] bits of [y]. *)
Fixpoint peasant (n : nat) (x y : Z) : Z :=
  match n with
  | O => 0
  | S n' => Z.lxor (x * Z.land y 1) (peasant n' (shift_reduce x) (Z.shiftr y 1))
  end.

(** The product of two polynomials without any reduction, over the low
    [n] bits of [y]. *)
Fixpoint clmul (n : nat) (x y : Z) : Z :=
  match n with
  | O => 0
  | S n' => Z.lxor (x * Z.land y 1) (clmul n' (Z.shiftl x 1) (Z.shiftr y 1))
  end.

(** Degree of a polynomial, as the script computes it
    ([x.bit_length() - 1]; the zero polynomial gets -1). *)
Definition degree (x : Z) : Z := bit_length x - 1.

(** The reciprocal of x^32 modulo the generator: the patch zone is
    always the last 4 bytes, so this is what [reciprocal_mod] returns. *)
Definition RECIPROCAL : Z := 0xCBF1ACDA.

(** The 32-bit word [reverse32(delta)] that is xored into the patch
    zone for a checksum difference [d], and its [i]-th byte. *)
Definition patch_word (d : Z) : Z :=
  reverse32 (peasant 32 RECIPROCAL (reverse32 d)).

Definition patch_byte (d i : Z) : Z :=
  Z.land (Z.shiftr (patch_word d) (i * 8)) 0xFF.

(** The checksum (started from 0) of the four bytes of the patch. *)
Definition patch_checksum (d : Z) : Z :=
  crc32_update 0 [patch_byte d 0; patch_byte d 1; patch_byte d 2; patch_byte d 3].

(** The patch zone after the patch, for one choice of the four free
    characters: the sentinel "0000" xored with the patch bytes. *)
Definition candidate_patch (string : str) (newcrc c1 c2 c3 c4 : Z) : bytes :=
  let d := Z.lxor (crc32 ((string ++ [c1; c2; c3; c4]) ++ [48; 48; 48; 48]))
             newcrc in
  [Z.lxor 48 (patch_byte d 0); Z.lxor 48 (patch_byte d 1);
   Z.lxor 48 (patch_byte d 2); Z.lxor 48 (patch_byte d 3)].

(** The outcome of one candidate in closed form: accepted exactly when
    the four patched bytes are legal characters. *)
Definition candidate_outcome (string : str) (newcrc : Z) (c : Z * Z * Z * Z)
  : result (option pyval) :=
  let '(c1, c2, c3, c4) := c in
  let patch := candidate_patch string newcrc c1 c2 c3 c4 in
  if forallb (fun x => str_mem x USABLE_CHARS) patch
  then Ok (Some (PStr ((string ++ [c1; c2; c3; c4]) ++ patch)))
  else Ok None.

(** One candidate as the script runs it. *)
Definition run_candidate (fuel : nat) (string : str) (newcrc : Z)
    (c : Z * Z * Z * Z) : result (option pyval) :=
  let '(c1, c2, c3, c4) := c in try_candidate fuel string newcrc c1 c2 c3 c4.

(** An ascii code. *)
Definition ascii_code (c : Z) : Prop := 0 <= c < 128.

(** Reduced polynomials: degree at most 31. *)
Definition reduced (x : Z) : Prop := 0 <= x < 2 ^ 32.

(** The suffixes the four nested loops enumerate, in order. *)
Definition candidates : list (Z * Z * Z * Z) :=
  c1 ← USABLE_CHARS; c2 ← USABLE_CHARS; c3 ← USABLE_CHARS; c4 ← USABLE_CHARS;
  [(c1, c2, c3, c4)].

(** A legal character. *)
Definition usable (c : Z) : Prop := In c USABLE_CHARS.

End Forcer.
Import Forcer.

(* ===================================================================== *)
(** * The world of the script: input stream, console, output file *)
(* ===================================================================== *)

Module World.

(** The fields of the global [args] the core reads.  [None] of argparse
    is the empty list for the [append] options.  The tables printed at
    [verbose >= 2] are console output only and are left out; the rest of
    the console output is kept. *)
Record Args : Type := {
  sound_dir : option str;          (* after the path checks of [main] *)
  sound_script : list str;
  sound_name : list str;
  sound_list : list (list str);    (* per file, [read().splitlines()] *)
  same_hashes : bool;
  padding : Z;
  no_align : bool;
  tabs : bool;
  verbose : Z
}.

(** The argparse defaults, with no candidate source given. *)
Definition default_args : Args :=
  {| sound_dir := None; sound_script := []; sound_name := [];
     sound_list := []; same_hashes := false; padding := 4;
     no_align := false; tabs := false; verbose := 0 |}.

Definition with_padding (a : Args) (p : Z) (spaces : bool) : Args :=
  {| sound_dir := sound_dir a; sound_script := sound_script a;
     sound_name := sound_name a; sound_list := sound_list a;
     same_hashes := same_hashes a; padding := p;
     no_align := no_align a; tabs := spaces; verbose := verbose a |}.

(** What the excluded collaborators answer: the [precache_file] paths of
    the manifest, the soundscript names [Keyvalues] parses from a file,
    and the order in which [list(set(l))] enumerates a set. *)
Record Collaborators : Type := {
  manifest_files : list str;
  names_in_file : str -> list str;
  set_list : list str -> list str
}.

(** An instance with no manifest and no soundscript files, where a set
    is enumerated in order of first occurrence. *)
Definition no_files : Collaborators :=
  {| manifest_files := []; names_in_file := fun _ => [];
     set_list := remove_dups |}.

(** The opened caption [file] (content, position, and the positions the
    stream has been moved to, latest first), the console, the output
    file once opened for writing (path and text), and the largest offset
    the file system accepts in a seek (17592186040320 on ext4 with
    blocks of 4 KiB, 2^63 - 1 where the file system sets no limit of its
    own).  The output path is taken to be one that can be opened for
    writing, and the output file to be another file than the caption
    file; the stream is not read any more once the output is written. *)
Record world : Type := {
  content : bytes;
  pos : Z;
  positions : list Z;
  stdout : list str;
  written : option (str * str);
  seek_max : Z
}.

Definition M (A : Type) : Type := world -> result A * world.

#[export] Instance M_ret : MRet M := fun A a w => (Ok a, w).

#[export] Instance M_bind : MBind M := fun A B k m w =>
  match m w with
  | (Ok a, w') => k a w'
  | (Raise e, w') => (Raise e, w')
  | (OutOfFuel, w') => (OutOfFuel, w')
  end.

Definition lift {A} (r : result A) : M A := fun w => (r, w).

Definition raise {A} (e : exn) : M A := lift (Raise e).

Definition move (w : world) (p : Z) : world :=
  {| content := content w; pos := p; positions := p :: positions w;
     stdout := stdout w; written := written w; seek_max := seek_max w |}.

(** The largest offset a seek reaches: the limit of the file system,
    and in any case the size of the file, which the file system holds. *)
Definition seek_limit (w : world) : Z :=
  Z.max (seek_max w) (Z.of_nat (length (content w))).

(** [file.seek(p)]: a negative offset and an offset beyond the limit of
    the file system are refused with OSError (EINVAL), an offset that is
    no 64-bit file offset with ValueError. *)
Definition seek (p : Z) : M unit := fun w =>
  if p <? 0 then (Raise OSError, w)
  else if p <=? seek_limit w then (Ok tt, move w p)
  else if p <? 2 ^ 63 then (Raise OSError, w)
  else (Raise (ValueError "cannot fit 'int' into an offset-sized integer"), w).

(** [file.read(n)]: the bytes from the position on, at most [n], fewer
    (or none) at the end of the stream. *)
Definition read (n : Z) : M bytes := fun w =>
  let b := take (Z.to_nat n) (drop (Z.to_nat (pos w)) (content w)) in
  (Ok b, move w (pos w + Z.of_nat (length b))).

(** [print(s, end="")] and [print(s)] *)
Definition print_noend (s : str) : M unit := fun w =>
  (Ok tt, {| content := content w; pos := pos w; positions := positions w;
             stdout := stdout w ++ [s]; written := written w;
             seek_max := seek_max w |}).

Definition print (s : str) : M unit := print_noend (s ++ str_of (String "010" "")).

(** [with open(path, mode="w", encoding="utf16") as f: f.write(text)].
    Opening truncates the file.  The text is encoded as a whole before
    any of it is written: a surrogate in it makes the encoder raise
    UnicodeEncodeError, and the file is left empty. *)
Definition set_written (w : world) (path text : str) : world :=
  {| content := content w; pos := pos w; positions := positions w;
     stdout := stdout w; written := Some (path, text);
     seek_max := seek_max w |}.

Definition write_file (path text : str) : M unit := fun w =>
  if existsb surrogate text
  then (Raise UnicodeEncodeError, set_written w path [])
  else (Ok tt, set_written w path text).

(** [for a in l: s = body(s, a)] with effects. *)
Fixpoint forM {A S} (l : list A) (body : S -> A -> M S) (s : S) : M S :=
  match l with
  | [] => mret s
  | a :: rest => s' ← body s a; forM rest body s'
  end.

Definition when (b : bool) (m : M unit) : M unit :=
  if b then m else mret tt.

(** [range(n)], used only to count iterations. *)
Definition range (n : Z) : list nat := seq 0 (Z.to_nat n).

(** The bytes from the stream position on. *)
Definition avail (w : world) : list Z :=
  drop (Z.to_nat (pos w)) (content w).

(** The stream, apart from its position, and everything else in the
    world is left alone. *)
Definition same_but_pos (w w' : world) : Prop :=
  content w' = content w /\ stdout w' = stdout w /\ written w' = written w
  /\ seek_max w' = seek_max w.

End World.
Import World.

(* ===================================================================== *)
(** * The candidate index: [getSoundscriptsFromFiles] *)
(* ===================================================================== *)

Module Index.

Definition truthy {A} (l : list A) : bool :=
  match l with [] => false | _ => true end.

Definition sound_dir_set (a : Args) : bool :=
  match sound_dir a with Some d => truthy d | None => false end.

(** The loop [for souncscript in foundSoundscripts]. *)
Definition hash_names (foundSoundscripts : list str) : M (gmap Z str) :=
  forM foundSoundscripts
    (fun soundscriptCandidates souncscript =>
       b ← lift (encode_utf8 souncscript);
       mret (<[crc32 b := souncscript]> soundscriptCandidates))
    ∅.

Definition getSoundscriptsFromFiles (a : Args) (c : Collaborators)
  : M (gmap Z str) :=
  if sound_dir_set a || truthy (sound_script a) || truthy (sound_name a)
     || truthy (sound_list a)
  then
    let gameSoundsFiles :=
      (if sound_dir_set a then manifest_files c else []) ++ sound_script a in
    let foundSoundscripts := concat (sound_list a) ++ sound_name a in
    foundSoundscripts ←
      (if 0 <? Z.of_nat (length gameSoundsFiles) then
         print (str_of "Extracting soundscript names...");;
         foundSoundscripts ←
           forM gameSoundsFiles
             (fun foundSoundscripts fileEntry =>
                when (1 <=? verbose a)
                  (print (str_of (String "009" "Reading ") ++ fileEntry));;
                let names := names_in_file c fileEntry in
                when (1 <=? verbose a)
                  (print (str_of (String "009" (String "009" "Found "))
                          ++ str_int (Z.of_nat (length names))
                          ++ str_of " soundscapes in file"));;
                mret (foundSoundscripts ++ names))
             foundSoundscripts;
         print (str_of "Found a total of "
                ++ str_int (Z.of_nat (length foundSoundscripts))
                ++ str_of " soundscripts, "
                ++ str_int (Z.of_nat (length (set_list c foundSoundscripts)))
                ++ str_of " unique");;
         mret (set_list c foundSoundscripts)
       else
         print (str_of "Checking "
                ++ str_int (Z.of_nat (length foundSoundscripts))
                ++ str_of " soundscript names");;
         mret foundSoundscripts);
    print (str_of "Hashing soundscript names...");;
    hash_names foundSoundscripts
  else
    print (str_of "No soundscript files provided. Skipping name hash matching");;
    mret ∅.

(** The checksum under which the loop stores a name that encodes. *)
Definition name_crc (s : list Z) : Z :=
  match encode_utf8 s with
  | Ok b => crc32 b
  | _ => 0
  end.

Definition encodable (s : list Z) : Prop := exists b, encode_utf8 s = Ok b.

(** Two names given with [--sound-name]. *)
Definition names_plumless_buckeroo : Args :=
  {| sound_dir := None; sound_script := [];
     sound_name := [str_of "plumless"; str_of "buckeroo"];
     sound_list := []; same_hashes := false; padding := 4;
     no_align := false; tabs := false; verbose := 0 |}.

End Index.
Import Index.

(* ===================================================================== *)
(** * The archive reader: [getDirEntries], [readCaptionBlocks] *)
(* ===================================================================== *)

Module Reader.

(** A directory entry (the dict with keys "hash", "index", "offset",
    "length"). *)
Record entry : Type := {
  hash : Z;
  index : Z;
  offset : Z;
  length_ : Z
}.

Definition getDirEntries (HEADER_SIZE DIRECTORY_SIZE : Z) : M (list entry) :=
  print (str_of "Retrieving captions...");;
  seek HEADER_SIZE;;
  forM (range DIRECTORY_SIZE)
    (fun entries _ =>
       HASH ← read 4;
       BLOCK_INDEX ← read 4;
       OFFSET ← read 2;
       LENGTH ← read 2;
       mret (entries ++ [{| hash := int_from_bytes_little HASH;
                            index := int_from_bytes_little BLOCK_INDEX;
                            offset := int_from_bytes_little OFFSET;
                            length_ := int_from_bytes_little LENGTH |}]))
    [].

(** [int(entry["length"]/2)-1] iterations of [caption +=
    file.read(2).decode("utf_16_le")], then [file.read(2)]. *)
Definition caption_step (caption : str) (_ : nat) : M str :=
  b ← read 2;
  c ← lift (decode_utf16le_unit b);
  mret (caption ++ c).

Definition read_caption (e : entry) : M str :=
  caption ← forM (range (Z.quot (length_ e) 2 - 1)) caption_step [];
  read 2;;
  mret caption.

Section WithArgs.

Variable fuel : nat.
Variable a : Args.

(** The name given to an entry: the matched candidate, the zero-padded
    decimal hash, or (with [--same-hashes]) a forced name. *)
Definition resolve_name (soundscriptCandidates : gmap Z str)
    (attemptingHashMatching : bool) (e : entry) (captionLineIndex : Z)
    (ssHashMatches : Z) : M (pyval * Z) :=
  let captionName := rjust (str_int (hash e)) 10 48 in
  if attemptingHashMatching then
    match soundscriptCandidates !! hash e with
    | Some name => mret (PStr name, ssHashMatches + 1)
    | None =>
        when (1 <=? verbose a)
          (print_noend (str_of (String "009" "Could not find match for hash ")
                        ++ captionName ++ str_of " (line "
                        ++ str_int captionLineIndex ++ str_of ")"));;
        if same_hashes a then
          when (1 <=? verbose a) (print (str_of ". Generating new name... "));;
          captionName ← lift (generateStrWithNewCRC fuel
                                (rjust (str_int (hash e)) 10 48 ++ str_of ".")
                                (hash e));
          mret (captionName, ssHashMatches)
        else
          when (1 <=? verbose a) (print []);;
          mret (PStr captionName, ssHashMatches)
    end
  else mret (PStr captionName, ssHashMatches).

(** Loop state of [readCaptionBlocks]. *)
Record rstate : Type := {
  blockIndex : Z;
  ssHashMatches : Z;
  captionLineIndex : Z;
  finalCaptions : list (pyval * str)
}.

(** The loop body after the conditional seek. *)
Definition after_seek (soundscriptCandidates : gmap Z str)
    (attemptingHashMatching : bool) (s : rstate) (e : entry) : M rstate :=
  caption ← read_caption e;
  '(captionName, matches) ←
     resolve_name soundscriptCandidates attemptingHashMatching e
       (captionLineIndex s) (ssHashMatches s);
  mret {| blockIndex := index e;
          ssHashMatches := matches;
          captionLineIndex := captionLineIndex s + 1;
          finalCaptions := dict_set (finalCaptions s) captionName caption |}.

Definition read_entry (soundscriptCandidates : gmap Z str)
    (attemptingHashMatching : bool) (DATA_OFFSET BLOCK_SIZE : Z)
    (s : rstate) (e : entry) : M rstate :=
  when (blockIndex s <? index e) (seek (DATA_OFFSET + BLOCK_SIZE * index e));;
  after_seek soundscriptCandidates attemptingHashMatching s e.

Definition readCaptionBlocks (captionDirEntries : list entry)
    (soundscriptCandidates : gmap Z str) (DATA_OFFSET BLOCK_SIZE : Z)
  : M (list (pyval * str)) :=
  let attemptingHashMatching := 0 <? Z.of_nat (size soundscriptCandidates) in
  print_noend (str_of "Reading caption blocks");;
  when attemptingHashMatching
    (print_noend (str_of " and attempting to match hashes and names"));;
  print (str_of "...");;
  seek DATA_OFFSET;;
  s ← forM captionDirEntries
        (read_entry soundscriptCandidates attemptingHashMatching
           DATA_OFFSET BLOCK_SIZE)
        {| blockIndex := 0; ssHashMatches := 0; captionLineIndex := 6;
           finalCaptions := [] |};
  let n := Z.of_nat (length captionDirEntries) in
  print (str_of "Hashes found: " ++ str_int (ssHashMatches s)
         ++ str_of ", Expected: " ++ str_int n);;
  (if negb (ssHashMatches s =? n) then
     print (str_of "WARNING: Did not find names for "
            ++ str_int (n - ssHashMatches s)
            ++ str_of " captions! (Either we couldn't find them or they are unused)")
   else print (str_of "All caption names found"));;
  mret (finalCaptions s).

End WithArgs.

(** The directory of an archive visits blocks monotonically: block
    indices never decrease along the directory (the reader starts at
    block 0). *)
Fixpoint visits_monotone (cur : Z) (es : list entry) : Prop :=
  match es with
  | [] => True
  | e :: rest => cur <= index e /\ visits_monotone (index e) rest
  end.

(** A trace of stream positions, latest first, never moves backward. *)
Fixpoint never_backward (trace : list Z) : Prop :=
  match trace with
  | p :: (q :: _) as rest => q <= p /\ never_backward rest
  | _ => True
  end.

(** From [w] to [w'] the stream has only moved forward: the positions
    added to the trace never go backward, starting from the position at
    [w] and ending at the position at [w']. *)
Definition fwd (w w' : world) : Prop :=
  exists new,
    positions w' = new ++ positions w
    /\ never_backward (new ++ [pos w])
    /\ hd (pos w) new = pos w'.

(** Whatever its outcome, [m] moves the stream forward only, by at most
    [k] bytes. *)
Definition advances {A} (k : Z) (m : M A) : Prop :=
  forall w, fwd w (snd (m w)) /\ pos (snd (m w)) <= pos w + k.

(** The number of bytes [read_caption] asks for. *)
Definition entry_bytes (e : entry) : Z :=
  2 * (Z.max (Z.quot (length_ e) 2 - 1) 0 + 1).

(** The captions read in a block do not reach past the start of the
    next visited block: [used] bytes have been asked for in block [cur]. *)
Fixpoint blocks_fit (BLOCK_SIZE cur used : Z) (es : list entry) : Prop :=
  match es with
  | [] => True
  | e :: rest =>
      if cur <? index e
      then used <= BLOCK_SIZE * (index e - cur)
           /\ blocks_fit BLOCK_SIZE (index e) (entry_bytes e) rest
      else blocks_fit BLOCK_SIZE (index e) (used + entry_bytes e) rest
  end.

(** Little-endian fields, for writing archives down. *)
Definition u32 (n : Z) : bytes :=
  [Z.land n 0xFF; Z.land (Z.shiftr n 8) 0xFF;
   Z.land (Z.shiftr n 16) 0xFF; Z.land (Z.shiftr n 24) 0xFF].
Definition u16 (n : Z) : bytes :=
  [Z.land n 0xFF; Z.land (Z.shiftr n 8) 0xFF].

Definition header_bytes (NUM_BLOCKS BLOCK_SIZE DIRECTORY_SIZE DATA_OFFSET : Z)
  : bytes :=
  str_of "VCCD" ++ u32 1 ++ u32 NUM_BLOCKS ++ u32 BLOCK_SIZE
  ++ u32 DIRECTORY_SIZE ++ u32 DATA_OFFSET.

Definition entry_bytes_of (e : entry) : bytes :=
  u32 (hash e) ++ u32 (index e) ++ u16 (offset e) ++ u16 (length_ e).

(** An archive with one entry declaring 12 bytes ("Hello" and the
    terminator) whose data section holds only the 4 bytes of "He". *)
Definition truncated_archive : bytes :=
  header_bytes 1 8192 1 36
  ++ entry_bytes_of {| hash := 12345; index := 0; offset := 0; length_ := 12 |}
  ++ encode_utf16le (str_of "He").

(** An archive with blocks of 8 bytes whose first entry (block 0)
    declares 12 bytes and whose second entry lies in block 1. *)
Definition overfull_entries : list entry :=
  [ {| hash := 12345; index := 0; offset := 0; length_ := 12 |};
    {| hash := 54321; index := 1; offset := 0; length_ := 6 |} ].

Definition overfull_archive : bytes :=
  header_bytes 2 8 2 48
  ++ flat_map entry_bytes_of overfull_entries
  ++ encode_utf16le (str_of "Hello" ++ [0]) ++ encode_utf16le (str_of "Hi" ++ [0]).

End Reader.
Import Reader.

(* ===================================================================== *)
(** * The text emitter: [writeCaptions] *)
(* ===================================================================== *)

Module Emitter.

(** [x / y] of two [int]s is a [float]: the binary64 number nearest to
    the quotient, ties to the even one.  [round_half_even num den] is
    the integer nearest to [num / den], and [float_div x y], for
    [0 <= x] and [0 < y], is the float [x / y] as a pair [(n, k)] that
    stands for [n * 2^k]: [n] has at most 53 bits, and [k] is not below
    -1074, so that a quotient below 2^-1075 gives 0.  (From 2^1024 on
    the quotient has no float and Python raises OverflowError; where
    the script divides, the dividend comes from lengths, which are below
    2^63, and the divisor is at least 1, so that case is left out.) *)
Definition round_half_even (num den : Z) : Z :=
  let q := num / den in
  let r := num mod den in
  if 2 * r <? den then q
  else if den <? 2 * r then q + 1
  else if Z.even q then q else q + 1.

Definition float_div (x y : Z) : Z * Z :=
  if x =? 0 then (0, 0)
  else
    let e0 := Z.log2 x - Z.log2 y in
    let e := if y * 2 ^ Z.max e0 0 <=? x * 2 ^ Z.max (- e0) 0
             then e0 else e0 - 1 in
    let k := Z.max (e - 52) (-1074) in
    (round_half_even (x * 2 ^ Z.max (- k) 0) (y * 2 ^ Z.max k 0), k).

(** [ceil(f)] and [floor(f)] of a float [f >= 0]. *)
Definition float_ceil (f : Z * Z) : Z :=
  let '(n, k) := f in
  if 0 <=? k then n * 2 ^ k else - ((- n) / 2 ^ (- k)).

Definition float_floor (f : Z * Z) : Z :=
  let '(n, k) := f in
  if 0 <=? k then n * 2 ^ k else n / 2 ^ (- k).

(** [ceil(a / b)] and [floor(a / b)] for [b > 0] (the script guards both
    by [args.padding > 0]); [(-a) / b] is the float [- (a / b)]. *)
Definition ceil_div (a b : Z) : Z :=
  if 0 <=? a then float_ceil (float_div a b)
  else - float_floor (float_div (- a) b).

Definition floor_div (a b : Z) : Z :=
  if 0 <=? a then float_floor (float_div a b)
  else - float_ceil (float_div (- a) b).

Section WithArgs.

Variable a : Args.

Definition padChar : str :=
  let padChar := str_of (String "009" "") in
  let padChar := if tabs a then [] else padChar in
  if 0 <? padding a then
    if tabs a then repeat 32 (Z.to_nat (padding a)) else padChar
  else padChar.

(** The value of [padAmount] for a key of length [len_name]. *)
Definition padAmount (maxCaptionLength len_name : Z) : Z :=
  let padAmount :=
    ceil_div maxCaptionLength (padding a) - floor_div (len_name + 2) (padding a) in
  if tabs a then
    (maxCaptionLength + (padding a - maxCaptionLength mod padding a))
    - (len_name + 2)
  else padAmount.

(** The value of [paddingAlignment] for one key. *)
Definition paddingAlignment (maxCaptionLength : Z) (name : pyval) : result str :=
  if negb (no_align a) && (0 <? padding a) then
    n ← len name;
    let innerPadChar := if tabs a then str_of " " else padChar in
    Ok (concat (repeat innerPadChar (Z.to_nat (padAmount maxCaptionLength n))))
  else Ok padChar.

Definition quote : str := str_of (String "034" "").
Definition newline : str := str_of (String "010" "").

Definition caption_line (maxCaptionLength : Z) (output : str)
    (kv : pyval * str) : M str :=
  let '(name, caption) := kv in
  pa ← lift (paddingAlignment maxCaptionLength name);
  when (negb (negb (no_align a) && (0 <? padding a)))
    (print (str_of "WRITING " ++ format name));;
  mret (output ++ padChar ++ padChar ++ quote ++ format name ++ quote
        ++ pa ++ quote ++ caption ++ quote ++ newline).

Definition writeCaptions (outputFile : str) (finalCaptions : list (pyval * str))
    (maxCaptionLength : Z) (language : str) : M unit :=
  print (str_of "Writing captions...");;
  let output :=
    quote ++ str_of "lang" ++ quote ++ newline ++ str_of "{" ++ newline
    ++ padChar ++ quote ++ str_of "Language" ++ quote ++ str_of " " ++ quote
    ++ language ++ quote ++ newline
    ++ padChar ++ quote ++ str_of "Tokens" ++ quote ++ newline
    ++ padChar ++ str_of "{" ++ newline in
  output ← forM finalCaptions (caption_line maxCaptionLength) output;
  write_file outputFile (output ++ padChar ++ str_of "}" ++ newline ++ str_of "}").

End WithArgs.

End Emitter.
Import Emitter.

(* ===================================================================== *)
(** * [main], from [with open(args.input.name, mode="rb") as file] on *)
(* ===================================================================== *)

Module Main.

Definition decode_ascii (b : bytes) : result str :=
  if forallb (fun c => c <? 128) b then Ok b else Raise UnicodeDecodeError.

Definition read_int (n : Z) : M Z :=
  b ← read n; mret (int_from_bytes_little b).

(** The [for name in finalCaptions] loop computing [maxCaptionLength]. *)
Definition max_name_length (finalCaptions : list (pyval * str)) : result Z :=
  for_fold finalCaptions
    (fun maxCaptionLength kv =>
       n ← len (fst kv);
       Ok (if maxCaptionLength <? n then n else maxCaptionLength))
    0.

(** [maxCaptionLength += 2] and the adjustment that follows it. *)
Definition adjust_width (a : Args) (maxCaptionLength : Z) : Z :=
  let maxCaptionLength := maxCaptionLength + 2 in
  if negb (no_align a) && (0 <? padding a)
     && (maxCaptionLength mod padding a =? 0)
  then maxCaptionLength + 1 else maxCaptionLength.

Definition main (fuel : nat) (a : Args) (c : Collaborators)
    (outputFile language : str) : M unit :=
  m ← read 4;
  MAGIC ← lift (decode_ascii m);
  if negb (str_eqb MAGIC (str_of "VCCD")) then
    print (str_of "ERROR: Invalid caption file (MAGIC != "
           ++ quote ++ str_of "VCCD" ++ quote ++ str_of ")");;
    raise SystemExit
  else
    VERSION ← read_int 4;
    if negb (VERSION =? 1) then
      print (str_of "ERROR: Invalid file version " ++ str_int VERSION
             ++ str_of ". Version must be 1!");;
      raise SystemExit
    else
      NUM_BLOCKS ← read_int 4;
      BLOCK_SIZE ← read_int 4;
      DIRECTORY_SIZE ← read_int 4;
      DATA_OFFSET ← read_int 4;
      let HEADER_SIZE := 24 in
      captionDirEntries ← getDirEntries HEADER_SIZE DIRECTORY_SIZE;
      soundscriptCandidates ← getSoundscriptsFromFiles a c;
      finalCaptions ← readCaptionBlocks fuel a captionDirEntries
                         soundscriptCandidates DATA_OFFSET BLOCK_SIZE;
      maxCaptionLength ← lift (max_name_length finalCaptions);
      let maxCaptionLength := adjust_width a maxCaptionLength in
      writeCaptions a outputFile finalCaptions maxCaptionLength language;;
      print (str_of "Finished. Wrote file at " ++ outputFile).

(** The world at the moment the caption file has been opened, on a
    file system that accepts offsets up to [limit], and on one that sets
    no limit of its own. *)
Definition opened_on (limit : Z) (input : bytes) : world :=
  {| content := input; pos := 0; positions := [];
     stdout := []; written := None; seek_max := limit |}.

Definition opened (input : bytes) : world := opened_on (2 ^ 63 - 1) input.

End Main.
Import Main.

(* ===================================================================== *)
(** * The start of [main]: language and output path *)
(* ===================================================================== *)

Module Startup.

(** A character of the class [[a-zA-Z0-9]]. *)
Definition alnum (c : Z) : bool :=
  ((97 <=? c) && (c <=? 122)) || ((65 <=? c) && (c <=? 90))
  || ((48 <=? c) && (c <=? 57)).

(** What is left of [s] behind its longest prefix of such characters. *)
Fixpoint skip_alnum (s : str) : str :=
  match s with
  | [] => []
  | c :: r => if alnum c then skip_alnum r else s
  end.

(** [re.match(r"[a-zA-Z0-9]+_[a-zA-Z0-9]+", s)], as a truth value.  The
    match is anchored at the start of [s] only.  The first group takes
    the longest run of class characters, which must not be empty;
    giving back some of them cannot help, since the next character has
    to be the underscore, which is not in the class. *)
Definition name_matches (s : str) : bool :=
  match s with
  | [] => false
  | c :: r =>
      alnum c
      && match skip_alnum r with
         | u :: d :: _ => (u =? 95) && alnum d
         | _ => false
         end
  end.

(** [s.split(sep)] for a one-character separator. *)
Fixpoint split_on (sep : Z) (s : str) : list str :=
  match s with
  | [] => [[]]
  | c :: r =>
      if c =? sep then [] :: split_on sep r
      else match split_on sep r with
           | h :: t => (c :: h) :: t
           | [] => [[c]]
           end
  end.

(** [l[i]] *)
Definition subscript {A} (l : list A) (i : Z) : result A :=
  j ← py_index l i;
  match l !! j with
  | Some x => Ok x
  | None => Raise IndexError
  end.

(** [if (x)] for an optional string argument: [None] and the empty
    string are false. *)
Definition given (x : option str) : bool :=
  match x with Some s => truthy s | None => false end.

(** The language of the output: the part of [main] from
    initialisation of [language] to the warning. *)
Definition language_of (args_language : option str) (filenameNoExt : str)
  : M str :=
  let language := [] in
  if given args_language then mret (default [] args_language)
  else if name_matches filenameNoExt then
    language ← lift (subscript (split_on 95 filenameNoExt) 1);
    mret language
  else
    print (str_of "WARNING: Input filename does not match regular format, and no language specified. Language will not be set!");;
    mret language.

(** The path of the output file: the reset of [filepath] from "." to
    the empty string, and the part of [main] from the initialisation of
    [outputFile] to the suffix.
    [filepath] and [filenameNoExt] are what [os.path] made of the input
    path. *)
Definition output_path (args_output : option str) (filepath filenameNoExt : str)
    (no_suffix : bool) : str :=
  let filepath := if str_eqb filepath (str_of ".") then [] else filepath in
  let outputFile := [] in
  if given args_output then default [] args_output
  else
    let outputFile :=
      if str_eqb filepath (str_of ".") then filepath else outputFile in
    let outputFile := outputFile ++ filenameNoExt in
    if negb no_suffix then outputFile ++ str_of "_d.txt" else outputFile.

End Startup.
Import Startup.

(* ===================================================================== *)
(** * The index in closed form *)
(* ===================================================================== *)

Module IndexSpec.

(** The value of [foundSoundscripts] when the hashing loop starts: the
    names of the list files, then the names given directly, then (when
    there are soundscript files) the names of each file in turn, the
    whole passed through [list(set(...))]. *)
Definition found_names (a : Args) (c : Collaborators) : list str :=
  let gameSoundsFiles :=
    (if sound_dir_set a then manifest_files c else []) ++ sound_script a in
  let foundSoundscripts := concat (sound_list a) ++ sound_name a in
  if 0 <? Z.of_nat (length gameSoundsFiles)
  then set_list c (foundSoundscripts
                   ++ concat (map (names_in_file c) gameSoundsFiles))
  else foundSoundscripts.

(** Some candidate source was given on the command line. *)
Definition any_source (a : Args) : bool :=
  sound_dir_set a || truthy (sound_script a) || truthy (sound_name a)
  || truthy (sound_list a).

(** A computation that returns [x] and can only print. *)
Definition quiet {A} (m : M A) (x : A) : Prop :=
  forall w, exists w',
    m w = (Ok x, w') /\ content w' = content w /\ pos w' = pos w
    /\ positions w' = positions w /\ written w' = written w
    /\ seek_max w' = seek_max w.


End IndexSpec.
Import IndexSpec.

(* ===================================================================== *)
(** * The layout of a caption file *)
(* ===================================================================== *)

Module Layout.

(** A byte value. *)
Definition byte (b : Z) : Prop := 0 <= b < 256.

(** A directory entry whose fields fit the widths they have in the
    file: 4 bytes for the hash and the block index, 2 bytes for the
    offset and the length. *)
Definition entry_ok (e : entry) : Prop :=
  0 <= hash e < 2 ^ 32 /\ 0 <= index e < 2 ^ 32
  /\ 0 <= offset e < 2 ^ 16 /\ 0 <= length_ e < 2 ^ 16.




(** The caption [c] is stored where the entry [e] says: at
    [DATA_OFFSET + BLOCK_SIZE * index + offset] the stream holds the
    utf-16-le code units of [c] and two more bytes (the terminator), and
    the entry's length is their number of bytes. *)
Definition stored (content : bytes) (DATA_OFFSET BLOCK_SIZE : Z)
    (e : entry) (c : str) : Prop :=
  Forall bmp_unit c
  /\ length_ e = 2 * (Z.of_nat (length c) + 1)
  /\ exists t1 t2 rest,
       drop (Z.to_nat (DATA_OFFSET + BLOCK_SIZE * index e + offset e)) content
       = encode_utf16le c ++ [t1; t2] ++ rest.

(** The directory lists the captions of a block in the order they lie
    in it, without gaps: an entry either continues the current block
    right behind the previous caption, or is the first caption of a
    later block.  [cur] is the current block, [next] the offset behind
    the previous caption. *)
Fixpoint contiguous (cur next : Z) (es : list entry) : Prop :=
  match es with
  | [] => True
  | e :: rest =>
      ((index e = cur /\ offset e = next) \/ (cur < index e /\ offset e = 0))
      /\ contiguous (index e) (offset e + length_ e) rest
  end.

(** The name the reader gives an entry when no name is forced: the
    candidate stored under the entry's hash, or else the hash in
    decimal, padded with zeros to 10 digits. *)
Definition name_of (idx : gmap Z str) (e : entry) : str :=
  match idx !! hash e with
  | Some name => name
  | None => rjust (str_int (hash e)) 10 48
  end.

(** The dictionary that results from assigning the captions in
    directory order. *)
Definition captions_of (idx : gmap Z str) (es : list entry) (cs : list str)
    (d : list (pyval * str)) : list (pyval * str) :=
  fold_left (fun d ec => dict_set d (PStr (name_of idx (fst ec))) (snd ec))
    (combine es cs) d.

(** The number of entries whose hash is a key of the index. *)
Definition matched (idx : gmap Z str) (es : list entry) : Z :=
  Z.of_nat (length (List.filter (fun e => bool_decide (is_Some (idx !! hash e))) es)).

(** A name that compiles back to the hash of the entry [e], or the
    value -1 of an exhausted search. *)
Definition hashes_back (e : entry) (k : pyval) : Prop :=
  k = PInt (-1)
  \/ exists n b, k = PStr n /\ encode_utf8 n = Ok b /\ crc32 b = hash e.

(** Every name in the index is stored under its own checksum. *)
Definition index_sound (idx : gmap Z str) : Prop :=
  forall h n, idx !! h = Some n -> encodable n /\ name_crc n = h.


End Layout.
Import Layout.

(* ===================================================================== *)
(** * Effects of the computations *)
(* ===================================================================== *)

Module Effects.

(** [m] changes at most the stream position. *)
Definition keeps_console {A} (m : M A) : Prop :=
  forall w, same_but_pos w (snd (m w)).


(** A name that is a string. *)
Definition is_str (k : pyval) : Prop := exists s, k = PStr s.










End Effects.
Import Effects.

(* ===================================================================== *)
(** * Properties of the text emitter *)
(* ===================================================================== *)

Module EmitterProps.

(** ** The float quotient is exact below 2^53 *)








(** ** The pad count *)












(** Spec example (8): padding unit 4, widest key field 14, keys of
    length 3 and 11 get 3 and 1 tabs. *)
Example pad_counts_3_11 :
  paddingAlignment default_args 14 (PStr (str_of "abc")) = Ok [9; 9; 9]
  /\ paddingAlignment default_args 14 (PStr (str_of "abcdefghijk")) = Ok [9].
Proof. split; reflexivity. Qed.








End EmitterProps.

(* ===================================================================== *)
(** * Properties of the header checks of [main] *)
(* ===================================================================== *)

Module MainProps.

Lemma run_bind {A B} (m : M A) (k : A -> M B) (w : world) :
  (m ≫= k) w =
  match m w with
  | (Ok x, w') => k x w'
  | (Raise e, w') => (Raise e, w')
  | (OutOfFuel, w') => (OutOfFuel, w')
  end.
Proof. reflexivity. Qed.

Lemma run_bind_Ok {A B} (m : M A) (k : A -> M B) (w w1 : world) (x : A) :
  m w = (Ok x, w1) -> (m ≫= k) w = k x w1.
Proof. intros H. now rewrite run_bind, H. Qed.

Lemma run_bind_Raise {A B} (m : M A) (k : A -> M B) (w w1 : world) (e : exn) :
  m w = (Raise e, w1) -> (m ≫= k) w = (Raise e, w1).
Proof. intros H. now rewrite run_bind, H. Qed.

Lemma run_lift_bind {A B} (r : result A) (k : A -> M B) (w : world) :
  (lift r ≫= k) w =
  match r with
  | Ok x => k x w
  | Raise e => (Raise e, w)
  | OutOfFuel => (OutOfFuel, w)
  end.
Proof. rewrite run_bind. unfold lift. now destruct r. Qed.

Lemma run_mret_bind {A B} (x : A) (k : A -> M B) (w : world) :
  (mret x ≫= k) w = k x w.
Proof. reflexivity. Qed.

Lemma run_bind_assoc {A B C} (m : M A) (f : A -> M B) (g : B -> M C) (w : world) :
  ((m ≫= f) ≫= g) w = (m ≫= (fun x => f x ≫= g)) w.
Proof. rewrite !run_bind. now destruct (m w) as [[x| |] w1]. Qed.

(** A seek within the limit moves the stream; any other fails and
    leaves the world as it is. *)
Lemma seek_ok (p : Z) (w : world) :
  0 <= p <= seek_limit w -> seek p w = (Ok tt, move w p).
Proof.
  intros [H0 H1]. unfold seek.
  replace (p <? 0) with false by (symmetry; apply Z.ltb_ge; lia).
  replace (p <=? seek_limit w) with true by (symmetry; apply Z.leb_le; lia).
  reflexivity.
Qed.

Lemma seek_inside (p : Z) (w : world) :
  0 <= p <= Z.of_nat (length (content w)) -> seek p w = (Ok tt, move w p).
Proof. intros H. apply seek_ok. unfold seek_limit. lia. Qed.

Lemma seek_outcome (p : Z) (w : world) :
  (0 <= p <= seek_limit w /\ seek p w = (Ok tt, move w p))
  \/ ((p < 0 \/ seek_limit w < p)
      /\ exists e, seek p w = (Raise e, w)
                   /\ (e = OSError
                       \/ e = ValueError "cannot fit 'int' into an offset-sized integer")).
Proof.
  unfold seek. destruct (p <? 0) eqn:E0.
  { apply Z.ltb_lt in E0. right. split; [lia|]. eexists. split; [reflexivity|].
    now left. }
  apply Z.ltb_ge in E0. destruct (p <=? seek_limit w) eqn:E1.
  { apply Z.leb_le in E1. left. split; [lia | reflexivity]. }
  apply Z.leb_gt in E1. right. split; [lia|].
  destruct (p <? 2 ^ 63); eexists; (split; [reflexivity|]); [now left | now right].
Qed.

Lemma seek_cases (p : Z) (w : world) :
  seek p w = (Ok tt, move w p) \/ exists e, seek p w = (Raise e, w).
Proof.
  destruct (seek_outcome p w) as [[_ H] | [_ (e & H & _)]];
    [now left | right; now exists e].
Qed.

(** Case analysis on the first seek of the goal. *)
Ltac case_seek :=
  match goal with
  | |- context [seek ?p ?w0] =>
      let H := fresh "Hseek" in
      destruct (seek_cases p w0) as [H | [? H]]; rewrite H; clear H
  end.

Lemma decode_ascii_Ok (b s : list Z) : decode_ascii b = Ok s -> s = b.
Proof.
  unfold decode_ascii. destruct (forallb _ b); congruence.
Qed.

Lemma decode_ascii_cases (b : list Z) :
  decode_ascii b = Ok b \/ decode_ascii b = Raise UnicodeDecodeError.
Proof. unfold decode_ascii. destruct (forallb _ b); auto. Qed.

(** C7: an archive whose first four bytes are not "VCCD", or whose
    version field is not 1, makes [main] stop (by [sys.exit()], or by the
    decoding error of a non-ascii tag) with no output file written and
    with the stream never moved past byte 8, that is before the
    directory, which starts at byte 24, and before any caption block. *)
Theorem main_rejects_bad_header (fuel : nat) (a : Args) (c : Collaborators)
    (outputFile language : list Z) (input : list Z) :
  take 4 input <> str_of "VCCD"
  \/ int_from_bytes_little (take 4 (drop 4 input)) <> 1 ->
  exists e w,
    main fuel a c outputFile language (opened input) = (Raise e, w)
    /\ (e = SystemExit \/ e = UnicodeDecodeError)
    /\ written w = None
    /\ Forall (fun p => p <= 8) (positions w).
Proof.
  intros Hbad. unfold main. rewrite run_bind.
  unfold read at 1. cbn [opened opened_on pos content]. rewrite drop_0.
  assert (Hlen : Z.of_nat (length (take (Z.to_nat 4) input)) <= 4).
  { rewrite length_take. lia. }
  rewrite run_bind. unfold lift at 1.
  destruct (decode_ascii_cases (take (Z.to_nat 4) input)) as [-> | ->].
  2:{ do 2 eexists. split; [reflexivity|]. split; [now right|].
      split; [reflexivity|]. cbn. constructor; [lia | constructor]. }
  destruct (str_eqb (take (Z.to_nat 4) input) (str_of "VCCD")) eqn:Emagic.
  2:{ cbn [negb]. do 2 eexists. split; [reflexivity|]. split; [now left|].
      split; [reflexivity|]. cbn. constructor; [lia | constructor]. }
  cbn [negb].
  destruct Hbad as [Hm | Hv].
  { exfalso. apply Hm. unfold str_eqb in Emagic.
    now apply bool_decide_eq_true in Emagic. }
  rewrite run_bind. unfold read_int at 1. rewrite run_bind.
  unfold read at 1. cbn [move pos content].
  assert (Hpos : Z.of_nat (length (take (Z.to_nat 4) input)) = 4).
  { unfold str_eqb in Emagic. apply bool_decide_eq_true in Emagic.
    now rewrite Emagic. }
  rewrite Hpos. cbn [opened opened_on content move pos].
  change (Z.to_nat (0 + 4)) with 4%nat. change (Z.to_nat 4) with 4%nat in *.
  assert (Hlen2 : Z.of_nat (length (take 4 (drop 4 input))) <= 4).
  { rewrite length_take. lia. }
  cbv beta iota. unfold mret, M_ret.
  destruct (int_from_bytes_little (take 4 (drop 4 input)) =? 1) eqn:Ever.
  { exfalso. apply Hv. now apply Z.eqb_eq in Ever. }
  cbn [negb]. do 2 eexists. split; [reflexivity|]. split; [now left|].
  split; [reflexivity|]. cbn. repeat constructor; lia.
Qed.

Lemma main_rejects_bad_header_witness :
  exists e w,
    main 0 default_args no_files (str_of "out.txt") (str_of "english")
      (opened (str_of "RIFF....")) = (Raise e, w)
    /\ (e = SystemExit \/ e = UnicodeDecodeError)
    /\ written w = None
    /\ Forall (fun p => p <= 8) (positions w).
Proof.
  apply main_rejects_bad_header. left. discriminate.
Defined.

End MainProps.

(* ===================================================================== *)
(** * Properties of the candidate index *)
(* ===================================================================== *)

Module IndexProps.

(** The hashing loop is a left fold of dictionary assignments; it
    touches neither the stream nor the console. *)
Lemma hash_loop_run (l : list (list Z)) (m0 : gmap Z (list Z)) (w : world) :
  Forall encodable l ->
  forM l
    (fun soundscriptCandidates souncscript =>
       b ← lift (encode_utf8 souncscript);
       mret (<[crc32 b := souncscript]> soundscriptCandidates)) m0 w
  = (Ok (foldl (fun m s => <[name_crc s := s]> m) m0 l), w).
Proof.
  intros Hall. revert m0.
  induction Hall as [|s l [b Hb] Hall IH]; intros m0; simpl.
  - reflexivity.
  - rewrite MainProps.run_bind. rewrite MainProps.run_bind.
    unfold lift at 1. rewrite Hb. unfold mret at 1, M_ret at 1.
    rewrite IH. unfold name_crc. now rewrite Hb.
Qed.

Lemma foldl_insert_other (l : list (list Z)) (m0 : gmap Z (list Z)) (h : Z) :
  Forall (fun t => name_crc t <> h) l ->
  foldl (fun m s => <[name_crc s := s]> m) m0 l !! h = m0 !! h.
Proof.
  intros Hall. revert m0. induction Hall as [|t l Ht Hall IH]; intros m0; simpl.
  - reflexivity.
  - rewrite IH. now apply lookup_insert_ne.
Qed.

(** C5, as the code has it: the index build reports nothing when two
    distinct candidates share a checksum.  The hashing loop leaves the
    console (the whole world) untouched, and of the candidates with one
    checksum the entry holds the one seen last: the earlier one is
    overwritten. *)
Theorem hash_names_last_wins (l1 lm l2 : list (list Z)) (s1 s2 : list Z)
    (w : world) :
  Forall encodable (l1 ++ s1 :: lm ++ s2 :: l2) ->
  s1 <> s2 ->
  name_crc s1 = name_crc s2 ->
  Forall (fun t => name_crc t <> name_crc s2) l2 ->
  exists m,
    hash_names (l1 ++ s1 :: lm ++ s2 :: l2) w = (Ok m, w)
    /\ m !! name_crc s1 = Some s2
    /\ m !! name_crc s1 <> Some s1.
Proof.
  intros Henc Hne Hcrc Hlater. unfold hash_names.
  rewrite (hash_loop_run _ (∅ : gmap Z (list Z)) w Henc).
  eexists. split; [reflexivity|].
  assert (Hlk : foldl (fun m s => <[name_crc s := s]> m) (∅ : gmap Z (list Z))
                  (l1 ++ s1 :: lm ++ s2 :: l2) !! name_crc s1 = Some s2).
  { replace (l1 ++ s1 :: lm ++ s2 :: l2)
      with ((l1 ++ s1 :: lm) ++ s2 :: l2) by now rewrite <- app_assoc.
    rewrite foldl_app. simpl. rewrite Hcrc.
    rewrite foldl_insert_other by assumption.
    apply lookup_insert_eq. }
  split; [exact Hlk|]. rewrite Hlk. congruence.
Qed.

Lemma hash_names_last_wins_witness :
  exists m,
    hash_names ([] ++ str_of "plumless" :: [] ++ str_of "buckeroo" :: [])
      (opened []) = (Ok m, opened [])
    /\ m !! name_crc (str_of "plumless") = Some (str_of "buckeroo")
    /\ m !! name_crc (str_of "plumless") <> Some (str_of "plumless").
Proof.
  apply hash_names_last_wins.
  - repeat constructor; eexists; reflexivity.
  - discriminate.
  - vm_compute. reflexivity.
  - constructor.
Defined.

(** C5 as stated fails: "plumless" and "buckeroo" are distinct names with
    the same CRC-32 (0x4DDB0C25).  Given in that order as [--sound-name]
    options, the index build prints its two progress lines and nothing
    else, and the index holds "buckeroo": the first-seen "plumless" has
    been overwritten without any report. *)
Lemma collision_overwrites_silently :
  let plumless := str_of "plumless" in
  let buckeroo := str_of "buckeroo" in
  plumless <> buckeroo
  /\ encode_utf8 plumless = Ok plumless /\ encode_utf8 buckeroo = Ok buckeroo
  /\ crc32 plumless = 0x4DDB0C25 /\ crc32 buckeroo = 0x4DDB0C25
  /\ exists m w,
       getSoundscriptsFromFiles names_plumless_buckeroo no_files (opened [])
       = (Ok m, w)
       /\ m !! 0x4DDB0C25 = Some buckeroo
       /\ size m = 1%nat
       /\ stdout w = [str_of "Checking 2 soundscript names" ++ [10];
                      str_of "Hashing soundscript names..." ++ [10]].
Proof.
  cbv zeta. split; [discriminate|].
  do 4 (split; [vm_compute; reflexivity|]).
  do 2 eexists. split; [vm_compute; reflexivity|].
  split; [vm_compute; reflexivity|].
  split; vm_compute; reflexivity.
Qed.

End IndexProps.

(* ===================================================================== *)
(** * Properties of the archive reader *)
(* ===================================================================== *)

Module ReaderProps.

Import MainProps.

Lemma read2_unit (w : world) (b1 b2 : Z) (tl : list Z) :
  0 <= pos w -> avail w = b1 :: b2 :: tl ->
  read 2 w = (Ok [b1; b2], move w (pos w + 2))
  /\ avail (move w (pos w + 2)) = tl.
Proof.
  intros Hpos Hav. unfold read. fold (avail w). rewrite Hav. split.
  - reflexivity.
  - unfold avail in *. cbn [move pos content].
    replace (Z.to_nat (pos w + 2)) with (Z.to_nat (pos w) + 2)%nat by lia.
    rewrite <- drop_drop, Hav. reflexivity.
Qed.

Lemma read2_end (w : world) :
  avail w = [] -> read 2 w = (Ok [], move w (pos w + 0)).
Proof.
  intros Hav. unfold read. fold (avail w). now rewrite Hav.
Qed.

Lemma utf16_unit_roundtrip (u : Z) :
  0 <= u < 0x10000 -> Z.lor (Z.land u 0xFF) (Z.shiftl (Z.shiftr u 8) 8) = u.
Proof.
  intros Hu. apply Z.bits_inj'. intros n Hn.
  rewrite Z.lor_spec. change 0xFF with (Z.ones 8).
  destruct (Z.lt_ge_cases n 8) as [Hlt | Hge].
  - rewrite Z.land_spec, Z.ones_spec_low by lia.
    rewrite Z.shiftl_spec_low by lia.
    now rewrite andb_true_r, orb_false_r.
  - rewrite Z.land_spec, Z.ones_spec_high by lia.
    rewrite Z.shiftl_spec by lia. rewrite Z.shiftr_spec by lia.
    rewrite andb_false_r. simpl. f_equal. lia.
Qed.

Lemma decode_unit (u : Z) :
  bmp_unit u -> decode_utf16le_unit [Z.land u 0xFF; Z.shiftr u 8] = Ok [u].
Proof.
  intros [Hr Hs]. unfold decode_utf16le_unit.
  rewrite (utf16_unit_roundtrip u Hr).
  destruct ((55296 <=? u) && (u <? 57344)) eqn:E; [|reflexivity].
  apply andb_true_iff in E as [E1 E2].
  apply Z.leb_le in E1. apply Z.ltb_lt in E2. lia.
Qed.

Lemma caption_step_end (cap : list Z) (i : nat) (w : world) :
  avail w = [] ->
  caption_step cap i w = (Ok cap, move w (pos w + 0)).
Proof.
  intros Hav. unfold caption_step.
  rewrite (run_bind_Ok _ _ _ _ _ (read2_end w Hav)).
  rewrite run_lift_bind. simpl. unfold mret, M_ret. now rewrite app_nil_r.
Qed.

Lemma caption_step_unit (cap : list Z) (i : nat) (w : world) (u : Z) (tl : list Z) :
  0 <= pos w -> bmp_unit u ->
  avail w = [Z.land u 0xFF; Z.shiftr u 8] ++ tl ->
  caption_step cap i w = (Ok (cap ++ [u]), move w (pos w + 2))
  /\ avail (move w (pos w + 2)) = tl.
Proof.
  intros Hpos Hu Hav. destruct (read2_unit w _ _ _ Hpos Hav) as [Hread Hav'].
  split; [|exact Hav']. unfold caption_step.
  rewrite (run_bind_Ok _ _ _ _ _ Hread).
  rewrite run_lift_bind, (decode_unit u Hu). reflexivity.
Qed.

(** The text loop of [read_caption] on a stream that ends early. *)
Lemma caption_loop_truncated (N : nat) :
  forall (i : nat) (rest cap : list Z) (w : world),
    0 <= pos w -> avail w = encode_utf16le rest ->
    Forall bmp_unit rest -> (length rest <= N)%nat ->
    exists w',
      forM (seq i N) caption_step cap w = (Ok (cap ++ rest), w')
      /\ pos w' = pos w + 2 * Z.of_nat (length rest)
      /\ avail w' = [] /\ same_but_pos w w'.
Proof.
  induction N as [|N IH]; intros i rest cap w Hpos Hav Hbmp Hlen.
  - destruct rest; [|simpl in Hlen; lia]. exists w. simpl.
    rewrite app_nil_r. repeat split; [lia | exact Hav].
  - simpl seq. simpl forM. destruct rest as [|u rest].
    + rewrite (run_bind_Ok _ _ _ _ _ (caption_step_end cap i w Hav)).
      destruct (IH (S i) [] cap (move w (pos w + 0))) as (w' & Hrun & Hp & Ha & Hs).
      * simpl. lia.
      * unfold avail in *. simpl. now rewrite Z.add_0_r.
      * constructor.
      * simpl. lia.
      * exists w'. rewrite Hrun.
        repeat split; try assumption; [simpl in *; lia | apply Hs..].
    + simpl in Hav. inversion Hbmp as [|? ? Hu Hrest]; subst.
      destruct (caption_step_unit cap i w u _ Hpos Hu Hav) as [Hstep Hav'].
      rewrite (run_bind_Ok _ _ _ _ _ Hstep).
      destruct (IH (S i) rest (cap ++ [u]) (move w (pos w + 2)))
        as (w' & Hrun & Hp & Ha & Hs).
      * simpl. lia.
      * exact Hav'.
      * exact Hrest.
      * simpl in Hlen. lia.
      * exists w'. rewrite Hrun. rewrite <- app_assoc. simpl.
        repeat split; try assumption; [simpl in *; lia | apply Hs..].
Qed.

(** C6, as the code has it: a truncated block does not abort the read.
    When the stream holds fewer bytes than the entry's (even) [length]
    declares, and ends on a code-unit boundary, [read_caption] succeeds:
    the caption is the text that is there, the stream stops at its end
    (reads never go past it), and nothing else in the world changes. *)
Theorem read_caption_truncated (e : entry) (units : list Z) (w : world) :
  0 <= pos w ->
  avail w = encode_utf16le units ->
  Forall bmp_unit units ->
  Z.even (length_ e) = true ->
  Z.of_nat (length (avail w)) < length_ e ->
  exists w',
    read_caption e w = (Ok units, w')
    /\ pos w' = pos w + Z.of_nat (length (avail w))
    /\ avail w' = []
    /\ same_but_pos w w'.
Proof.
  intros Hpos Hav Hbmp Heven Htrunc.
  assert (Hbytes : Z.of_nat (length (avail w)) = 2 * Z.of_nat (length units)).
  { rewrite Hav. clear. induction units as [|u us IH]; simpl length; [reflexivity|].
    unfold encode_utf16le in *. lia. }
  assert (Hn : (length units <= Z.to_nat (Z.quot (length_ e) 2 - 1))%nat).
  { apply Z.even_spec in Heven as [h Hh].
    rewrite Hh in *. rewrite Z.mul_comm, Z.quot_mul by lia. lia. }
  unfold read_caption, range.
  destruct (caption_loop_truncated _ 0%nat units [] w Hpos Hav Hbmp Hn)
    as (w1 & Hrun & Hp & Ha & Hs).
  rewrite (run_bind_Ok _ _ _ _ _ Hrun). simpl app.
  rewrite (run_bind_Ok _ _ _ _ _ (read2_end w1 Ha)).
  exists (move w1 (pos w1 + 0)). split; [reflexivity|].
  split; [simpl; lia|]. split.
  - unfold avail in *. simpl. now rewrite Z.add_0_r.
  - exact Hs.
Qed.

Lemma read_caption_truncated_witness :
  exists w',
    read_caption {| hash := 12345; index := 0; offset := 0; length_ := 12 |}
      (opened (encode_utf16le (str_of "He"))) = (Ok (str_of "He"), w')
    /\ pos w' = 0 + Z.of_nat (length (avail (opened (encode_utf16le (str_of "He")))))
    /\ avail w' = []
    /\ same_but_pos (opened (encode_utf16le (str_of "He"))) w'.
Proof.
  apply read_caption_truncated.
  - simpl. lia.
  - reflexivity.
  - change (str_of "He") with [72; 101].
    repeat (apply List.Forall_cons; [unfold bmp_unit; lia|]).
    apply List.Forall_nil.
  - reflexivity.
  - simpl. lia.
Defined.

(** C6 as stated fails: the archive [truncated_archive] has one entry
    declaring 12 bytes and only 4 bytes of data.  [main] does not fail:
    it finishes normally and writes an output file holding the caption
    cut short. *)
Lemma truncated_block_is_read_silently :
  length truncated_archive = 40%nat
  /\ exists w,
       main 0 default_args no_files (str_of "out.txt") (str_of "english")
         (opened truncated_archive) = (Ok tt, w)
       /\ written w =
          Some (str_of "out.txt",
                quote ++ str_of "lang" ++ quote ++ [10] ++ str_of "{" ++ [10]
                ++ [9] ++ quote ++ str_of "Language" ++ quote ++ str_of " "
                ++ quote ++ str_of "english" ++ quote ++ [10]
                ++ [9] ++ quote ++ str_of "Tokens" ++ quote ++ [10]
                ++ [9] ++ str_of "{" ++ [10]
                ++ [9; 9] ++ quote ++ str_of "0000012345" ++ quote ++ [9]
                ++ quote ++ str_of "He" ++ quote ++ [10]
                ++ [9] ++ str_of "}" ++ [10] ++ str_of "}").
Proof.
  split; [reflexivity|]. eexists. split; vm_compute; reflexivity.
Qed.

(** ** The stream position during block reading *)

Lemma never_backward_glue (l1 l2 : list Z) (x : Z) :
  never_backward (l1 ++ [x]) -> never_backward (x :: l2) ->
  never_backward (l1 ++ x :: l2).
Proof.
  induction l1 as [|p l1 IH]; intros H1 H2; [exact H2|].
  destruct l1 as [|q l1]; simpl in *.
  - destruct H1. split; assumption.
  - destruct H1 as [Hqp H1]. split; [assumption|]. apply IH; assumption.
Qed.

Lemma never_backward_hd (l : list Z) (x : Z) :
  never_backward (l ++ [x]) -> x <= hd x l.
Proof.
  induction l as [|p l IH]; intros H; simpl; [lia|].
  destruct l as [|q l]; simpl in *.
  - lia.
  - destruct H as [Hqp H]. specialize (IH H). lia.
Qed.

Lemma fwd_refl (w : world) : fwd w w.
Proof. exists []. simpl. auto. Qed.

Lemma fwd_le (w w' : world) : fwd w w' -> pos w <= pos w'.
Proof.
  intros (new & _ & Hnb & Hhd). rewrite <- Hhd. now apply never_backward_hd.
Qed.

Lemma fwd_trans (w w1 w2 : world) : fwd w w1 -> fwd w1 w2 -> fwd w w2.
Proof.
  intros (n1 & Hp1 & Hnb1 & Hhd1) (n2 & Hp2 & Hnb2 & Hhd2).
  exists (n2 ++ n1). split; [|split].
  - now rewrite Hp2, Hp1, app_assoc.
  - rewrite <- app_assoc. destruct n1 as [|p n1]; simpl in *.
    + now rewrite Hhd1.
    + subst p. apply never_backward_glue; assumption.
  - destruct n2 as [|p n2]; simpl in *; [|assumption].
    now rewrite <- Hhd2.
Qed.

Lemma fwd_move (w : world) (p : Z) : pos w <= p -> fwd w (move w p).
Proof.
  intros Hle. exists [p]. simpl. auto.
Qed.

Lemma fwd_same_stream (w w' : world) :
  pos w' = pos w -> positions w' = positions w -> fwd w w'.
Proof.
  intros Hp Hps. exists []. simpl. auto.
Qed.

Lemma advances_mret {A} (x : A) : advances 0 (mret x : M A).
Proof. intros w. simpl. split; [apply fwd_refl | lia]. Qed.

Lemma advances_lift {A} (r : result A) : advances 0 (lift r).
Proof. intros w. simpl. split; [apply fwd_refl | lia]. Qed.

Lemma advances_print_noend (s : list Z) : advances 0 (print_noend s).
Proof.
  intros w. simpl. split; [now apply fwd_same_stream | lia].
Qed.

Lemma advances_print (s : list Z) : advances 0 (print s).
Proof. apply advances_print_noend. Qed.

Lemma advances_read (n : Z) : advances (Z.max n 0) (read n).
Proof.
  intros w. unfold read. cbn [snd move pos].
  assert (Hlen : Z.of_nat (length (take (Z.to_nat n)
                   (drop (Z.to_nat (pos w)) (content w)))) <= Z.max n 0).
  { rewrite length_take. lia. }
  split; [apply fwd_move|]; lia.
Qed.

Lemma advances_mono {A} (k k' : Z) (m : M A) :
  k <= k' -> advances k m -> advances k' m.
Proof. intros Hle H w. destruct (H w). split; [assumption | lia]. Qed.

Lemma advances_bind {A B} (k1 k2 : Z) (m : M A) (f : A -> M B) :
  0 <= k2 -> advances k1 m -> (forall x, advances k2 (f x)) ->
  advances (k1 + k2) (m ≫= f).
Proof.
  intros Hk Hm Hf w. rewrite run_bind.
  specialize (Hm w). destruct (m w) as [[x| |] w1]; simpl in Hm.
  - destruct (Hf x w1) as [Hfw Hpos]. destruct Hm.
    split; [eapply fwd_trans; eassumption | lia].
  - simpl. destruct Hm. split; [assumption | lia].
  - simpl. destruct Hm. split; [assumption | lia].
Qed.

Lemma advances_when (b : bool) (m : M unit) :
  advances 0 m -> advances 0 (when b m).
Proof. intros H. destruct b; [exact H | apply (advances_mret tt)]. Qed.

Lemma advances_forM {A S} (k : Z) (body : S -> A -> M S) (l : list A) :
  0 <= k -> (forall s x, advances k (body s x)) ->
  forall s, advances (k * Z.of_nat (length l)) (forM l body s).
Proof.
  intros Hk Hbody. induction l as [|x l IH]; intros s.
  - simpl forM. eapply advances_mono; [|apply advances_mret]. simpl. lia.
  - simpl forM.
    replace (k * Z.of_nat (length (x :: l)))
      with (k + k * Z.of_nat (length l)) by (simpl length; lia).
    apply advances_bind; [nia | apply Hbody | apply IH].
Qed.

Lemma advances_caption_step (cap : list Z) (i : nat) :
  advances 2 (caption_step cap i).
Proof.
  unfold caption_step. change 2 with (Z.max 2 0 + 0).
  apply advances_bind; [lia | apply advances_read |]. intros b.
  change 0 with (0 + 0).
  apply advances_bind; [lia | apply advances_lift |]. intros c.
  apply advances_mret.
Qed.

Lemma advances_read_caption (e : entry) :
  advances (entry_bytes e) (read_caption e).
Proof.
  unfold read_caption, entry_bytes.
  replace (2 * (Z.max (Z.quot (length_ e) 2 - 1) 0 + 1))
    with (2 * Z.of_nat (length (range (Z.quot (length_ e) 2 - 1))) + 2)
    by (unfold range; rewrite length_seq; lia).
  apply advances_bind; [lia | |].
  - apply advances_forM; [lia | apply advances_caption_step].
  - intros cap. change 2 with (Z.max 2 0 + 0).
    apply advances_bind; [lia | apply advances_read |]. intros _.
    apply advances_mret.
Qed.

Lemma advances_resolve_name (fuel : nat) (a : Args) (cands : gmap Z (list Z))
    (matching : bool) (e : entry) (line matches : Z) :
  advances 0 (resolve_name fuel a cands matching e line matches).
Proof.
  unfold resolve_name. destruct matching; [|apply advances_mret].
  destruct (cands !! hash e); [apply advances_mret|].
  change 0 with (0 + 0).
  apply advances_bind; [lia | apply advances_when, advances_print_noend |].
  intros _. destruct (same_hashes a).
  - change 0 with (0 + 0).
    apply advances_bind; [lia | apply advances_when, advances_print |].
    intros _. change 0 with (0 + 0).
    apply advances_bind; [lia | apply advances_lift |]. intros v.
    apply advances_mret.
  - change 0 with (0 + 0).
    apply advances_bind; [lia | apply advances_when, advances_print |].
    intros _. apply advances_mret.
Qed.

Lemma entry_bytes_pos (e : entry) : 0 <= entry_bytes e.
Proof. unfold entry_bytes. lia. Qed.

Section BlockLoop.

Variables (fuel : nat) (a : Args) (cands : gmap Z (list Z)) (matching : bool).
Variables (DATA_OFFSET BLOCK_SIZE : Z).

Abbreviation after_seek := (Reader.after_seek fuel a cands matching).

Lemma advances_after_seek (s : rstate) (e : entry) :
  advances (entry_bytes e) (after_seek s e).
Proof.
  unfold Reader.after_seek.
  replace (entry_bytes e) with (entry_bytes e + 0) by lia.
  apply advances_bind; [lia | apply advances_read_caption |]. intros cap.
  change 0 with (0 + 0).
  apply advances_bind; [lia | apply advances_resolve_name |].
  intros [name matches]. apply advances_mret.
Qed.

Lemma after_seek_block (s s' : rstate) (e : entry) (w : world) :
  fst (after_seek s e w) = Ok s' -> blockIndex s' = index e.
Proof.
  unfold Reader.after_seek. rewrite run_bind.
  destruct (read_caption e w) as [[cap| |] w1]; try discriminate.
  rewrite run_bind.
  destruct (resolve_name _ _ _ _ _ _ _ w1) as [[[name matches]| |] w2];
    try discriminate.
  simpl. intros H. inversion H. reflexivity.
Qed.

(** One entry: the stream moves forward provided the block to seek to,
    if any, does not start before the current position. *)
Lemma read_entry_fwd (s : rstate) (e : entry) (w : world) :
  (blockIndex s < index e -> pos w <= DATA_OFFSET + BLOCK_SIZE * index e) ->
  fwd w (snd (read_entry fuel a cands matching DATA_OFFSET BLOCK_SIZE s e w))
  /\ pos (snd (read_entry fuel a cands matching DATA_OFFSET BLOCK_SIZE s e w))
     <= (if blockIndex s <? index e
         then DATA_OFFSET + BLOCK_SIZE * index e else pos w) + entry_bytes e
  /\ forall s',
       fst (read_entry fuel a cands matching DATA_OFFSET BLOCK_SIZE s e w) = Ok s' ->
       blockIndex s' = index e.
Proof.
  intros Hseek. unfold read_entry.
  pose proof (entry_bytes_pos e) as Hbytes.
  rewrite run_bind. destruct (blockIndex s <? index e) eqn:E.
  - apply Z.ltb_lt in E. specialize (Hseek E).
    unfold when. case_seek.
    2:{ simpl. split; [apply fwd_refl|]. split; [lia | discriminate]. }
    { destruct (advances_after_seek s e
                  (move w (DATA_OFFSET + BLOCK_SIZE * index e))) as [Hf Hp].
      split; [|split].
      * eapply fwd_trans; [apply fwd_move; exact Hseek | exact Hf].
      * exact Hp.
      * intros s'. apply after_seek_block. }
  - unfold when. change ((mret tt : M unit) w) with (Ok tt, w).
    destruct (advances_after_seek s e w) as [Hf Hp].
    split; [exact Hf|]. split; [exact Hp|].
    intros s'. apply after_seek_block.
Qed.

(** The loop over the directory. *)
Lemma block_loop_fwd (es : list entry) :
  forall (s : rstate) (used : Z) (w : world),
    visits_monotone (blockIndex s) es ->
    blocks_fit BLOCK_SIZE (blockIndex s) used es ->
    pos w <= DATA_OFFSET + BLOCK_SIZE * blockIndex s + used ->
    fwd w (snd (forM es (read_entry fuel a cands matching DATA_OFFSET BLOCK_SIZE)
                  s w)).
Proof.
  induction es as [|e es IH]; intros s used w Hmono Hfit Hpos.
  - simpl. apply fwd_refl.
  - simpl forM. rewrite run_bind.
    destruct Hmono as [Hcur Hmono]. simpl in Hfit.
    assert (Hpre : blockIndex s < index e ->
                   pos w <= DATA_OFFSET + BLOCK_SIZE * index e).
    { intros Hlt. apply Z.ltb_lt in Hlt. rewrite Hlt in Hfit.
      destruct Hfit as [Hused _]. lia. }
    destruct (read_entry_fwd s e w Hpre) as (Hf & Hp & Hblock).
    destruct (read_entry fuel a cands matching DATA_OFFSET BLOCK_SIZE s e w)
      as [[s'| |] w1]; simpl in *; try exact Hf.
    specialize (Hblock s' eq_refl).
    eapply fwd_trans; [exact Hf|].
    destruct (blockIndex s <? index e) eqn:E.
    + destruct Hfit as [_ Hfit].
      apply (IH s' (entry_bytes e)); rewrite ?Hblock; [assumption.. | lia].
    + apply Z.ltb_ge in E. assert (Heq : index e = blockIndex s) by lia.
      apply (IH s' (used + entry_bytes e)); rewrite ?Hblock;
        [assumption.. | rewrite Heq; lia].
Qed.

End BlockLoop.

(** The reader seeks exactly when the entry's block index exceeds the
    current one, and then to [DATA_OFFSET + BLOCK_SIZE * index]. *)
Lemma read_entry_seek (fuel : nat) (a : Args) (cands : gmap Z (list Z))
    (matching : bool) (DATA_OFFSET BLOCK_SIZE : Z) (s : rstate) (e : entry) :
  read_entry fuel a cands matching DATA_OFFSET BLOCK_SIZE s e
  = ((if blockIndex s <? index e
      then seek (DATA_OFFSET + BLOCK_SIZE * index e) else mret tt) ;;
     after_seek fuel a cands matching s e).
Proof. reflexivity. Qed.

(** C9, as the code has it: the reader seeks (to dataOffset + blockSize
    * blockIndex) only when an entry's block index exceeds the current
    one; for every archive whose directory visits blocks monotonically
    and whose captions never reach past the start of the next visited
    block, read from a stream that is not yet past dataOffset, the
    stream position never moves backward during block reading, from the
    position the reader finds on, whatever the outcome of the read. *)
Theorem readCaptionBlocks_never_backward (fuel : nat) (a : Args)
    (es : list entry) (cands : gmap Z (list Z)) (DATA_OFFSET BLOCK_SIZE : Z)
    (w : world) :
  visits_monotone 0 es ->
  blocks_fit BLOCK_SIZE 0 0 es ->
  pos w <= DATA_OFFSET ->
  (forall matching s e,
      read_entry fuel a cands matching DATA_OFFSET BLOCK_SIZE s e
      = ((if blockIndex s <? index e
          then seek (DATA_OFFSET + BLOCK_SIZE * index e) else mret tt) ;;
         after_seek fuel a cands matching s e))
  /\ exists trace,
      positions (snd (readCaptionBlocks fuel a es cands DATA_OFFSET BLOCK_SIZE w))
      = trace ++ positions w
      /\ never_backward (trace ++ [pos w]).
Proof.
  intros Hmono Hfit Hstart. split; [intros; apply read_entry_seek|].
  unfold readCaptionBlocks.
  set (matching := 0 <? Z.of_nat (size cands)).
  set (s0 := {| blockIndex := 0; ssHashMatches := 0; captionLineIndex := 6;
                finalCaptions := [] |}).
  set (loop := forM es (read_entry fuel a cands matching DATA_OFFSET BLOCK_SIZE) s0).
  set (report := fun s : rstate => _).
  (* the three progress prints *)
  rewrite run_bind. cbn [print_noend].
  set (w1 := {| content := content w; pos := pos w; positions := positions w;
                stdout := stdout w ++ [str_of "Reading caption blocks"];
                written := written w;
                seek_max := seek_max w |}).
  rewrite run_bind.
  assert (Hw2 : exists w2, when matching
                  (print_noend (str_of " and attempting to match hashes and names")) w1
                  = (Ok tt, w2) /\ pos w2 = pos w /\ positions w2 = positions w).
  { destruct matching; eexists; (split; [reflexivity|]); split; reflexivity. }
  destruct Hw2 as (w2 & -> & Hp2 & Hps2).
  rewrite run_bind. unfold print at 1. cbn [print_noend].
  set (w3 := {| content := content w2; pos := pos w2; positions := positions w2;
                stdout := stdout w2 ++ [str_of "..." ++ str_of (String "010" "")];
                written := written w2;
                seek_max := seek_max w2 |}).
  rewrite run_bind. case_seek.
  2:{ exists []. simpl. split; [assumption | exact I]. }
  set (w4 := move w3 DATA_OFFSET).
  rewrite run_bind.
  assert (Hloop : fwd w4 (snd (loop w4))).
  { apply (block_loop_fwd fuel a cands matching DATA_OFFSET BLOCK_SIZE es s0 0 w4);
      [exact Hmono | exact Hfit | simpl; lia]. }
  destruct Hloop as (new & Hps & Hnb & _).
  assert (Htrace : positions (snd (loop w4)) = (new ++ [DATA_OFFSET]) ++ positions w).
  { rewrite Hps. simpl. rewrite Hps2. now rewrite <- app_assoc. }
  assert (Hnb' : never_backward ((new ++ [DATA_OFFSET]) ++ [pos w])).
  { rewrite <- app_assoc. apply never_backward_glue; [exact Hnb|].
    simpl. split; [exact Hstart | exact I]. }
  destruct (loop w4) as [[s| |] w5]; simpl in Htrace;
    [| exists (new ++ [DATA_OFFSET]); split; assumption ..].
  (* the report at the end leaves the stream alone *)
  exists (new ++ [DATA_OFFSET]). split; [|exact Hnb'].
  rewrite <- Htrace. subst report. cbv beta.
  rewrite run_bind. unfold print at 1. cbn [print_noend].
  rewrite run_bind.
  destruct (negb (ssHashMatches s =? Z.of_nat (length es))); reflexivity.
Qed.

Lemma readCaptionBlocks_never_backward_witness :
  exists trace,
    positions (snd (readCaptionBlocks 0 default_args
                      [ {| hash := 12345; index := 0; offset := 0; length_ := 6 |};
                        {| hash := 54321; index := 1; offset := 0; length_ := 6 |} ]
                      ∅ 48 8 (opened overfull_archive)))
    = trace ++ positions (opened overfull_archive)
    /\ never_backward (trace ++ [pos (opened overfull_archive)]).
Proof.
  apply readCaptionBlocks_never_backward.
  - simpl. lia.
  - cbv -[Z.le]. lia.
  - simpl. lia.
Defined.

(** C9 as stated fails: the directory of [overfull_archive] is
    [overfull_entries], which visits block 0 and then block 1; the first
    caption takes 12 bytes of a block of 8, so that after reading it at
    48..60 the reader seeks back to 56, the start of block 1. *)
Lemma overfull_block_moves_backward :
  fst (getDirEntries 24 2 (opened overfull_archive)) = Ok overfull_entries
  /\ visits_monotone 0 overfull_entries
  /\ positions (snd (readCaptionBlocks 0 default_args overfull_entries ∅ 48 8
                       (opened overfull_archive)))
     = [62; 60; 58; 56; 60; 58; 56; 54; 52; 50; 48]
  /\ ~ never_backward
        (positions (snd (readCaptionBlocks 0 default_args overfull_entries ∅ 48 8
                           (opened overfull_archive)))).
Proof.
  split; [vm_compute; reflexivity|].
  split; [simpl; lia|].
  assert (H : positions (snd (readCaptionBlocks 0 default_args overfull_entries ∅ 48 8
                                (opened overfull_archive)))
              = [62; 60; 58; 56; 60; 58; 56; 54; 52; 50; 48])
    by (vm_compute; reflexivity).
  split; [exact H|]. rewrite H. simpl. lia.
Qed.

(** The bound on the start matters as well: the reader's own seek to
    the data offset goes backward when the stream is already past it, as
    it is behind a directory that ends at 36 when the header gives a data
    offset of 0. *)
Lemma seek_to_data_offset_moves_backward :
  positions (snd (readCaptionBlocks 0 default_args [] ∅ 0 8192
                    (snd (getDirEntries 24 1 (opened truncated_archive)))))
  = [0; 36; 34; 32; 28; 24]
  /\ ~ never_backward [0; 36; 34; 32; 28; 24].
Proof. split; [vm_compute; reflexivity | simpl; lia]. Qed.

End ReaderProps.

(* ===================================================================== *)
(** * Bit-level facts *)
(* ===================================================================== *)

Module Bits.

(** Equalities between xor-combinations, bit by bit. *)
Ltac xor_solve :=
  apply Z.bits_inj; intros ?i;
  rewrite ?Z.lxor_spec, ?Z.bits_0;
  repeat match goal with
         | |- context [Z.testbit ?a ?i] =>
             let b := fresh "b" in
             generalize (Z.testbit a i); intros b; destruct b
         end;
  reflexivity.

Lemma lxor_swap (a b c d : Z) :
  Z.lxor (Z.lxor a b) (Z.lxor c d) = Z.lxor (Z.lxor a c) (Z.lxor b d).
Proof. xor_solve. Qed.

Lemma lxor_cancel_r (a b : Z) : Z.lxor (Z.lxor a b) b = a.
Proof. xor_solve. Qed.

Lemma land_1_odd (y : Z) : Z.land y 1 = if Z.odd y then 1 else 0.
Proof.
  change 1 with (Z.ones 1) at 1. rewrite Z.land_ones by lia.
  change (2 ^ 1) with 2. rewrite Zmod_odd. reflexivity.
Qed.

Lemma mul_land_1 (x y : Z) : x * Z.land y 1 = if Z.odd y then x else 0.
Proof. rewrite land_1_odd. destruct (Z.odd y); lia. Qed.

Lemma odd_lxor (a b : Z) : Z.odd (Z.lxor a b) = xorb (Z.odd a) (Z.odd b).
Proof. rewrite <- !Z.bit0_odd. apply Z.lxor_spec. Qed.

(** [0 <= x < 2^n], bit by bit. *)
Lemma below_pow2_bits (x n : Z) :
  0 <= n -> 0 <= x < 2 ^ n -> forall j, n <= j -> Z.testbit x j = false.
Proof.
  intros Hn [Hx0 Hx] j Hj.
  destruct (Z.eq_dec x 0) as [-> | Hne]; [apply Z.bits_0|].
  apply Z.bits_above_log2; [lia|].
  assert (Z.log2 x < n) by (apply Z.log2_lt_pow2; lia). lia.
Qed.

Lemma bits_below_pow2 (x n : Z) :
  0 <= n -> 0 <= x -> (forall j, n <= j -> Z.testbit x j = false) ->
  x < 2 ^ n.
Proof.
  intros Hn Hx Hbits.
  destruct (Z.eq_dec x 0) as [-> | Hne]; [apply Z.pow_pos_nonneg; lia|].
  apply Z.log2_lt_pow2; [lia|].
  destruct (Z.lt_ge_cases (Z.log2 x) n) as [Hlt | Hge]; [assumption|].
  specialize (Hbits (Z.log2 x) Hge).
  rewrite Z.bit_log2 in Hbits by lia. discriminate.
Qed.

Lemma lxor_below (x y n : Z) :
  0 <= n -> 0 <= x < 2 ^ n -> 0 <= y < 2 ^ n -> 0 <= Z.lxor x y < 2 ^ n.
Proof.
  intros Hn Hx Hy.
  assert (H0 : 0 <= Z.lxor x y) by (apply Z.lxor_nonneg; lia).
  split; [assumption|]. apply bits_below_pow2; [assumption..|].
  intros j Hj. rewrite Z.lxor_spec.
  rewrite (below_pow2_bits x n), (below_pow2_bits y n) by assumption.
  reflexivity.
Qed.

Lemma shiftr_below (y n : Z) :
  0 <= n -> 0 <= y < 2 ^ (n + 1) -> 0 <= Z.shiftr y 1 < 2 ^ n.
Proof.
  intros Hn Hy. rewrite Z.shiftr_div_pow2 by lia. change (2 ^ 1) with 2.
  rewrite Z.pow_add_r in Hy by lia. change (2 ^ 1) with 2 in Hy.
  split; [apply Z.div_pos; lia | apply Z.div_lt_upper_bound; lia].
Qed.

(** A map that respects xor is determined by its values on the powers
    of two. *)
Lemma linear_basis (f g : Z -> Z) (n : nat) :
  (forall a b, f (Z.lxor a b) = Z.lxor (f a) (f b)) ->
  (forall a b, g (Z.lxor a b) = Z.lxor (g a) (g b)) ->
  (forall i, (i < n)%nat -> f (2 ^ Z.of_nat i) = g (2 ^ Z.of_nat i)) ->
  forall x, 0 <= x < 2 ^ Z.of_nat n -> f x = g x.
Proof.
  intros Hf Hg Hbasis.
  assert (Hf0 : f 0 = 0).
  { pose proof (Hf 0 0) as H. rewrite Z.lxor_0_l in H.
    transitivity (Z.lxor (f 0) (f 0)); [exact H | apply Z.lxor_nilpotent]. }
  assert (Hg0 : g 0 = 0).
  { pose proof (Hg 0 0) as H. rewrite Z.lxor_0_l in H.
    transitivity (Z.lxor (g 0) (g 0)); [exact H | apply Z.lxor_nilpotent]. }
  induction n as [|n IH]; intros x Hx.
  - simpl in Hx. assert (x = 0) by lia. subst. congruence.
  - assert (Hsplit : x = Z.lxor (x mod 2 ^ Z.of_nat n)
                          (if Z.testbit x (Z.of_nat n) then 2 ^ Z.of_nat n else 0)).
    { apply Z.bits_inj'. intros j Hj. rewrite Z.lxor_spec.
      destruct (Z.lt_ge_cases j (Z.of_nat n)) as [Hlt | Hge].
      - rewrite Z.mod_pow2_bits_low by lia.
        destruct (Z.testbit x (Z.of_nat n)).
        + rewrite Z.pow2_bits_false by lia. now rewrite xorb_false_r.
        + now rewrite Z.bits_0, xorb_false_r.
      - rewrite Z.mod_pow2_bits_high by lia.
        destruct (Z.eq_dec j (Z.of_nat n)) as [-> | Hne].
        + destruct (Z.testbit x (Z.of_nat n)) eqn:E.
          * now rewrite Z.pow2_bits_true by lia.
          * now rewrite Z.bits_0.
        + rewrite (below_pow2_bits x (Z.of_nat (S n))) by lia.
          destruct (Z.testbit x (Z.of_nat n)).
          * now rewrite Z.pow2_bits_false by lia.
          * now rewrite Z.bits_0. }
    rewrite Hsplit, Hf, Hg.
    rewrite IH.
    + destruct (Z.testbit x (Z.of_nat n)); [|congruence].
      rewrite Hbasis by lia. reflexivity.
    + intros i Hi. apply Hbasis. lia.
    + apply Z.mod_pos_bound. apply Z.pow_pos_nonneg; lia.
Qed.

End Bits.

(* ===================================================================== *)
(** * Properties of the checksum engine *)
(* ===================================================================== *)

Module EngineProps.

Import Bits.

#[local] Arguments Z.shiftl : simpl never.
#[local] Arguments Z.shiftr : simpl never.
#[local] Arguments Z.lxor : simpl never.
#[local] Arguments Z.lor : simpl never.
#[local] Arguments Z.land : simpl never.
#[local] Arguments Z.testbit : simpl never.
#[local] Arguments Z.mul : simpl never.
#[local] Arguments Z.pow : simpl never.

(** ** [multiply_mod] *)

Lemma multiply_mod_loop_unfold (n : nat) (x y z : Z) :
  multiply_mod_loop n x y z
  = if y =? 0 then Ok z
    else match n with
         | O => OutOfFuel
         | S n' =>
             multiply_mod_loop n' (shift_reduce x) (Z.shiftr y 1)
               (Z.lxor z (x * Z.land y 1))
         end.
Proof. destruct n; reflexivity. Qed.

Lemma peasant_S (n : nat) (x y : Z) :
  peasant (S n) x y
  = Z.lxor (x * Z.land y 1) (peasant n (shift_reduce x) (Z.shiftr y 1)).
Proof. reflexivity. Qed.

Lemma peasant_0 (n : nat) (x : Z) : peasant n x 0 = 0.
Proof.
  revert x. induction n as [|n IH]; intros x; simpl; [reflexivity|].
  rewrite IH. change (Z.land 0 1) with 0. now rewrite Z.mul_0_r.
Qed.

(** The loop adds to [z] the closed form over the bits of [y], and
    stops, as soon as the fuel covers the bits of [y]. *)
Lemma multiply_mod_loop_spec (n : nat) :
  forall (fuel : nat) (x y z : Z),
    0 <= y < 2 ^ Z.of_nat n -> (n <= fuel)%nat ->
    multiply_mod_loop fuel x y z = Ok (Z.lxor z (peasant n x y)).
Proof.
  induction n as [|n IH]; intros fuel x y z Hy Hfuel.
  - assert (y = 0) by (change (2 ^ Z.of_nat 0) with 1 in Hy; lia). subst y.
    rewrite multiply_mod_loop_unfold. simpl. now rewrite Z.lxor_0_r.
  - destruct fuel as [|fuel]; [lia|]. rewrite multiply_mod_loop_unfold.
    destruct (y =? 0) eqn:E.
    + apply Z.eqb_eq in E. subst y. now rewrite peasant_0, Z.lxor_0_r.
    + rewrite IH.
      * simpl peasant. now rewrite Z.lxor_assoc.
      * apply shiftr_below; [lia|].
        replace (Z.of_nat n + 1) with (Z.of_nat (S n)) by lia. exact Hy.
      * lia.
Qed.

Lemma multiply_mod_spec (fuel : nat) (x y : Z) :
  0 <= y < 2 ^ Z.of_nat fuel ->
  multiply_mod fuel x y = Ok (peasant fuel x y).
Proof.
  intros Hy. unfold multiply_mod.
  now rewrite (multiply_mod_loop_spec fuel fuel x y 0 Hy (le_n _)).
Qed.

(** With a negative [y] the loop never ends: [y >>= 1] stays negative. *)
Lemma multiply_mod_negative (fuel : nat) :
  forall x y z, y < 0 -> multiply_mod_loop fuel x y z = OutOfFuel.
Proof.
  induction fuel as [|fuel IH]; intros x y z Hy;
    rewrite multiply_mod_loop_unfold.
  - destruct (y =? 0) eqn:E; [apply Z.eqb_eq in E; lia | reflexivity].
  - destruct (y =? 0) eqn:E; [apply Z.eqb_eq in E; lia|].
    apply IH. apply Z.shiftr_neg. exact Hy.
Qed.

Lemma peasant_more (n : nat) :
  forall (n' : nat) (x y : Z),
    0 <= y < 2 ^ Z.of_nat n -> (n <= n')%nat -> peasant n' x y = peasant n x y.
Proof.
  induction n as [|n IH]; intros n' x y Hy Hn.
  - assert (y = 0) by (change (2 ^ Z.of_nat 0) with 1 in Hy; lia).
    subst y. now rewrite !peasant_0.
  - destruct n' as [|n']; [lia|]. simpl. f_equal. apply IH; [|lia].
    apply shiftr_below; [lia|].
    replace (Z.of_nat n + 1) with (Z.of_nat (S n)) by lia. exact Hy.
Qed.

Lemma sel_lxor (o1 o2 : bool) (x : Z) :
  (if xorb o1 o2 then x else 0)
  = Z.lxor (if o1 then x else 0) (if o2 then x else 0).
Proof.
  destruct o1, o2; simpl;
    now rewrite ?Z.lxor_nilpotent, ?Z.lxor_0_r, ?Z.lxor_0_l.
Qed.

Lemma sel_lxor_arg (o : bool) (x1 x2 : Z) :
  (if o then Z.lxor x1 x2 else 0)
  = Z.lxor (if o then x1 else 0) (if o then x2 else 0).
Proof. destruct o; [reflexivity | now rewrite Z.lxor_0_r]. Qed.

(** [peasant] respects xor in its second operand. *)
Lemma peasant_lxor_r (n : nat) :
  forall x y1 y2,
    peasant n x (Z.lxor y1 y2) = Z.lxor (peasant n x y1) (peasant n x y2).
Proof.
  induction n as [|n IH]; intros x y1 y2; simpl; [reflexivity|].
  rewrite !mul_land_1, odd_lxor, sel_lxor, Z.shiftr_lxor, IH.
  apply lxor_swap.
Qed.

Lemma bit32_test (v : Z) :
  negb (Z.land (Z.shiftr v 32) 1 =? 0) = Z.testbit v 32.
Proof.
  rewrite land_1_odd, <- Z.bit0_odd, Z.shiftr_spec by lia.
  change (0 + 32) with 32. now destruct (Z.testbit v 32).
Qed.

Lemma shift_reduce_unfold (x : Z) :
  shift_reduce x
  = Z.lxor (Z.shiftl x 1) (if Z.testbit x 31 then POLYNOMIAL else 0).
Proof.
  unfold shift_reduce. cbv zeta. rewrite bit32_test.
  rewrite Z.shiftl_spec by lia. change (32 - 1) with 31.
  destruct (Z.testbit x 31); [reflexivity | now rewrite Z.lxor_0_r].
Qed.

Lemma shift_reduce_lxor (x1 x2 : Z) :
  shift_reduce (Z.lxor x1 x2) = Z.lxor (shift_reduce x1) (shift_reduce x2).
Proof.
  rewrite !shift_reduce_unfold, Z.shiftl_lxor, Z.lxor_spec.
  rewrite (sel_lxor (Z.testbit x1 31) (Z.testbit x2 31) POLYNOMIAL).
  apply lxor_swap.
Qed.

Lemma shift_reduce_0 : shift_reduce 0 = 0.
Proof. reflexivity. Qed.

(** [peasant] respects xor in its first operand. *)
Lemma peasant_lxor_l (n : nat) :
  forall x1 x2 y,
    peasant n (Z.lxor x1 x2) y = Z.lxor (peasant n x1 y) (peasant n x2 y).
Proof.
  induction n as [|n IH]; intros x1 x2 y; simpl; [reflexivity|].
  rewrite !mul_land_1, sel_lxor_arg, shift_reduce_lxor, IH.
  apply lxor_swap.
Qed.

Lemma peasant_shift_reduce (n : nat) :
  forall x y, peasant n (shift_reduce x) y = shift_reduce (peasant n x y).
Proof.
  induction n as [|n IH]; intros x y; simpl; [reflexivity|].
  rewrite shift_reduce_lxor, IH, !mul_land_1.
  destruct (Z.odd y); reflexivity.
Qed.

Lemma shift_reduce_reduced (x : Z) : reduced x -> reduced (shift_reduce x).
Proof.
  intros Hx. rewrite shift_reduce_unfold. unfold reduced in *.
  assert (Hs : 0 <= Z.shiftl x 1) by (apply Z.shiftl_nonneg; lia).
  assert (Hhigh : forall j, 32 < j -> Z.testbit (Z.shiftl x 1) j = false).
  { intros j Hj. rewrite Z.shiftl_spec by lia.
    apply (below_pow2_bits x 32); lia. }
  assert (H32 : Z.testbit (Z.shiftl x 1) 32 = Z.testbit x 31).
  { rewrite Z.shiftl_spec by lia. reflexivity. }
  destruct (Z.testbit x 31) eqn:E31.
  - assert (H0 : 0 <= Z.lxor (Z.shiftl x 1) POLYNOMIAL).
    { apply Z.lxor_nonneg. unfold POLYNOMIAL. lia. }
    split; [exact H0|]. apply bits_below_pow2; [lia | exact H0 |].
    intros j Hj. rewrite Z.lxor_spec.
    destruct (Z.eq_dec j 32) as [-> | Hne].
    + rewrite H32. reflexivity.
    + rewrite Hhigh by lia.
      rewrite (below_pow2_bits POLYNOMIAL 33) by (unfold POLYNOMIAL; lia).
      reflexivity.
  - rewrite Z.lxor_0_r. split; [exact Hs|].
    apply bits_below_pow2; [lia | exact Hs |].
    intros j Hj. destruct (Z.eq_dec j 32) as [-> | Hne];
      [now rewrite H32 | apply Hhigh; lia].
Qed.

Lemma peasant_reduced (n : nat) :
  forall x y, reduced x -> reduced (peasant n x y).
Proof.
  induction n as [|n IH]; intros x y Hx; simpl.
  - unfold reduced. lia.
  - apply lxor_below; [lia | | apply IH, shift_reduce_reduced, Hx].
    rewrite mul_land_1. destruct (Z.odd y); [exact Hx | lia].
Qed.

(** The generator annihilates every reduced polynomial: checked on the
    32 basis polynomials and extended by linearity. *)
Lemma peasant_generator_basis :
  forallb (fun i => peasant 33 (2 ^ Z.of_nat i) POLYNOMIAL =? 0) (seq 0 32) = true.
Proof. vm_compute. reflexivity. Qed.

Lemma peasant_generator (x : Z) : reduced x -> peasant 33 x POLYNOMIAL = 0.
Proof.
  intros Hx.
  apply (linear_basis (fun x => peasant 33 x POLYNOMIAL) (fun _ => 0) 32).
  - intros a b. apply peasant_lxor_l.
  - intros _ _. reflexivity.
  - intros i Hi. pose proof peasant_generator_basis as H.
    rewrite forallb_forall in H. apply Z.eqb_eq, H, in_seq. lia.
  - exact Hx.
Qed.

(** Doubling the second operand doubles the product. *)
Lemma peasant_shift_reduce_r (a b : Z) :
  reduced a -> reduced b ->
  peasant 33 a (shift_reduce b) = shift_reduce (peasant 33 a b).
Proof.
  intros Ha Hb. rewrite (shift_reduce_unfold b), peasant_lxor_r.
  assert (Hgen : peasant 33 a (if Z.testbit b 31 then POLYNOMIAL else 0) = 0).
  { destruct (Z.testbit b 31); [now apply peasant_generator | apply peasant_0]. }
  rewrite Hgen, Z.lxor_0_r.
  change (peasant 33 a (Z.shiftl b 1))
    with (Z.lxor (a * Z.land (Z.shiftl b 1) 1)
            (peasant 32 (shift_reduce a) (Z.shiftr (Z.shiftl b 1) 1))).
  rewrite mul_land_1.
  assert (Hodd : Z.odd (Z.shiftl b 1) = false).
  { rewrite <- Z.bit0_odd. apply Z.shiftl_spec_low. lia. }
  rewrite Hodd, Z.lxor_0_l.
  rewrite Z.shiftr_shiftl_l by lia. change (1 - 1) with 0. rewrite Z.shiftl_0_r.
  rewrite peasant_shift_reduce.
  rewrite (peasant_more 32 33 a b Hb) by lia. reflexivity.
Qed.

(** Associativity of the closed form, by recursion on the third
    operand. *)
Lemma peasant_assoc (n : nat) :
  forall a b c,
    reduced a -> reduced b ->
    peasant 33 a (peasant n b c) = peasant n (peasant 33 a b) c.
Proof.
  induction n as [|n IH]; intros a b c Ha Hb.
  - change (peasant 0 b c) with 0. apply peasant_0.
  - rewrite (peasant_S n b c), (peasant_S n (peasant 33 a b) c).
    rewrite peasant_lxor_r.
    rewrite IH by (try apply shift_reduce_reduced; assumption).
    rewrite peasant_shift_reduce_r by assumption.
    rewrite !mul_land_1.
    destruct (Z.odd c); [reflexivity | now rewrite peasant_0].
Qed.

(** ** Fuel *)

Lemma multiply_mod_loop_mono (n : nat) :
  forall (n' : nat) (x y z v : Z),
    multiply_mod_loop n x y z = Ok v -> (n <= n')%nat ->
    multiply_mod_loop n' x y z = Ok v.
Proof.
  induction n as [|n IH]; intros n' x y z v H Hle;
    rewrite multiply_mod_loop_unfold in H; rewrite multiply_mod_loop_unfold;
    destruct (y =? 0); try assumption; try discriminate.
  destruct n' as [|n']; [lia|]. apply IH; [assumption | lia].
Qed.

Lemma multiply_mod_mono (f f' : nat) (x y v : Z) :
  multiply_mod f x y = Ok v -> (f <= f')%nat -> multiply_mod f' x y = Ok v.
Proof. apply multiply_mod_loop_mono. Qed.

Lemma pow_loop_unfold (fuel n : nat) (x a b : Z) :
  pow_loop fuel n x a b
  = if b =? 0 then Ok x
    else match n with
         | O => OutOfFuel
         | S n' =>
             x ← (if negb (Z.land b 1 =? 0) then multiply_mod fuel x a else Ok x);
             a ← multiply_mod fuel a a;
             pow_loop fuel n' x a (Z.shiftr b 1)
         end.
Proof. destruct n; reflexivity. Qed.

Lemma euclid_loop_unfold (fuel n : nat) (x y a b : Z) :
  euclid_loop fuel n x y a b
  = if y =? 0 then Ok (x, a)
    else match n with
         | O => OutOfFuel
         | S n' =>
             '(q, r) ← divide_and_remainder x y;
             m ← multiply_mod fuel q b;
             euclid_loop fuel n' y r b (Z.lxor a m)
         end.
Proof. destruct n; reflexivity. Qed.

Lemma bind_Ok {A B} (r : result A) (k : A -> result B) (v : B) :
  r ≫= k = Ok v -> exists x, r = Ok x /\ k x = Ok v.
Proof. destruct r as [x| |]; try discriminate. intros H. now exists x. Qed.

Lemma pow_loop_mono (f f' : nat) (n : nat) :
  (f <= f')%nat ->
  forall (n' : nat) (x a b v : Z),
    pow_loop f n x a b = Ok v -> (n <= n')%nat -> pow_loop f' n' x a b = Ok v.
Proof.
  intros Hf. induction n as [|n IH]; intros n' x a b v H Hle;
    rewrite pow_loop_unfold in H; rewrite pow_loop_unfold;
    destruct (b =? 0); try assumption; try discriminate.
  destruct n' as [|n']; [lia|].
  apply bind_Ok in H as (x1 & Hx1 & H).
  apply bind_Ok in H as (a1 & Ha1 & H).
  assert (Hx1' : (if negb (Z.land b 1 =? 0) then multiply_mod f' x a else Ok x)
                 = Ok x1).
  { destruct (negb (Z.land b 1 =? 0)); [|assumption].
    eapply multiply_mod_mono; eassumption. }
  rewrite Hx1'. simpl.
  rewrite (multiply_mod_mono f f' a a a1 Ha1 Hf). simpl.
  apply IH; [assumption | lia].
Qed.

Lemma euclid_loop_mono (f f' : nat) (n : nat) :
  (f <= f')%nat ->
  forall (n' : nat) (x y a b : Z) (v : Z * Z),
    euclid_loop f n x y a b = Ok v -> (n <= n')%nat ->
    euclid_loop f' n' x y a b = Ok v.
Proof.
  intros Hf. induction n as [|n IH]; intros n' x y a b v H Hle;
    rewrite euclid_loop_unfold in H; rewrite euclid_loop_unfold;
    destruct (y =? 0); try assumption; try discriminate.
  destruct n' as [|n']; [lia|].
  apply bind_Ok in H as ([q r] & Hqr & H).
  apply bind_Ok in H as (m & Hm & H).
  rewrite Hqr. simpl.
  rewrite (multiply_mod_mono f f' q b m Hm Hf). simpl.
  apply IH; [assumption | lia].
Qed.

Lemma reciprocal_mod_mono (f f' : nat) (length offset v : Z) :
  reciprocal_mod f length offset = Ok v -> (f <= f')%nat ->
  reciprocal_mod f' length offset = Ok v.
Proof.
  unfold reciprocal_mod. intros H Hf.
  apply bind_Ok in H as (x & Hx & H).
  apply bind_Ok in H as ([x1 a1] & Hxa & H).
  rewrite (pow_loop_mono f f' f Hf f' 1 2 _ x Hx Hf). simpl.
  rewrite (euclid_loop_mono f f' f Hf f' _ _ _ _ _ Hxa Hf). simpl.
  exact H.
Qed.

Lemma reciprocal_mod_value (fuel : nat) (length : Z) :
  (33 <= fuel)%nat ->
  reciprocal_mod fuel length (length - 4) = Ok RECIPROCAL.
Proof.
  intros Hf. replace (length - (length - 4)) with 4 by lia.
  apply (reciprocal_mod_mono 33 fuel); [|exact Hf].
  unfold reciprocal_mod.
  replace ((length - (length - 4)) * 8) with 32 by lia.
  vm_compute. reflexivity.
Qed.

(** ** The product without reduction *)

Lemma clmul_0 (n : nat) (x : Z) : clmul n x 0 = 0.
Proof.
  revert x. induction n as [|n IH]; intros x; simpl; [reflexivity|].
  rewrite IH. change (Z.land 0 1) with 0. now rewrite Z.mul_0_r.
Qed.

Lemma clmul_0_l (n : nat) (y : Z) : clmul n 0 y = 0.
Proof.
  revert y. induction n as [|n IH]; intros y; simpl; [reflexivity|].
  change (Z.shiftl 0 1) with 0. now rewrite IH, Z.mul_0_l.
Qed.

Lemma peasant_0_l (n : nat) (y : Z) : peasant n 0 y = 0.
Proof.
  revert y. induction n as [|n IH]; intros y; simpl; [reflexivity|].
  rewrite shift_reduce_0. now rewrite IH, Z.mul_0_l.
Qed.

Lemma clmul_lxor_l (n : nat) :
  forall x1 x2 y,
    clmul n (Z.lxor x1 x2) y = Z.lxor (clmul n x1 y) (clmul n x2 y).
Proof.
  induction n as [|n IH]; intros x1 x2 y; simpl; [reflexivity|].
  rewrite !mul_land_1, sel_lxor_arg, Z.shiftl_lxor, IH.
  apply lxor_swap.
Qed.

Lemma clmul_shiftl (n : nat) (k : Z) :
  0 <= k ->
  forall x y, clmul n (Z.shiftl x k) y = Z.shiftl (clmul n x y) k.
Proof.
  intros Hk. induction n as [|n IH]; intros x y; simpl.
  - now rewrite Z.shiftl_0_l.
  - rewrite Z.shiftl_lxor, <- IH, !mul_land_1.
    rewrite !Z.shiftl_shiftl by lia. rewrite (Z.add_comm k 1).
    destruct (Z.odd y); [reflexivity | now rewrite Z.shiftl_0_l].
Qed.

Lemma split_low_bit (y : Z) :
  y = Z.lxor (if Z.odd y then 1 else 0) (Z.shiftl (Z.shiftr y 1) 1).
Proof.
  apply Z.bits_inj'. intros j Hj. rewrite Z.lxor_spec.
  destruct (Z.eq_dec j 0) as [-> | Hne].
  - rewrite Z.shiftl_spec_low by lia. rewrite Z.bit0_odd.
    destruct (Z.odd y); reflexivity.
  - rewrite Z.shiftl_spec, Z.shiftr_spec by lia.
    replace (j - 1 + 1) with j by lia.
    assert (Hlow : Z.testbit (if Z.odd y then 1 else 0) j = false).
    { destruct (Z.odd y); [|apply Z.bits_0].
      change 1 with (2 ^ 0). apply Z.pow2_bits_false. lia. }
    now rewrite Hlow.
Qed.

Lemma clmul_1 (n : nat) :
  forall y, 0 <= y < 2 ^ Z.of_nat n -> clmul n 1 y = y.
Proof.
  induction n as [|n IH]; intros y Hy.
  - change (2 ^ Z.of_nat 0) with 1 in Hy. simpl. lia.
  - simpl clmul. rewrite mul_land_1.
    rewrite (clmul_shiftl n 1 ltac:(lia) 1 (Z.shiftr y 1)).
    rewrite IH.
    + symmetry. apply split_low_bit.
    + apply shiftr_below; [lia|].
      replace (Z.of_nat n + 1) with (Z.of_nat (S n)) by lia. exact Hy.
Qed.

Lemma clmul_pow2 (n : nat) (i y : Z) :
  0 <= i -> 0 <= y < 2 ^ Z.of_nat n ->
  clmul n (Z.shiftl 1 i) y = Z.shiftl y i.
Proof.
  intros Hi Hy. rewrite clmul_shiftl by assumption. now rewrite clmul_1.
Qed.

(** As long as the first operand cannot reach bit 32 within [n]
    doublings, [multiply_mod] never reduces. *)
Lemma peasant_clmul (n : nat) :
  forall x y,
    0 <= x < 2 ^ (33 - Z.of_nat n) -> (n <= 33)%nat ->
    peasant n x y = clmul n x y.
Proof.
  induction n as [|n IH]; intros x y Hx Hn; simpl; [reflexivity|].
  f_equal. destruct n as [|n]; [reflexivity|].
  assert (Hx31 : x < 2 ^ 31).
  { eapply Z.lt_le_trans; [apply Hx|]. apply Z.pow_le_mono_r; lia. }
  rewrite shift_reduce_unfold.
  rewrite (below_pow2_bits x 31) by lia. rewrite Z.lxor_0_r.
  apply IH; [|lia].
  rewrite Z.shiftl_mul_pow2 by lia. change (2 ^ 1) with 2.
  replace (33 - Z.of_nat (S n)) with ((33 - Z.of_nat (S (S n))) + 1) by lia.
  rewrite Z.pow_add_r by lia. change (2 ^ 1) with 2. lia.
Qed.

(** ** [divide_and_remainder] *)

Lemma bit_test (v m : Z) :
  0 <= m -> negb (Z.land (Z.shiftr v m) 1 =? 0) = Z.testbit v m.
Proof.
  intros Hm. rewrite land_1_odd, <- Z.bit0_odd, Z.shiftr_spec by lia.
  rewrite Z.add_0_l. now destruct (Z.testbit v m).
Qed.

Lemma divide_loop_unfold (k : nat) (ydeg x y z : Z) :
  divide_loop (S k) ydeg x y z
  = if negb (Z.land (Z.shiftr x (Z.of_nat k + ydeg)) 1 =? 0)
    then divide_loop k ydeg (Z.lxor x (Z.shiftl y (Z.of_nat k))) y
           (Z.lor z (Z.shiftl 1 (Z.of_nat k)))
    else divide_loop k ydeg x y z.
Proof. reflexivity. Qed.

Lemma lor_fresh_bit (z i : Z) :
  0 <= i -> Z.testbit z i = false ->
  Z.lor z (Z.shiftl 1 i) = Z.lxor z (Z.shiftl 1 i).
Proof.
  intros Hi Hz. apply Z.bits_inj'. intros j Hj.
  rewrite Z.lor_spec, Z.lxor_spec, Z.shiftl_1_l.
  destruct (Z.eq_dec j i) as [-> | Hne].
  - rewrite Hz. reflexivity.
  - rewrite Z.pow2_bits_false by lia. now destruct (Z.testbit z j).
Qed.

Section Division.

Variables (y : Z) (N : nat).
Hypothesis Hy : 0 < y.
Hypothesis HN : y < 2 ^ Z.of_nat N.

#[local] Abbreviation ydeg := (Z.log2 y).

(** The long division loop: the remainder ends below the degree of
    [y], and quotient times [y] plus remainder is preserved. *)
Lemma divide_loop_spec (k : nat) :
  forall (x z : Z) (K : Z),
    0 <= x -> (forall j, Z.of_nat k + ydeg <= j -> Z.testbit x j = false) ->
    0 <= z -> (forall j, 0 <= j < Z.of_nat k -> Z.testbit z j = false) ->
    Z.of_nat k <= K -> (forall j, K <= j -> Z.testbit z j = false) ->
    let '(q, r) := divide_loop k ydeg x y z in
    0 <= r < 2 ^ ydeg
    /\ 0 <= q < 2 ^ K
    /\ Z.lxor (clmul N q y) r = Z.lxor (clmul N z y) x.
Proof.
  assert (Hydeg : 0 <= ydeg) by apply Z.log2_nonneg.
  induction k as [|k IH]; intros x z K Hx Hxhigh Hz Hzlow HK Hzhigh.
  - simpl divide_loop. split; [|split].
    + split; [exact Hx|]. apply bits_below_pow2; [assumption..|].
      intros j Hj. apply Hxhigh. lia.
    + split; [exact Hz|]. apply bits_below_pow2; [lia | assumption..].
    + reflexivity.
  - rewrite divide_loop_unfold, bit_test by lia.
    destruct (Z.testbit x (Z.of_nat k + ydeg)) eqn:Etop.
    + assert (Hi : 0 <= Z.of_nat k) by lia.
      assert (Hzi : Z.testbit z (Z.of_nat k) = false) by (apply Hzlow; lia).
      rewrite (lor_fresh_bit z _ Hi Hzi).
      specialize (IH (Z.lxor x (Z.shiftl y (Z.of_nat k)))
                     (Z.lxor z (Z.shiftl 1 (Z.of_nat k))) K).
      destruct (divide_loop k ydeg _ y _) as [q r].
      assert (Hys : 0 <= Z.shiftl y (Z.of_nat k)) by (apply Z.shiftl_nonneg; lia).
      assert (H1s : 0 <= Z.shiftl 1 (Z.of_nat k)) by (apply Z.shiftl_nonneg; lia).
      destruct IH as (Hr & Hq & Heq).
      * apply Z.lxor_nonneg. lia.
      * intros j Hj. rewrite Z.lxor_spec, Z.shiftl_spec by lia.
        destruct (Z.eq_dec j (Z.of_nat k + ydeg)) as [-> | Hne].
        -- rewrite Etop. replace (Z.of_nat k + ydeg - Z.of_nat k) with ydeg by lia.
           rewrite Z.bit_log2 by lia. reflexivity.
        -- rewrite Hxhigh by lia.
           rewrite Z.bits_above_log2 by lia. reflexivity.
      * apply Z.lxor_nonneg. lia.
      * intros j Hj. rewrite Z.lxor_spec, Hzlow by lia.
        rewrite Z.shiftl_1_l, Z.pow2_bits_false by lia. reflexivity.
      * lia.
      * intros j Hj. rewrite Z.lxor_spec, Hzhigh by lia.
        rewrite Z.shiftl_1_l, Z.pow2_bits_false by lia. reflexivity.
      * split; [exact Hr|]. split; [exact Hq|].
        rewrite Heq, clmul_lxor_l.
        rewrite (clmul_pow2 N (Z.of_nat k) y Hi ltac:(lia)).
        generalize (clmul N z y) (Z.shiftl y (Z.of_nat k)). intros c s.
        xor_solve.
    + specialize (IH x z K).
      destruct (divide_loop k ydeg x y z) as [q r].
      apply IH; try assumption; [| intros j Hj; apply Hzlow; lia | lia].
      intros j Hj. destruct (Z.eq_dec j (Z.of_nat k + ydeg)) as [-> | Hne];
        [exact Etop | apply Hxhigh; lia].
Qed.

End Division.

Lemma bit_length_pos (x : Z) :
  0 < x -> bit_length x = Z.log2 x + 1.
Proof.
  intros Hx. unfold bit_length.
  destruct (x =? 0) eqn:E; [apply Z.eqb_eq in E; lia|].
  now rewrite Z.abs_eq by lia.
Qed.

Lemma degree_lt_pow2 (r d : Z) :
  0 <= d -> 0 <= r < 2 ^ d -> degree r < d.
Proof.
  intros Hd Hr. unfold degree, bit_length.
  destruct (r =? 0) eqn:E; [lia|]. apply Z.eqb_neq in E.
  rewrite Z.abs_eq by lia.
  assert (Z.log2 r < d) by (apply Z.log2_lt_pow2; lia). lia.
Qed.

(** Long division over GF(2): for [0 <= a] and [0 < b] the quotient and
    the remainder are returned, the remainder has smaller degree than
    [b], and [a = q * b + r] for the product without reduction. *)
Lemma divide_and_remainder_spec (a b : Z) (N : nat) :
  0 <= a -> 0 < b -> b < 2 ^ Z.of_nat N ->
  exists q r,
    divide_and_remainder a b = Ok (q, r)
    /\ 0 <= r /\ degree r < degree b
    /\ 0 <= q < 2 ^ Z.max 0 (degree a - degree b + 1)
    /\ a = Z.lxor (clmul N q b) r.
Proof.
  intros Ha Hb HN. unfold divide_and_remainder.
  destruct (b =? 0) eqn:Eb; [apply Z.eqb_eq in Eb; lia|].
  assert (Hdb : degree b = Z.log2 b).
  { unfold degree. rewrite bit_length_pos by assumption. lia. }
  pose proof (Z.log2_nonneg b) as Hlb.
  destruct (a =? 0) eqn:Ea.
  - apply Z.eqb_eq in Ea. subst a. exists 0, 0.
    split; [reflexivity|]. split; [lia|]. split.
    + rewrite Hdb. unfold degree, bit_length. simpl. lia.
    + split; [split; [lia | apply Z.pow_pos_nonneg; lia]|].
      now rewrite clmul_0_l.
  - apply Z.eqb_neq in Ea. assert (Hapos : 0 < a) by lia.
    assert (Hda : degree a = Z.log2 a).
    { unfold degree. rewrite bit_length_pos by assumption. lia. }
    rewrite !bit_length_pos by assumption.
    replace (Z.log2 b + 1 - 1) with (Z.log2 b) by lia.
    set (k := Z.to_nat (Z.log2 a + 1 - 1 - Z.log2 b + 1)).
    pose proof (divide_loop_spec b N Hb HN k a 0
                  (Z.max 0 (degree a - degree b + 1))) as H.
    cbv zeta in H.
    destruct (divide_loop k (Z.log2 b) a b 0) as [q r].
    destruct H as (Hr & Hq & Heq).
    + lia.
    + intros j Hj. apply Z.bits_above_log2; [lia|]. subst k. lia.
    + lia.
    + intros j _. apply Z.bits_0.
    + subst k. rewrite Hda, Hdb. lia.
    + intros j _. apply Z.bits_0.
    + exists q, r. split; [reflexivity|]. split; [lia|]. split.
      * rewrite Hdb. apply degree_lt_pow2; assumption.
      * split; [exact Hq|].
        rewrite clmul_0_l, Z.lxor_0_l in Heq. now symmetry.
Qed.

Lemma clmul_more (n : nat) :
  forall (n' : nat) (x y : Z),
    0 <= y < 2 ^ Z.of_nat n -> (n <= n')%nat -> clmul n' x y = clmul n x y.
Proof.
  induction n as [|n IH]; intros n' x y Hy Hn.
  - assert (y = 0) by (change (2 ^ Z.of_nat 0) with 1 in Hy; lia).
    subst y. now rewrite !clmul_0.
  - destruct n' as [|n']; [lia|].
    change (clmul (S n') x y)
      with (Z.lxor (x * Z.land y 1) (clmul n' (Z.shiftl x 1) (Z.shiftr y 1))).
    change (clmul (S n) x y)
      with (Z.lxor (x * Z.land y 1) (clmul n (Z.shiftl x 1) (Z.shiftr y 1))).
    rewrite (IH n'); [reflexivity | | lia].
    apply shiftr_below; [lia|].
    replace (Z.of_nat n + 1) with (Z.of_nat (S n)) by lia. exact Hy.
Qed.

(** For a dividend of degree at most 31 the product [q * b] of the
    quotient never overflows bit 31, so [multiply_mod] computes it
    exactly. *)
Lemma multiply_quotient (fuel : nat) (a b q : Z) :
  reduced a -> 0 < b < 2 ^ Z.of_nat fuel ->
  0 <= q < 2 ^ Z.max 0 (degree a - degree b + 1) ->
  multiply_mod fuel q b = Ok (clmul fuel q b).
Proof.
  intros Ha Hb Hq. rewrite multiply_mod_spec by lia. f_equal.
  assert (Hdb : degree b = Z.log2 b).
  { unfold degree. rewrite bit_length_pos by lia. lia. }
  pose proof (Z.log2_nonneg b) as Hlb.
  assert (Hda : degree a <= 31).
  { unfold reduced in Ha.
    assert (H : degree a < 32) by (apply degree_lt_pow2; lia). lia. }
  destruct (Z.lt_ge_cases (degree a) (degree b)) as [Hlt | Hge].
  - rewrite Z.max_l in Hq by lia. change (2 ^ 0) with 1 in Hq.
    assert (q = 0) by lia. subst q. now rewrite peasant_0_l, clmul_0_l.
  - rewrite Z.max_r in Hq by lia.
    set (Nb := Z.to_nat (Z.log2 b + 1)).
    assert (HNb : 0 <= b < 2 ^ Z.of_nat Nb).
    { subst Nb. rewrite Z2Nat.id by lia.
      pose proof (Z.log2_spec b ltac:(lia)). replace (Z.log2 b + 1) with (Z.succ (Z.log2 b)) by lia. lia. }
    assert (Hle : (Nb <= fuel)%nat).
    { destruct (Nat.le_gt_cases Nb fuel) as [H | H]; [exact H|]. exfalso.
      assert (2 ^ Z.of_nat fuel <= 2 ^ Z.log2 b).
      { apply Z.pow_le_mono_r; subst Nb; lia. }
      pose proof (Z.log2_spec b ltac:(lia)). lia. }
    rewrite (peasant_more Nb fuel q b HNb Hle).
    rewrite (clmul_more Nb fuel q b HNb Hle).
    apply peasant_clmul; [|subst Nb; lia].
    split; [lia|]. eapply Z.lt_le_trans; [apply Hq|].
    apply Z.pow_le_mono_r; subst Nb; lia.
Qed.

(** C4, as the code has it.  For a dividend [a] of degree at most 31
    and a nonzero divisor [b], [divide_and_remainder] returns a quotient
    and a remainder with [degree r < degree b] and [a = multiply_mod q b
    xor r]; [multiply_mod] distributes over xor in both operands; and it
    is associative on reduced operands.  The fuel only has to cover the
    bits of the second operands. *)
Theorem checksum_engine_algebra (fuel : nat) (a b x x' y z : Z) :
  (32 <= fuel)%nat ->
  reduced a -> 0 < b < 2 ^ Z.of_nat fuel ->
  0 <= y < 2 ^ Z.of_nat fuel -> 0 <= z < 2 ^ Z.of_nat fuel ->
  (exists q r m,
      divide_and_remainder a b = Ok (q, r)
      /\ degree r < degree b
      /\ multiply_mod fuel q b = Ok m
      /\ a = Z.lxor m r)
  /\ (exists m1 m2,
        multiply_mod fuel x y = Ok m1 /\ multiply_mod fuel x z = Ok m2
        /\ multiply_mod fuel x (Z.lxor y z) = Ok (Z.lxor m1 m2))
  /\ (exists m1 m2,
        multiply_mod fuel x y = Ok m1 /\ multiply_mod fuel x' y = Ok m2
        /\ multiply_mod fuel (Z.lxor x x') y = Ok (Z.lxor m1 m2))
  /\ (reduced x -> reduced y -> reduced z ->
      exists xy yz m,
        multiply_mod fuel x y = Ok xy /\ multiply_mod fuel y z = Ok yz
        /\ multiply_mod fuel xy z = Ok m /\ multiply_mod fuel x yz = Ok m).
Proof.
  intros Hfuel Ha Hb Hy Hz. split; [|split; [|split]].
  - destruct (divide_and_remainder_spec a b fuel) as (q & r & Hdiv & Hr & Hdeg & Hq & Heq);
      [unfold reduced in Ha; lia | lia | lia |].
    exists q, r, (clmul fuel q b). split; [exact Hdiv|]. split; [exact Hdeg|].
    split; [|exact Heq]. now apply (multiply_quotient fuel a b q).
  - exists (peasant fuel x y), (peasant fuel x z).
    rewrite !multiply_mod_spec;
      [now rewrite peasant_lxor_r | apply lxor_below; lia | lia | lia].
  - exists (peasant fuel x y), (peasant fuel x' y).
    rewrite !multiply_mod_spec by lia. now rewrite peasant_lxor_l.
  - intros Hx Hyr Hzr.
    assert (H32 : forall v, reduced v -> 0 <= v < 2 ^ Z.of_nat fuel).
    { intros v [Hv0 Hv]. split; [exact Hv0|].
      eapply Z.lt_le_trans; [exact Hv|]. apply Z.pow_le_mono_r; lia. }
    assert (Hp : forall u v, reduced v -> peasant fuel u v = peasant 32 u v).
    { intros u v Hv. apply peasant_more; [exact Hv | lia]. }
    exists (peasant fuel x y), (peasant fuel y z),
      (peasant fuel (peasant fuel x y) z).
    rewrite !multiply_mod_spec; try lia;
      [| apply H32, peasant_reduced, Hyr].
    repeat split. f_equal.
    rewrite (Hp y z Hzr), (Hp (peasant fuel x y) z Hzr), (Hp x y Hyr).
    rewrite (Hp x (peasant 32 y z)) by (apply peasant_reduced, Hyr).
    rewrite <- (peasant_more 32 33 x (peasant 32 y z))
      by (try apply peasant_reduced; try assumption; lia).
    rewrite (peasant_assoc 32 x y z Hx Hyr).
    rewrite (peasant_more 32 33 x y Hyr) by lia. reflexivity.
Qed.

Lemma checksum_engine_algebra_witness :
  exists q r m,
    divide_and_remainder 0x04C11DB7 0x1E = Ok (q, r)
    /\ degree r < degree 0x1E
    /\ multiply_mod 32 q 0x1E = Ok m
    /\ 0x04C11DB7 = Z.lxor m r.
Proof.
  destruct (checksum_engine_algebra 32 0x04C11DB7 0x1E 3 5 6 9) as [H _];
    [lia | unfold reduced; lia | simpl; lia | simpl; lia | simpl; lia |].
  exact H.
Defined.

(** C4 as stated fails beyond degree 31.  Dividing the generator itself
    (degree 32, as the reciprocal computation does) by [x] gives a
    quotient and a remainder that [multiply_mod] does not multiply back:
    it reduces the product modulo the generator.  And on operands that
    are not reduced [multiply_mod] is not associative. *)
Lemma division_identity_fails_beyond_degree_31 :
  divide_and_remainder POLYNOMIAL 2 = Ok (0x82608EDB, 1)
  /\ multiply_mod 40 0x82608EDB 2 = Ok 1
  /\ POLYNOMIAL <> Z.lxor 1 1
  /\ multiply_mod 80 (2 ^ 32) (2 ^ 31) = Ok (2 ^ 63)
  /\ multiply_mod 80 (2 ^ 63) 2 = Ok (2 ^ 64)
  /\ multiply_mod 80 (2 ^ 31) 2 = Ok 0x04C11DB7
  /\ multiply_mod 80 (2 ^ 32) 0x04C11DB7 = Ok (0x04C11DB7 * 2 ^ 32)
  /\ 2 ^ 64 <> 0x04C11DB7 * 2 ^ 32.
Proof. repeat split; try (vm_compute; reflexivity); vm_compute; discriminate. Qed.

End EngineProps.

(* ===================================================================== *)
(** * Properties of the forcer *)
(* ===================================================================== *)

Module ForcerProps.

Import Bits EngineProps.

#[local] Arguments Z.shiftl : simpl never.
#[local] Arguments Z.shiftr : simpl never.
#[local] Arguments Z.lxor : simpl never.
#[local] Arguments Z.lor : simpl never.
#[local] Arguments Z.land : simpl never.
#[local] Arguments Z.testbit : simpl never.
#[local] Arguments Z.mul : simpl never.
#[local] Arguments Z.pow : simpl never.

(** ** [reverse32] *)

Lemma reverse32_step_bits (y x j : Z) :
  0 <= j ->
  Z.testbit (Z.lor (Z.shiftl y 1) (Z.land x 1)) j
  = if j =? 0 then Z.testbit x 0 else Z.testbit y (j - 1).
Proof.
  intros Hj. rewrite Z.lor_spec, Z.land_spec.
  destruct (j =? 0) eqn:E.
  - apply Z.eqb_eq in E. subst j. rewrite Z.shiftl_spec_low by lia.
    change (Z.testbit 1 0) with true. now rewrite andb_true_r.
  - apply Z.eqb_neq in E. rewrite Z.shiftl_spec by lia.
    change 1 with (2 ^ 0) at 2. rewrite Z.pow2_bits_false by lia.
    now rewrite andb_false_r, orb_false_r.
Qed.

Lemma reverse32_step_lxor (y1 y2 x1 x2 : Z) :
  Z.lor (Z.shiftl (Z.lxor y1 y2) 1) (Z.land (Z.lxor x1 x2) 1)
  = Z.lxor (Z.lor (Z.shiftl y1 1) (Z.land x1 1))
           (Z.lor (Z.shiftl y2 1) (Z.land x2 1)).
Proof.
  apply Z.bits_inj'. intros j Hj.
  rewrite Z.lxor_spec, !reverse32_step_bits by assumption.
  destruct (j =? 0); now rewrite Z.lxor_spec.
Qed.

Lemma reverse32_loop_lxor (n : nat) :
  forall y1 y2 x1 x2,
    reverse32_loop n (Z.lxor y1 y2) (Z.lxor x1 x2)
    = Z.lxor (reverse32_loop n y1 x1) (reverse32_loop n y2 x2).
Proof.
  induction n as [|n IH]; intros y1 y2 x1 x2; simpl; [reflexivity|].
  now rewrite reverse32_step_lxor, Z.shiftr_lxor, IH.
Qed.

Lemma reverse32_lxor (a b : Z) :
  reverse32 (Z.lxor a b) = Z.lxor (reverse32 a) (reverse32 b).
Proof.
  unfold reverse32. rewrite <- reverse32_loop_lxor. reflexivity.
Qed.

Lemma reverse32_loop_range (n : nat) :
  forall (k : Z) (y x : Z),
    0 <= k -> 0 <= y < 2 ^ k ->
    0 <= reverse32_loop n y x < 2 ^ (k + Z.of_nat n).
Proof.
  induction n as [|n IH]; intros k y x Hk Hy; simpl reverse32_loop.
  - now rewrite Z.add_0_r.
  - replace (k + Z.of_nat (S n)) with ((k + 1) + Z.of_nat n) by lia.
    apply IH; [lia|].
    assert (H0 : 0 <= Z.lor (Z.shiftl y 1) (Z.land x 1)).
    { apply Z.lor_nonneg. split.
      - apply Z.shiftl_nonneg. lia.
      - apply Z.land_nonneg. right. lia. }
    split; [exact H0|]. apply bits_below_pow2; [lia | exact H0 |].
    intros j Hj. rewrite reverse32_step_bits by lia.
    destruct (j =? 0) eqn:E; [apply Z.eqb_eq in E; lia|].
    apply (below_pow2_bits y k); lia.
Qed.

Lemma reverse32_reduced (x : Z) : reduced (reverse32 x).
Proof.
  unfold reduced, reverse32.
  apply (reverse32_loop_range 32 0 0 x); [lia|]. change (2 ^ 0) with 1. lia.
Qed.

(** ** The CRC is linear *)

Lemma crc32_bit_lxor (a b : Z) :
  crc32_bit (Z.lxor a b) = Z.lxor (crc32_bit a) (crc32_bit b).
Proof.
  unfold crc32_bit. rewrite Z.lxor_spec, Z.shiftr_lxor.
  generalize (Z.shiftr a 1) (Z.shiftr b 1). intros u v.
  destruct (Z.testbit a 0), (Z.testbit b 0); simpl xorb; cbv iota; xor_solve.
Qed.

Lemma crc32_bits_lxor (n : nat) (a b : Z) :
  Nat.iter n crc32_bit (Z.lxor a b)
  = Z.lxor (Nat.iter n crc32_bit a) (Nat.iter n crc32_bit b).
Proof.
  induction n as [|n IH]; [reflexivity|].
  rewrite !Nat.iter_succ, IH. apply crc32_bit_lxor.
Qed.

Lemma crc32_byte_lxor (c1 c2 b1 b2 : Z) :
  crc32_byte (Z.lxor c1 c2) (Z.lxor b1 b2)
  = Z.lxor (crc32_byte c1 b1) (crc32_byte c2 b2).
Proof.
  unfold crc32_byte. rewrite lxor_swap. apply crc32_bits_lxor.
Qed.

Lemma crc32_update_app (c : Z) (l1 l2 : list Z) :
  crc32_update c (l1 ++ l2) = crc32_update (crc32_update c l1) l2.
Proof. unfold crc32_update. apply fold_left_app. Qed.

Lemma crc32_update_4 (c a0 a1 a2 a3 : Z) :
  crc32_update c [a0; a1; a2; a3]
  = crc32_byte (crc32_byte (crc32_byte (crc32_byte c a0) a1) a2) a3.
Proof. reflexivity. Qed.

(** Xoring four bytes into the end of a message xors the checksum of
    those four bytes (started from 0) into the checksum. *)
Lemma crc32_patch (pre : list Z) (z0 z1 z2 z3 p0 p1 p2 p3 : Z) :
  crc32 (pre ++ [Z.lxor z0 p0; Z.lxor z1 p1; Z.lxor z2 p2; Z.lxor z3 p3])
  = Z.lxor (crc32 (pre ++ [z0; z1; z2; z3])) (crc32_update 0 [p0; p1; p2; p3]).
Proof.
  unfold crc32. rewrite !crc32_update_app, !crc32_update_4.
  generalize (crc32_update 4294967295 pre). intros c.
  rewrite <- (Z.lxor_0_r c) at 1.
  rewrite !crc32_byte_lxor. xor_solve.
Qed.

(** ** The patch hits the target *)

Lemma land_lxor_l (a b m : Z) :
  Z.land (Z.lxor a b) m = Z.lxor (Z.land a m) (Z.land b m).
Proof.
  apply Z.bits_inj. intros j. rewrite Z.lxor_spec, !Z.land_spec, Z.lxor_spec.
  destruct (Z.testbit a j), (Z.testbit b j), (Z.testbit m j); reflexivity.
Qed.

Lemma patch_word_lxor (a b : Z) :
  patch_word (Z.lxor a b) = Z.lxor (patch_word a) (patch_word b).
Proof.
  unfold patch_word. now rewrite reverse32_lxor, peasant_lxor_r, reverse32_lxor.
Qed.

Lemma patch_byte_lxor (a b i : Z) :
  patch_byte (Z.lxor a b) i = Z.lxor (patch_byte a i) (patch_byte b i).
Proof.
  unfold patch_byte. now rewrite patch_word_lxor, Z.shiftr_lxor, land_lxor_l.
Qed.

Lemma patch_checksum_lxor (a b : Z) :
  patch_checksum (Z.lxor a b) = Z.lxor (patch_checksum a) (patch_checksum b).
Proof.
  unfold patch_checksum. rewrite !crc32_update_4, !patch_byte_lxor.
  rewrite <- (Z.lxor_0_r 0) at 1. now rewrite !crc32_byte_lxor.
Qed.

Lemma patch_checksum_basis :
  forallb (fun i => patch_checksum (2 ^ Z.of_nat i) =? 2 ^ Z.of_nat i) (seq 0 32)
  = true.
Proof. vm_compute. reflexivity. Qed.

(** The four patch bytes computed for a difference [d] have checksum
    [d]: checked on the 32 one-bit differences, extended by linearity. *)
Lemma patch_checksum_id (d : Z) : reduced d -> patch_checksum d = d.
Proof.
  intros Hd. apply (linear_basis patch_checksum (fun x => x) 32).
  - apply patch_checksum_lxor.
  - reflexivity.
  - intros i Hi. pose proof patch_checksum_basis as H.
    rewrite forallb_forall in H. apply Z.eqb_eq, H, in_seq. lia.
  - exact Hd.
Qed.

Lemma crc32_patch_bytes (pre : list Z) (z0 z1 z2 z3 d : Z) :
  crc32 (pre ++ [Z.lxor z0 (patch_byte d 0); Z.lxor z1 (patch_byte d 1);
                 Z.lxor z2 (patch_byte d 2); Z.lxor z3 (patch_byte d 3)])
  = Z.lxor (crc32 (pre ++ [z0; z1; z2; z3])) (patch_checksum d).
Proof. unfold patch_checksum. apply crc32_patch. Qed.

(** ** The checksum is a 32-bit value *)

Lemma crc32_bit_reduced (c : Z) : reduced c -> reduced (crc32_bit c).
Proof.
  intros Hc. unfold crc32_bit, reduced in *.
  assert (Hs : 0 <= Z.shiftr c 1 < 2 ^ 32).
  { rewrite Z.shiftr_div_pow2 by lia. change (2 ^ 1) with 2.
    split; [apply Z.div_pos; lia | apply Z.div_lt_upper_bound; lia]. }
  destruct (Z.testbit c 0); [|exact Hs].
  apply lxor_below; [lia | exact Hs | lia].
Qed.

Lemma crc32_bits_reduced (n : nat) (c : Z) :
  reduced c -> reduced (Nat.iter n crc32_bit c).
Proof.
  intros Hc. induction n as [|n IH]; [exact Hc|].
  rewrite Nat.iter_succ. now apply crc32_bit_reduced.
Qed.

Lemma crc32_update_reduced (l : list Z) :
  forall c, reduced c -> Forall reduced l -> reduced (crc32_update c l).
Proof.
  induction l as [|b l IH]; intros c Hc Hl; [exact Hc|].
  inversion Hl as [|? ? Hb Hl']; subst.
  change (crc32_update c (b :: l)) with (crc32_update (crc32_byte c b) l).
  apply IH; [|exact Hl']. unfold crc32_byte.
  apply crc32_bits_reduced. apply lxor_below; [lia | exact Hc | exact Hb].
Qed.

Lemma ascii_reduced (l : list Z) : Forall ascii_code l -> Forall reduced l.
Proof.
  intros H. eapply List.Forall_impl; [|exact H].
  intros c Hc. unfold ascii_code, reduced in *. lia.
Qed.

Lemma crc32_reduced (l : list Z) : Forall ascii_code l -> reduced (crc32 l).
Proof.
  intros Hl. unfold crc32. apply lxor_below; [lia | | lia].
  apply crc32_update_reduced; [unfold reduced; lia | now apply ascii_reduced].
Qed.

(** ** [patch_string] and [modify_string_crc32] *)

Lemma encode_ascii_Ok (s b : list Z) :
  encode_ascii s = Ok b -> b = s /\ Forall ascii_code s.
Proof.
  unfold encode_ascii. destruct (forallb _ s) eqn:E; [|discriminate].
  intros H. inversion H; subst. split; [reflexivity|].
  apply List.Forall_forall. intros c Hc.
  rewrite forallb_forall in E. specialize (E c Hc).
  apply andb_true_iff in E as [E1 E2].
  apply Z.leb_le in E1. apply Z.ltb_lt in E2. unfold ascii_code. lia.
Qed.

Lemma encode_ascii_ascii (s : list Z) :
  Forall ascii_code s -> encode_ascii s = Ok s.
Proof.
  intros Hs. unfold encode_ascii.
  assert (E : forallb (fun c => (0 <=? c) && (c <? 128)) s = true).
  { apply forallb_forall. intros c Hc.
    rewrite List.Forall_forall in Hs. specialize (Hs c Hc).
    unfold ascii_code in Hs. apply andb_true_iff.
    split; [apply Z.leb_le | apply Z.ltb_lt]; lia. }
  now rewrite E.
Qed.

Lemma encode_ascii_forallb (s : list Z) :
  forallb (fun c => (0 <=? c) && (c <? 128)) s = true <-> Forall ascii_code s.
Proof.
  split.
  - intros E. assert (H : encode_ascii s = Ok s)
      by (unfold encode_ascii; now rewrite E).
    now apply encode_ascii_Ok in H.
  - intros H. apply encode_ascii_ascii in H. unfold encode_ascii in H.
    destruct (forallb _ s); [reflexivity | discriminate].
Qed.

Lemma xor_item_app (pre l : list Z) (off : Z) (i : nat) (b v : Z) :
  off = Z.of_nat (length pre) -> l !! i = Some b ->
  xor_item (pre ++ l) (off + Z.of_nat i) v = Ok (pre ++ <[i := Z.lxor b v]> l).
Proof.
  intros -> Hl. unfold xor_item, py_index.
  pose proof (lookup_lt_Some l i b Hl) as Hi.
  rewrite length_app.
  destruct (Z.of_nat (length pre) + Z.of_nat i <? 0) eqn:E1;
    [apply Z.ltb_lt in E1; lia|].
  assert (E2 : (0 <=? Z.of_nat (length pre) + Z.of_nat i)
               && (Z.of_nat (length pre) + Z.of_nat i
                   <? Z.of_nat (length pre + length l)) = true).
  { apply andb_true_iff. split; [apply Z.leb_le | apply Z.ltb_lt]; lia. }
  rewrite E2. simpl.
  replace (Z.to_nat (Z.of_nat (length pre) + Z.of_nat i))
    with (length pre + i)%nat by lia.
  rewrite lookup_app_r by lia.
  replace (length pre + i - length pre)%nat with i by lia.
  rewrite Hl. now rewrite insert_app_r.
Qed.

(** The patch loop xors four bytes into the patch zone and leaves the
    rest of the string alone. *)
Lemma patch_loop (pre : list Z) (z0 z1 z2 z3 : Z) (off : Z) (f : Z -> Z) :
  off = Z.of_nat (length pre) ->
  for_fold [0; 1; 2; 3] (fun string i => xor_item string (off + i) (f i))
    (pre ++ [z0; z1; z2; z3])
  = Ok (pre ++ [Z.lxor z0 (f 0); Z.lxor z1 (f 1); Z.lxor z2 (f 2); Z.lxor z3 (f 3)]).
Proof.
  intros Hoff. cbn [for_fold].
  change (off + 0) with (off + Z.of_nat 0).
  change (off + 1) with (off + Z.of_nat 1).
  change (off + 2) with (off + Z.of_nat 2).
  change (off + 3) with (off + Z.of_nat 3).
  rewrite (xor_item_app pre [z0; z1; z2; z3] off 0 z0 (f 0) Hoff eq_refl).
  cbn [mbind result_bind insert list_insert].
  rewrite (xor_item_app pre [Z.lxor z0 (f 0); z1; z2; z3] off 1 z1 (f 1) Hoff eq_refl).
  cbn [mbind result_bind insert list_insert].
  rewrite (xor_item_app pre [Z.lxor z0 (f 0); Z.lxor z1 (f 1); z2; z3]
             off 2 z2 (f 2) Hoff eq_refl).
  cbn [mbind result_bind insert list_insert].
  rewrite (xor_item_app pre [Z.lxor z0 (f 0); Z.lxor z1 (f 1); Z.lxor z2 (f 2); z3]
             off 3 z3 (f 3) Hoff eq_refl).
  reflexivity.
Qed.

Lemma patch_string_spec (fuel : nat) (pre : list Z) (z0 z1 z2 z3 : Z) (T : Z) :
  (33 <= fuel)%nat ->
  Forall ascii_code (pre ++ [z0; z1; z2; z3]) ->
  patch_string fuel (pre ++ [z0; z1; z2; z3]) T
  = let d := Z.lxor (crc32 (pre ++ [z0; z1; z2; z3])) T in
    Ok (pre ++ [Z.lxor z0 (patch_byte d 0); Z.lxor z1 (patch_byte d 1);
                Z.lxor z2 (patch_byte d 2); Z.lxor z3 (patch_byte d 3)]).
Proof.
  intros Hfuel Hascii. unfold patch_string.
  rewrite (encode_ascii_ascii _ Hascii). cbn [mbind result_bind].
  set (s := pre ++ [z0; z1; z2; z3]).
  assert (Hlen : Z.of_nat (length s) - 4 = Z.of_nat (length pre)).
  { subst s. rewrite length_app. simpl length. lia. }
  destruct (Z.of_nat (length s) - 4 + 4 >? Z.of_nat (length s)) eqn:E;
    [rewrite Z.gtb_ltb in E; apply Z.ltb_lt in E; lia|].
  rewrite (reciprocal_mod_value fuel _ Hfuel). cbn [mbind result_bind].
  pose proof (reverse32_reduced (Z.lxor (crc32 s) T)) as Hrev.
  rewrite multiply_mod_spec.
  2:{ unfold reduced in Hrev. split; [lia|].
      eapply Z.lt_le_trans; [apply Hrev|]. apply Z.pow_le_mono_r; lia. }
  rewrite (peasant_more 32 fuel _ _ Hrev) by lia. cbn [mbind result_bind].
  subst s. cbv zeta.
  apply (patch_loop pre z0 z1 z2 z3 _
           (fun i => Z.land (Z.shiftr (reverse32
              (peasant 32 RECIPROCAL
                 (reverse32 (Z.lxor (crc32 (pre ++ [z0; z1; z2; z3])) T))))
              (i * 8)) 255)).
  exact Hlen.
Qed.

(** For an ascii string and a 32-bit target the recheck always passes:
    the patched string hashes to the target. *)
Lemma modify_string_crc32_spec (fuel : nat) (pre : list Z) (z0 z1 z2 z3 : Z) (T : Z) :
  (33 <= fuel)%nat ->
  Forall ascii_code (pre ++ [z0; z1; z2; z3]) -> reduced T ->
  exists p0 p1 p2 p3,
    modify_string_crc32 fuel (pre ++ [z0; z1; z2; z3]) T
    = Ok (pre ++ [p0; p1; p2; p3])
    /\ crc32 (pre ++ [p0; p1; p2; p3]) = T.
Proof.
  intros Hfuel Hascii HT. unfold modify_string_crc32.
  rewrite (patch_string_spec fuel pre z0 z1 z2 z3 T Hfuel Hascii). cbv zeta.
  set (d := Z.lxor (crc32 (pre ++ [z0; z1; z2; z3])) T).
  assert (Hd : reduced d).
  { apply lxor_below; [lia | apply crc32_reduced, Hascii | exact HT]. }
  assert (Hcrc : crc32 (pre ++ [Z.lxor z0 (patch_byte d 0); Z.lxor z1 (patch_byte d 1);
                               Z.lxor z2 (patch_byte d 2); Z.lxor z3 (patch_byte d 3)])
                 = T).
  { rewrite (crc32_patch_bytes pre z0 z1 z2 z3 d).
    rewrite (patch_checksum_id d Hd). subst d.
    generalize (crc32 (pre ++ [z0; z1; z2; z3])). intros c. xor_solve. }
  do 4 eexists. cbn [mbind result_bind].
  rewrite Hcrc, Z.eqb_refl. cbn [negb]. split; [reflexivity | exact Hcrc].
Qed.

(** ** Decoding the patched string *)

Lemma lor_ge_l (a b : Z) : 0 <= b -> a <= Z.lor a b.
Proof.
  intros Hb. pose proof (Z.sub_lor_l_same_l b a) as H.
  assert (0 <= Z.land b (Z.lnot a)) by (apply Z.land_nonneg; now left). lia.
Qed.

Lemma decode_utf8_unfold (b0 : Z) (r0 : list Z) :
  decode_utf8 (b0 :: r0)
  = if (0 <=? b0) && (b0 <? 0x80) then
      tl ← decode_utf8 r0; Ok (b0 :: tl)
    else if (0xC2 <=? b0) && (b0 <? 0xE0) then
      match r0 with
      | b1 :: r1 =>
          if is_cont b1 then
            tl ← decode_utf8 r1;
            Ok (Z.lor (Z.shiftl (Z.land b0 0x1F) 6) (Z.land b1 0x3F) :: tl)
          else Raise UnicodeDecodeError
      | _ => Raise UnicodeDecodeError
      end
    else if (0xE0 <=? b0) && (b0 <? 0xF0) then
      match r0 with
      | b1 :: b2 :: r2 =>
          let c := Z.lor (Z.shiftl (Z.land b0 0x0F) 12)
                     (Z.lor (Z.shiftl (Z.land b1 0x3F) 6) (Z.land b2 0x3F)) in
          if is_cont b1 && is_cont b2 && (0x800 <=? c)
             && negb ((0xD800 <=? c) && (c <? 0xE000)) then
            tl ← decode_utf8 r2; Ok (c :: tl)
          else Raise UnicodeDecodeError
      | _ => Raise UnicodeDecodeError
      end
    else if (0xF0 <=? b0) && (b0 <? 0xF5) then
      match r0 with
      | b1 :: b2 :: b3 :: r3 =>
          let c := Z.lor (Z.shiftl (Z.land b0 0x07) 18)
                     (Z.lor (Z.shiftl (Z.land b1 0x3F) 12)
                        (Z.lor (Z.shiftl (Z.land b2 0x3F) 6) (Z.land b3 0x3F))) in
          if is_cont b1 && is_cont b2 && is_cont b3
             && (0x10000 <=? c) && (c <? 0x110000) then
            tl ← decode_utf8 r3; Ok (c :: tl)
          else Raise UnicodeDecodeError
      | _ => Raise UnicodeDecodeError
      end
    else Raise UnicodeDecodeError.
Proof. reflexivity. Qed.

Lemma ascii_test (c : Z) : ascii_code c -> (0 <=? c) && (c <? 0x80) = true.
Proof.
  intros Hc. unfold ascii_code in Hc.
  apply andb_true_iff. split; [apply Z.leb_le | apply Z.ltb_lt]; lia.
Qed.

Lemma decode_utf8_ascii_prefix (pre l : list Z) :
  Forall ascii_code pre ->
  decode_utf8 (pre ++ l) = (tl ← decode_utf8 l; Ok (pre ++ tl)).
Proof.
  intros Hpre. induction Hpre as [|c pre Hc Hpre IH].
  - simpl app. now destruct (decode_utf8 l).
  - rewrite <- app_comm_cons, decode_utf8_unfold, (ascii_test c Hc), IH.
    now destruct (decode_utf8 l).
Qed.

Lemma two_byte_code_point (b0 b1 : Z) :
  0xC2 <= b0 < 0xE0 ->
  128 <= Z.lor (Z.shiftl (Z.land b0 0x1F) 6) (Z.land b1 0x3F).
Proof.
  intros Hb0.
  assert (H1 : 0 <= Z.land b1 0x3F) by (apply Z.land_nonneg; right; lia).
  pose proof (lor_ge_l (Z.shiftl (Z.land b0 0x1F) 6) _ H1) as Hge.
  change 0x1F with (Z.ones 5) in *. rewrite Z.land_ones in * by lia.
  rewrite Z.shiftl_mul_pow2 in * by lia.
  change (2 ^ 5) with 32 in *. change (2 ^ 6) with 64 in *.
  assert (2 <= b0 mod 32).
  { pose proof (Z.div_mod b0 32 ltac:(lia)).
    pose proof (Z.mod_pos_bound b0 32 ltac:(lia)).
    assert (b0 / 32 = 6) by lia.
    lia. }
  lia.
Qed.

(** A strict utf-8 decoding yields at most as many characters as there
    are bytes, and if all of them are ascii it is the byte string. *)
Lemma decode_utf8_inv (n : nat) :
  forall (l S : list Z),
    (length l <= n)%nat -> decode_utf8 l = Ok S ->
    (length S <= length l)%nat /\ (Forall ascii_code S -> S = l).
Proof.
  induction n as [|n IH]; intros l S Hlen Hdec.
  - destruct l; [|simpl in Hlen; lia]. inversion Hdec. auto.
  - destruct l as [|b0 r0]; [inversion Hdec; auto|].
    rewrite decode_utf8_unfold in Hdec. simpl in Hlen.
    destruct ((0 <=? b0) && (b0 <? 0x80)) eqn:E1.
    { apply bind_Ok in Hdec as (tl & Htl & Hret). inversion Hret; subst S.
      destruct (IH r0 tl ltac:(lia) Htl) as [Hl Ha]. split; [simpl; lia|].
      intros HS. inversion HS; subst. f_equal. now apply Ha. }
    destruct ((0xC2 <=? b0) && (b0 <? 0xE0)) eqn:E2.
    { destruct r0 as [|b1 r1]; [discriminate|].
      destruct (is_cont b1); [|discriminate].
      apply bind_Ok in Hdec as (tl & Htl & Hret). inversion Hret; subst S.
      simpl in Hlen.
      destruct (IH r1 tl ltac:(lia) Htl) as [Hl Ha]. split; [simpl; lia|].
      intros HS. inversion HS as [|? ? Hc _]; subst. exfalso.
      apply andb_true_iff in E2 as [Ea Eb].
      apply Z.leb_le in Ea. apply Z.ltb_lt in Eb.
      pose proof (two_byte_code_point b0 b1 ltac:(lia)).
      unfold ascii_code in Hc. lia. }
    destruct ((0xE0 <=? b0) && (b0 <? 0xF0)) eqn:E3.
    { destruct r0 as [|b1 [|b2 r2]]; try discriminate. cbv zeta in Hdec.
      match type of Hdec with
      | (if ?c then _ else _) = _ => destruct c eqn:Ec; [|discriminate]
      end.
      apply bind_Ok in Hdec as (tl & Htl & Hret). inversion Hret; subst S.
      simpl in Hlen.
      destruct (IH r2 tl ltac:(lia) Htl) as [Hl Ha]. split; [simpl; lia|].
      intros HS. inversion HS as [|? ? Hc _]; subst. exfalso.
      apply andb_true_iff in Ec as [Ec _].
      apply andb_true_iff in Ec as [_ Ec]. apply Z.leb_le in Ec.
      unfold ascii_code in Hc. lia. }
    destruct ((0xF0 <=? b0) && (b0 <? 0xF5)) eqn:E4; [|discriminate].
    destruct r0 as [|b1 [|b2 [|b3 r3]]]; try discriminate. cbv zeta in Hdec.
    match type of Hdec with
    | (if ?c then _ else _) = _ => destruct c eqn:Ec; [|discriminate]
    end.
    apply bind_Ok in Hdec as (tl & Htl & Hret). inversion Hret; subst S.
    simpl in Hlen.
    destruct (IH r3 tl ltac:(lia) Htl) as [Hl Ha]. split; [simpl; lia|].
    intros HS. inversion HS as [|? ? Hc _]; subst. exfalso.
    apply andb_true_iff in Ec as [Ec _].
    apply andb_true_iff in Ec as [_ Ec]. apply Z.leb_le in Ec.
    unfold ascii_code in Hc. lia.
Qed.

Lemma usable_ascii (c : Z) : usable c -> ascii_code c.
Proof.
  unfold usable, ascii_code. intros H.
  assert (Hall : forallb (fun c => (0 <=? c) && (c <? 128)) USABLE_CHARS = true)
    by (vm_compute; reflexivity).
  rewrite forallb_forall in Hall. specialize (Hall c H).
  apply andb_true_iff in Hall as [H1 H2].
  apply Z.leb_le in H1. apply Z.ltb_lt in H2. lia.
Qed.

Lemma str_mem_usable (c : Z) : str_mem c USABLE_CHARS = true <-> usable c.
Proof.
  unfold str_mem, usable. rewrite existsb_exists. split.
  - intros (x & Hx & E). apply Z.eqb_eq in E. now subst.
  - intros Hc. exists c. split; [exact Hc | apply Z.eqb_refl].
Qed.

(** The acceptance test of the inner loop. *)
Lemma accept_usable (end_ : list Z) :
  negb (0 <? Z.of_nat
              (length (List.filter (fun c => negb (str_mem c USABLE_CHARS)) end_)))
  = true <-> Forall usable end_.
Proof.
  rewrite negb_true_iff, Z.ltb_ge. split.
  - intros H. apply List.Forall_forall. intros c Hc.
    destruct (str_mem c USABLE_CHARS) eqn:E; [now apply str_mem_usable|].
    assert (Hin : In c (List.filter (fun c => negb (str_mem c USABLE_CHARS)) end_)).
    { apply filter_In. split; [exact Hc | now rewrite E]. }
    destruct (List.filter _ end_); [destruct Hin | simpl in H; lia].
  - intros H.
    assert (E : List.filter (fun c => negb (str_mem c USABLE_CHARS)) end_ = []).
    { induction H as [|c l Hc Hl IH]; [reflexivity|]. cbn [List.filter].
      apply str_mem_usable in Hc. rewrite Hc. cbn [negb]. exact IH. }
    rewrite E. simpl. lia.
Qed.

Lemma last_n_app_short {A} (pre tl : list A) (n : nat) :
  (length tl <= n)%nat ->
  exists pre', last_n n (pre ++ tl) = pre' ++ tl.
Proof.
  intros Hlen. unfold last_n. rewrite skipn_app, length_app.
  replace (length pre + length tl - n - length pre)%nat with 0%nat by lia.
  eexists. reflexivity.
Qed.

(** ** One candidate *)

Lemma candidate_string (s : list Z) (c1 c2 c3 c4 : Z) :
  s ++ [c1] ++ [c2] ++ [c3] ++ [c4] ++ str_of "0000"
  = (s ++ [c1; c2; c3; c4]) ++ [48; 48; 48; 48].
Proof. rewrite <- app_assoc. reflexivity. Qed.

Lemma decode_utf8_ascii (l : list Z) :
  Forall ascii_code l -> decode_utf8 l = Ok l.
Proof.
  intros Hl. rewrite <- (app_nil_r l) at 1.
  rewrite (decode_utf8_ascii_prefix l [] Hl). simpl. now rewrite app_nil_r.
Qed.

Lemma forallb_usable (l : list Z) :
  forallb (fun x => str_mem x USABLE_CHARS) l = true <-> Forall usable l.
Proof.
  rewrite forallb_forall, List.Forall_forall. split; intros H x Hx.
  - apply str_mem_usable, H, Hx.
  - apply str_mem_usable, H, Hx.
Qed.

Lemma reject_dash :
  negb (0 <? Z.of_nat
              (length (List.filter (fun c => negb (str_mem c USABLE_CHARS))
                         (str_of "-")))) = false.
Proof. reflexivity. Qed.

(** What the decode-and-check step of the loop body does with a patched
    string [pre ++ ps], [pre] ascii and [ps] the four patched bytes. *)
Lemma check_patched (pre ps : list Z) :
  Forall ascii_code pre -> length ps = 4%nat ->
  (let end_ := decode_end (pre ++ ps) in
   if negb (0 <? Z.of_nat
                   (length (List.filter (fun c => negb (str_mem c USABLE_CHARS)) end_)))
   then s ← decode_utf8 (pre ++ ps); Ok (Some (PStr s))
   else Ok None)
  = if forallb (fun x => str_mem x USABLE_CHARS) ps
    then Ok (Some (PStr (pre ++ ps)))
    else Ok None.
Proof.
  intros Hpre Hlen. cbv zeta.
  destruct (forallb (fun x => str_mem x USABLE_CHARS) ps) eqn:Eps.
  - apply forallb_usable in Eps.
    assert (Hall : Forall ascii_code (pre ++ ps)).
    { apply Forall_app. split; [exact Hpre|].
      eapply List.Forall_impl; [|exact Eps]. apply usable_ascii. }
    unfold decode_end. rewrite (decode_utf8_ascii _ Hall).
    assert (Hend : last_n 4 (pre ++ ps) = ps).
    { unfold last_n. rewrite length_app, Hlen.
      replace (length pre + 4 - 4)%nat with (length pre) by lia.
      now rewrite drop_app_length. }
    rewrite Hend.
    apply accept_usable in Eps. rewrite Eps. reflexivity.
  - unfold decode_end. rewrite (decode_utf8_ascii_prefix pre ps Hpre).
    destruct (decode_utf8 ps) as [S4| |] eqn:Edec;
      cbn [mbind result_bind]; try (rewrite reject_dash; reflexivity).
    destruct (decode_utf8_inv (length ps) ps S4 (le_n _) Edec) as [Hl Hasc].
    destruct (negb (0 <? Z.of_nat (length (List.filter
               (fun c => negb (str_mem c USABLE_CHARS)) (last_n 4 (pre ++ S4))))))
      eqn:Eacc; [|reflexivity].
    exfalso. apply accept_usable in Eacc.
    destruct (last_n_app_short pre S4 4 ltac:(lia)) as [pre' Hlast].
    rewrite Hlast in Eacc. apply Forall_app in Eacc as [_ HS4].
    assert (S4 = ps).
    { apply Hasc. eapply List.Forall_impl; [|exact HS4]. apply usable_ascii. }
    subst S4. apply forallb_usable in HS4. congruence.
Qed.

Lemma candidate_patch_length (s : list Z) (T c1 c2 c3 c4 : Z) :
  length (candidate_patch s T c1 c2 c3 c4) = 4%nat.
Proof. reflexivity. Qed.

(** One candidate, for any input: the ascii check of the whole string,
    the recheck of the checksum, then the closed form. *)
Lemma run_candidate_spec (fuel : nat) (s : list Z) (T : Z) (c : Z * Z * Z * Z) :
  (33 <= fuel)%nat ->
  let '(c1, c2, c3, c4) := c in
  run_candidate fuel s T c
  = if forallb (fun x => (0 <=? x) && (x <? 128))
         ((s ++ [c1; c2; c3; c4]) ++ [48; 48; 48; 48])
    then if crc32 ((s ++ [c1; c2; c3; c4]) ++ candidate_patch s T c1 c2 c3 c4) =? T
         then candidate_outcome s T c
         else Raise (AssertionError "Failed to update CRC-32 to desired value")
    else Raise UnicodeEncodeError.
Proof.
  intros Hfuel. destruct c as [[[c1 c2] c3] c4].
  unfold run_candidate, try_candidate, candidate_outcome.
  rewrite candidate_string. unfold modify_string_crc32.
  destruct (forallb _ ((s ++ [c1; c2; c3; c4]) ++ [48; 48; 48; 48])) eqn:Easc.
  - assert (Hasc : Forall ascii_code ((s ++ [c1; c2; c3; c4]) ++ [48; 48; 48; 48])).
    { assert (H : encode_ascii ((s ++ [c1; c2; c3; c4]) ++ [48; 48; 48; 48])
                  = Ok ((s ++ [c1; c2; c3; c4]) ++ [48; 48; 48; 48]))
        by (unfold encode_ascii; now rewrite Easc).
      now apply encode_ascii_Ok in H. }
    rewrite (patch_string_spec fuel _ 48 48 48 48 T Hfuel Hasc). cbv zeta.
    fold (candidate_patch s T c1 c2 c3 c4). cbn [mbind result_bind].
    destruct (crc32 ((s ++ [c1; c2; c3; c4]) ++ candidate_patch s T c1 c2 c3 c4) =? T);
      cbn [negb mbind result_bind]; [|reflexivity].
    apply check_patched; [|reflexivity].
    now apply Forall_app in Hasc as [Hpre _].
  - unfold patch_string, encode_ascii. rewrite Easc. reflexivity.
Qed.

(** For an ascii skeleton, legal free characters and a 32-bit target the
    recheck always passes, and the candidate is accepted or rejected. *)
Lemma run_candidate_closed (fuel : nat) (s : list Z) (T : Z) (c : Z * Z * Z * Z) :
  (33 <= fuel)%nat -> Forall ascii_code s -> reduced T -> In c candidates ->
  run_candidate fuel s T c = candidate_outcome s T c.
Proof.
  intros Hfuel Hs HT Hc.
  pose proof (run_candidate_spec fuel s T c Hfuel) as Hrun.
  destruct c as [[[c1 c2] c3] c4]. rewrite Hrun.
  assert (Hcs : Forall usable [c1; c2; c3; c4]).
  { unfold candidates in Hc.
    apply list_elem_of_In in Hc.
    apply list_elem_of_bind in Hc as (x1 & Hc & H1).
    apply list_elem_of_bind in Hc as (x2 & Hc & H2).
    apply list_elem_of_bind in Hc as (x3 & Hc & H3).
    apply list_elem_of_bind in Hc as (x4 & Hc & H4).
    apply list_elem_of_singleton in Hc. inversion Hc; subst.
    apply list_elem_of_In in H1, H2, H3, H4.
    repeat (apply List.Forall_cons; [assumption|]). apply List.Forall_nil. }
  assert (Hasc : Forall ascii_code ((s ++ [c1; c2; c3; c4]) ++ [48; 48; 48; 48])).
  { apply Forall_app. split; [apply Forall_app; split; [exact Hs|]|].
    - eapply List.Forall_impl; [|exact Hcs]. apply usable_ascii.
    - repeat (apply List.Forall_cons; [unfold ascii_code; lia|]).
      apply List.Forall_nil. }
  rewrite (proj2 (encode_ascii_forallb _) Hasc).
  destruct (modify_string_crc32_spec fuel (s ++ [c1; c2; c3; c4]) 48 48 48 48 T
              Hfuel Hasc HT) as (p0 & p1 & p2 & p3 & Hmod & Hcrc).
  unfold modify_string_crc32 in Hmod.
  rewrite (patch_string_spec fuel _ 48 48 48 48 T Hfuel Hasc) in Hmod.
  cbv zeta in Hmod. fold (candidate_patch s T c1 c2 c3 c4) in Hmod.
  cbn [mbind result_bind] in Hmod.
  destruct (crc32 ((s ++ [c1; c2; c3; c4]) ++ candidate_patch s T c1 c2 c3 c4) =? T);
    [reflexivity | discriminate].
Qed.

Lemma candidate_patch_crc (s : list Z) (T c1 c2 c3 c4 : Z) :
  Forall ascii_code ((s ++ [c1; c2; c3; c4]) ++ [48; 48; 48; 48]) -> reduced T ->
  crc32 ((s ++ [c1; c2; c3; c4]) ++ candidate_patch s T c1 c2 c3 c4) = T.
Proof.
  intros Hasc HT. unfold candidate_patch. cbv zeta.
  set (d := Z.lxor (crc32 ((s ++ [c1; c2; c3; c4]) ++ [48; 48; 48; 48])) T).
  assert (Hd : reduced d).
  { apply lxor_below; [lia | apply crc32_reduced, Hasc | exact HT]. }
  rewrite (crc32_patch_bytes (s ++ [c1; c2; c3; c4]) 48 48 48 48 d).
  rewrite (patch_checksum_id d Hd). subst d.
  generalize (crc32 ((s ++ [c1; c2; c3; c4]) ++ [48; 48; 48; 48])). intros c.
  xor_solve.
Qed.

Lemma encode_utf8_ascii (l : list Z) :
  Forall ascii_code l -> encode_utf8 l = Ok l.
Proof.
  intros Hl. induction Hl as [|c l Hc Hl IH]; [reflexivity|].
  cbn [encode_utf8]. unfold utf8_encode_char.
  rewrite (ascii_test c Hc), IH. reflexivity.
Qed.

(** ** The search loop *)

Lemma for_in_app {A R} (l1 l2 : list A) (body : A -> result (option R)) :
  for_in (l1 ++ l2) body
  = match for_in l1 body with
    | Ok None => for_in l2 body
    | other => other
    end.
Proof.
  induction l1 as [|a l1 IH]; [reflexivity|]. simpl.
  destruct (body a) as [[v|]| |]; try reflexivity. exact IH.
Qed.

Lemma for_in_ext {A R} (l : list A) (f g : A -> result (option R)) :
  (forall a, f a = g a) -> for_in l f = for_in l g.
Proof.
  intros H. induction l as [|a l IH]; [reflexivity|]. simpl.
  rewrite H, IH. reflexivity.
Qed.

Lemma for_in_singleton {A R} (a : A) (body : A -> result (option R)) :
  for_in [a] body = body a.
Proof. simpl. now destruct (body a) as [[v|]| |]. Qed.

(** Nested loops enumerate the concatenation of the inner ranges. *)
Lemma for_in_bind {A B R} (l : list A) (g : A -> list B)
    (body : B -> result (option R)) :
  for_in (l ≫= g) body = for_in l (fun a => for_in (g a) body).
Proof.
  induction l as [|a l IH]; [reflexivity|].
  change ((a :: l) ≫= g) with (g a ++ (l ≫= g)).
  rewrite for_in_app, IH. reflexivity.
Qed.

Lemma length_bind_const {A B} (l : list A) (g : A -> list B) (k : nat) :
  (forall a, length (g a) = k) -> length (l ≫= g) = (length l * k)%nat.
Proof.
  intros Hk. induction l as [|a l IH]; [reflexivity|].
  change ((a :: l) ≫= g) with (g a ++ (l ≫= g)).
  rewrite length_app, Hk, IH. simpl. lia.
Qed.

Lemma candidates_length : Z.of_nat (length candidates) = 36 ^ 4.
Proof.
  assert (H36 : length USABLE_CHARS = 36%nat) by reflexivity.
  assert (H : length candidates
              = (length USABLE_CHARS
                 * (length USABLE_CHARS
                    * (length USABLE_CHARS * (length USABLE_CHARS * 1))))%nat).
  { unfold candidates.
    apply length_bind_const. intros c1.
    apply length_bind_const. intros c2.
    apply length_bind_const. intros c3.
    apply length_bind_const. intros c4. reflexivity. }
  rewrite H, H36. rewrite !Nat2Z.inj_mul. reflexivity.
Qed.

(** The four nested loops are one loop over [candidates]. *)
Lemma generate_flat (fuel : nat) (s : list Z) (T : Z) :
  generateStrWithNewCRC fuel s T
  = (r ← for_in candidates (run_candidate fuel s T);
     match r with
     | Some v => Ok v
     | None => Ok (PInt (-1))
     end).
Proof.
  unfold generateStrWithNewCRC, candidates. f_equal.
  rewrite for_in_bind. apply for_in_ext. intros c1.
  rewrite for_in_bind. apply for_in_ext. intros c2.
  rewrite for_in_bind. apply for_in_ext. intros c3.
  rewrite for_in_bind. apply for_in_ext. intros c4.
  now rewrite for_in_singleton.
Qed.

(** The loop returns what the first candidate that is not rejected
    returns. *)
Lemma for_in_decided {A R} (l : list A) (body : A -> result (option R)) :
  forall (i : nat) (a : A),
    l !! i = Some a -> body a <> Ok None ->
    (forall j a', (j < i)%nat -> l !! j = Some a' -> body a' = Ok None) ->
    for_in l body = body a.
Proof.
  induction l as [|x l IH]; intros i a Hi Ha Hbefore; [discriminate|].
  destruct i as [|i]; simpl in Hi.
  - inversion Hi; subst. simpl. destruct (body a) as [[v|]| |]; congruence.
  - simpl. rewrite (Hbefore 0%nat x ltac:(lia) eq_refl).
    apply (IH i a Hi Ha). intros j a' Hj Hl.
    apply (Hbefore (S j) a'); [lia | exact Hl].
Qed.

Lemma for_in_outcome {A R} (l : list A) (body : A -> result (option R)) :
  (for_in l body = Ok None /\ forall a, In a l -> body a = Ok None)
  \/ exists i a,
       l !! i = Some a /\ body a <> Ok None /\ for_in l body = body a
       /\ forall j a', (j < i)%nat -> l !! j = Some a' -> body a' = Ok None.
Proof.
  induction l as [|x l IH].
  - left. split; [reflexivity | intros a []].
  - destruct (body x) as [[v|]| |] eqn:Ex.
    2:{ destruct IH as [[Hnone Hall] | (i & a & Hi & Ha & Hfor & Hbefore)].
        - left. split; [simpl; now rewrite Ex|].
          intros a [<- | Hin]; [exact Ex | now apply Hall].
        - right. exists (S i), a. split; [exact Hi|]. split; [exact Ha|].
          split; [simpl; now rewrite Ex|].
          intros [|j] a' Hj Hl; simpl in Hl.
          + inversion Hl; subst. exact Ex.
          + apply (Hbefore j a'); [lia | exact Hl]. }
    all: right; exists 0%nat, x; split; [reflexivity|];
      split; [rewrite Ex; discriminate|];
      split; [simpl; now rewrite Ex | intros j a' Hj; lia].
Qed.

(** No candidate runs out of fuel, and an accepted candidate is a string
    that encodes to bytes with the target checksum. *)
Lemma run_candidate_fuel (fuel : nat) (s : list Z) (T : Z) (c : Z * Z * Z * Z) :
  (33 <= fuel)%nat -> run_candidate fuel s T c <> OutOfFuel.
Proof.
  intros Hfuel. pose proof (run_candidate_spec fuel s T c Hfuel) as H.
  destruct c as [[[c1 c2] c3] c4]. rewrite H. unfold candidate_outcome.
  repeat match goal with |- context [if ?b then _ else _] => destruct b end;
    discriminate.
Qed.

Lemma run_candidate_accepted (fuel : nat) (s : list Z) (T : Z)
    (c : Z * Z * Z * Z) (v : pyval) :
  (33 <= fuel)%nat -> run_candidate fuel s T c = Ok (Some v) ->
  let '(c1, c2, c3, c4) := c in
  let patch := candidate_patch s T c1 c2 c3 c4 in
  v = PStr ((s ++ [c1; c2; c3; c4]) ++ patch)
  /\ Forall usable patch
  /\ Forall ascii_code (s ++ [c1; c2; c3; c4])
  /\ crc32 ((s ++ [c1; c2; c3; c4]) ++ patch) = T.
Proof.
  intros Hfuel. pose proof (run_candidate_spec fuel s T c Hfuel) as H.
  destruct c as [[[c1 c2] c3] c4]. rewrite H. cbv zeta.
  destruct (forallb _ ((s ++ [c1; c2; c3; c4]) ++ [48; 48; 48; 48])) eqn:Easc;
    [|discriminate].
  destruct (crc32 _ =? T) eqn:Ecrc; [|discriminate].
  unfold candidate_outcome.
  destruct (forallb _ (candidate_patch s T c1 c2 c3 c4)) eqn:Eus; [|discriminate].
  intros Hv. inversion Hv; subst. split; [reflexivity|].
  split; [now apply forallb_usable|]. split.
  - apply encode_ascii_forallb in Easc. now apply Forall_app in Easc as [? _].
  - now apply Z.eqb_eq.
Qed.

Lemma candidate_outcome_cases (s : list Z) (T : Z) (c : Z * Z * Z * Z) :
  candidate_outcome s T c = Ok None
  \/ exists v, candidate_outcome s T c = Ok (Some v).
Proof.
  destruct c as [[[c1 c2] c3] c4]. unfold candidate_outcome.
  destruct (forallb _ _); [right; eexists; reflexivity | now left].
Qed.

Lemma candidates_usable (c1 c2 c3 c4 : Z) :
  In (c1, c2, c3, c4) candidates -> Forall usable [c1; c2; c3; c4].
Proof.
  intros Hc. unfold candidates in Hc.
  apply list_elem_of_In in Hc.
  apply list_elem_of_bind in Hc as (x1 & Hc & H1).
  apply list_elem_of_bind in Hc as (x2 & Hc & H2).
  apply list_elem_of_bind in Hc as (x3 & Hc & H3).
  apply list_elem_of_bind in Hc as (x4 & Hc & H4).
  apply list_elem_of_singleton in Hc. inversion Hc; subst.
  apply list_elem_of_In in H1, H2, H3, H4.
  repeat (apply List.Forall_cons; [assumption|]). apply List.Forall_nil.
Qed.

Lemma lookup_In {A} (l : list A) (i : nat) (a : A) : l !! i = Some a -> In a l.
Proof. intros H. apply list_elem_of_In. eapply list_elem_of_lookup_2, H. Qed.

(** The separator of the skeleton the reader passes is not a legal
    character. *)
Lemma dot_not_usable : ~ usable 46.
Proof.
  unfold usable. intros H.
  assert (E : existsb (Z.eqb 46) USABLE_CHARS = true).
  { apply existsb_exists. exists 46. split; [exact H | reflexivity]. }
  vm_compute in E. discriminate.
Qed.

(** C1, as the code has it: for every 32-bit target T and every ascii
    skeleton, the forcer either returns the skeleton followed by 8 legal
    characters (4 enumerated, 4 patched), a string whose bytes have
    CRC-32 equal to T, or returns -1 after rejecting every candidate; the
    skeleton itself, separator included, is kept as it is. *)
Theorem forcer_returns_forced_or_exhausted (fuel : nat) (s : list Z) (T : Z) :
  (33 <= fuel)%nat -> Forall ascii_code s -> reduced T ->
  generateStrWithNewCRC fuel s T = Ok (PInt (-1))
  \/ exists suffix,
       generateStrWithNewCRC fuel s T = Ok (PStr (s ++ suffix))
       /\ length suffix = 8%nat
       /\ Forall usable suffix
       /\ encode_utf8 (s ++ suffix) = Ok (s ++ suffix)
       /\ crc32 (s ++ suffix) = T.
Proof.
  intros Hfuel Hs HT. rewrite generate_flat.
  destruct (for_in_outcome candidates (run_candidate fuel s T))
    as [[Hnone _] | (i & c & Hi & Hc & Hfor & _)].
  - left. now rewrite Hnone.
  - right. rewrite Hfor.
    pose proof (lookup_In _ _ _ Hi) as Hin.
    pose proof (run_candidate_closed fuel s T c Hfuel Hs HT Hin) as Hclosed.
    destruct (candidate_outcome_cases s T c) as [Hout | [v Hout]];
      rewrite Hout in Hclosed; [contradiction|].
    rewrite Hclosed.
    pose proof (run_candidate_accepted fuel s T c v Hfuel Hclosed) as Hacc.
    destruct c as [[[c1 c2] c3] c4]. cbv zeta in Hacc.
    destruct Hacc as (-> & Hus & Hasc & Hcrc).
    pose proof (candidates_usable c1 c2 c3 c4 Hin) as Hcs.
    exists ([c1; c2; c3; c4] ++ candidate_patch s T c1 c2 c3 c4).
    rewrite (app_assoc s [c1; c2; c3; c4] (candidate_patch s T c1 c2 c3 c4)).
    cbn [mbind result_bind].
    split; [reflexivity|].
    split; [rewrite length_app, candidate_patch_length; reflexivity|].
    split; [apply Forall_app; split; assumption|].
    split; [|exact Hcrc].
    apply encode_utf8_ascii. apply Forall_app. split; [exact Hasc|].
    eapply List.Forall_impl; [|exact Hus]. apply usable_ascii.
Qed.

Lemma forcer_returns_forced_or_exhausted_witness :
  generateStrWithNewCRC 33 (str_of "0000012345.") 12345 = Ok (PInt (-1))
  \/ exists suffix,
       generateStrWithNewCRC 33 (str_of "0000012345.") 12345
       = Ok (PStr (str_of "0000012345." ++ suffix))
       /\ length suffix = 8%nat
       /\ Forall usable suffix
       /\ encode_utf8 (str_of "0000012345." ++ suffix)
          = Ok (str_of "0000012345." ++ suffix)
       /\ crc32 (str_of "0000012345." ++ suffix) = 12345.
Proof.
  apply forcer_returns_forced_or_exhausted.
  - lia.
  - apply encode_ascii_forallb. reflexivity.
  - unfold reduced. lia.
Defined.

(** C1 as stated fails on the skeletons the reader passes: for the
    entry with checksum 12345 the forcer is called with the skeleton
    "0000012345." and returns "0000012345.00lhpckn", which holds the
    separator ".", not a legal character. *)
Lemma forced_name_keeps_separator :
  rjust (str_int 12345) 10 48 ++ str_of "." = str_of "0000012345."
  /\ generateStrWithNewCRC 33 (str_of "0000012345.") 12345
     = Ok (PStr (str_of "0000012345.00lhpckn"))
  /\ In 46 (str_of "0000012345.00lhpckn")
  /\ ~ usable 46.
Proof.
  split; [reflexivity|]. split; [vm_compute; reflexivity|].
  split; [|exact dot_not_usable].
  vm_compute. do 10 right. left. reflexivity.
Qed.

(** C2: the recheck stands between the patch and every return.  A
    string [modify_string_crc32] returns hashes to the target; when the
    patched string does not, the function raises AssertionError; an
    exception of a candidate that is reached ends the whole search with
    that exception (it is not caught, nothing is retried); and so every
    string the forcer returns encodes to bytes whose CRC-32 is the
    target. *)
Theorem recheck_before_return (fuel : nat) (s : list Z) (T : Z) :
  (33 <= fuel)%nat ->
  (forall b, modify_string_crc32 fuel s T = Ok b -> crc32 b = T)
  /\ (forall b, patch_string fuel s T = Ok b -> crc32 b <> T ->
        modify_string_crc32 fuel s T
        = Raise (AssertionError "Failed to update CRC-32 to desired value"))
  /\ (forall i c e,
        candidates !! i = Some c ->
        run_candidate fuel s T c = Raise e ->
        (forall j c', (j < i)%nat -> candidates !! j = Some c' ->
                      run_candidate fuel s T c' = Ok None) ->
        generateStrWithNewCRC fuel s T = Raise e)
  /\ (forall S, generateStrWithNewCRC fuel s T = Ok (PStr S) ->
        encode_utf8 S = Ok S /\ crc32 S = T).
Proof.
  intros Hfuel. split; [|split; [|split]].
  - intros b. unfold modify_string_crc32.
    destruct (patch_string fuel s T) as [p| |]; cbn [mbind result_bind];
      try discriminate.
    destruct (crc32 p =? T) eqn:E; cbn [negb]; [|discriminate].
    intros H. inversion H; subst. now apply Z.eqb_eq.
  - intros b Hb Hne. unfold modify_string_crc32. rewrite Hb.
    cbn [mbind result_bind]. apply Z.eqb_neq in Hne. now rewrite Hne.
  - intros i c e Hi He Hbefore. rewrite generate_flat.
    rewrite (for_in_decided candidates (run_candidate fuel s T) i c Hi);
      [now rewrite He | rewrite He; discriminate | exact Hbefore].
  - intros S. rewrite generate_flat.
    destruct (for_in_outcome candidates (run_candidate fuel s T))
      as [[Hnone _] | (i & c & Hi & Hc & Hfor & _)].
    + rewrite Hnone. discriminate.
    + rewrite Hfor.
      destruct (run_candidate fuel s T c) as [[v|]| |] eqn:Erun;
        cbn [mbind result_bind]; try discriminate; try congruence.
      intros Hv. inversion Hv; subst v.
      pose proof (run_candidate_accepted fuel s T c _ Hfuel Erun) as Hacc.
      destruct c as [[[c1 c2] c3] c4]. cbv zeta in Hacc.
      destruct Hacc as (HS & Hus & Hasc & Hcrc).
      inversion HS; subst S. split; [|exact Hcrc].
      apply encode_utf8_ascii. apply Forall_app. split; [exact Hasc|].
      eapply List.Forall_impl; [|exact Hus]. apply usable_ascii.
Qed.

(** A target that is not a 32-bit value cannot be met: the recheck fails
    on the first candidate and the search stops there. *)
Lemma recheck_before_return_witness :
  generateStrWithNewCRC 33 (str_of "0000012345.") (2 ^ 32)
  = Raise (AssertionError "Failed to update CRC-32 to desired value").
Proof.
  destruct (recheck_before_return 33 (str_of "0000012345.") (2 ^ 32))
    as (_ & _ & H & _); [lia|].
  apply (H 0%nat (48, 48, 48, 48)).
  - reflexivity.
  - vm_compute. reflexivity.
  - intros j c' Hj. lia.
Defined.

(** C3, as the code has it: the search is one pass over [candidates],
    the products of four nested iterations over the 36 legal characters,
    36^4 suffixes of four free characters; it ends for every input (33
    rounds of fuel are enough for each inner loop), with -1 when every
    candidate was rejected, and otherwise with the outcome of the first
    candidate that was not rejected. *)
Theorem search_is_bounded (fuel : nat) (s : list Z) (T : Z) :
  (33 <= fuel)%nat ->
  Z.of_nat (length candidates) = 36 ^ 4
  /\ generateStrWithNewCRC fuel s T <> OutOfFuel
  /\ ((generateStrWithNewCRC fuel s T = Ok (PInt (-1))
       /\ forall c, In c candidates -> run_candidate fuel s T c = Ok None)
      \/ exists i c,
           candidates !! i = Some c
           /\ Z.of_nat i < 36 ^ 4
           /\ (forall j c', (j < i)%nat -> candidates !! j = Some c' ->
                            run_candidate fuel s T c' = Ok None)
           /\ ((exists S, run_candidate fuel s T c = Ok (Some (PStr S))
                          /\ generateStrWithNewCRC fuel s T = Ok (PStr S))
               \/ (exists e, run_candidate fuel s T c = Raise e
                             /\ generateStrWithNewCRC fuel s T = Raise e))).
Proof.
  intros Hfuel. split; [exact candidates_length|].
  rewrite generate_flat.
  destruct (for_in_outcome candidates (run_candidate fuel s T))
    as [[Hnone Hall] | (i & c & Hi & Hc & Hfor & Hbefore)].
  - rewrite Hnone. split; [discriminate|]. left. split; [reflexivity | exact Hall].
  - rewrite Hfor.
    pose proof (run_candidate_fuel fuel s T c Hfuel) as Hnf.
    assert (Hlt : Z.of_nat i < 36 ^ 4).
    { rewrite <- candidates_length. apply lookup_lt_Some in Hi. lia. }
    destruct (run_candidate fuel s T c) as [[v|]| |] eqn:Erun; try congruence.
    + pose proof (run_candidate_accepted fuel s T c v Hfuel Erun) as Hacc.
      destruct c as [[[c1 c2] c3] c4]. cbv zeta in Hacc.
      destruct Hacc as (-> & _).
      split; [discriminate|]. right. exists i, (c1, c2, c3, c4).
      split; [exact Hi|]. split; [exact Hlt|]. split; [exact Hbefore|].
      left. eexists. rewrite Erun. split; reflexivity.
    + split; [discriminate|]. right. exists i, c.
      split; [exact Hi|]. split; [exact Hlt|]. split; [exact Hbefore|].
      right. exists e. split; [exact Erun | reflexivity].
Qed.

Lemma search_is_bounded_witness :
  generateStrWithNewCRC 33 (str_of "0000012345.") 12345 <> OutOfFuel.
Proof.
  destruct (search_is_bounded 33 (str_of "0000012345.") 12345) as (_ & H & _);
    [lia | exact H].
Defined.

(** C3 as stated fails: the enumeration is a product of four iterations
    over the alphabet, not three.  There are 36^4 candidate suffixes,
    and the string returned for the skeleton "0000012345." and the
    target 12345 has four free characters ("00lh", candidate number 773)
    before its four patched bytes ("pckn"): eight characters after the
    skeleton, not seven. *)
Lemma four_free_characters :
  Z.of_nat (length candidates) = 36 ^ 4
  /\ 36 ^ 3 < 36 ^ 4
  /\ candidates !! 773%nat = Some (48, 48, 108, 104)
  /\ run_candidate 33 (str_of "0000012345.") 12345 (48, 48, 108, 104)
     = Ok (Some (PStr (str_of "0000012345." ++ str_of "00lh" ++ str_of "pckn")))
  /\ generateStrWithNewCRC 33 (str_of "0000012345.") 12345
     = Ok (PStr (str_of "0000012345." ++ str_of "00lh" ++ str_of "pckn"))
  /\ length (str_of "0000012345." ++ str_of "00lh" ++ str_of "pckn")
     = (length (str_of "0000012345.") + 4 + 4)%nat.
Proof.
  split; [exact candidates_length|]. split; [reflexivity|].
  split; [lazy; reflexivity|].
  split; [vm_compute; reflexivity|].
  split; [vm_compute; reflexivity | reflexivity].
Qed.

End ForcerProps.

(* ===================================================================== *)
(** * Laws of the GF(2) arithmetic *)
(* ===================================================================== *)

Module EngineLaws.

Import Bits EngineProps ForcerProps.

#[local] Arguments Z.shiftl : simpl never.
#[local] Arguments Z.shiftr : simpl never.
#[local] Arguments Z.lxor : simpl never.
#[local] Arguments Z.lor : simpl never.
#[local] Arguments Z.land : simpl never.
#[local] Arguments Z.testbit : simpl never.
#[local] Arguments Z.mul : simpl never.
#[local] Arguments Z.pow : simpl never.

(** ** [reverse32] reverses the low 32 bits *)

Lemma reverse32_loop_bits (n : nat) :
  forall (y x j : Z),
    0 <= j ->
    Z.testbit (reverse32_loop n y x) j
    = if j <? Z.of_nat n then Z.testbit x (Z.of_nat n - 1 - j)
      else Z.testbit y (j - Z.of_nat n).
Proof.
  induction n as [|n IH]; intros y x j Hj.
  - cbn [reverse32_loop]. destruct (j <? Z.of_nat 0) eqn:E.
    + apply Z.ltb_lt in E. lia.
    + f_equal. lia.
  - cbn [reverse32_loop]. rewrite IH by exact Hj.
    destruct (j <? Z.of_nat n) eqn:E1; destruct (j <? Z.of_nat (S n)) eqn:E2;
      try apply Z.ltb_lt in E1; try apply Z.ltb_ge in E1;
      try apply Z.ltb_lt in E2; try apply Z.ltb_ge in E2; try lia.
    + rewrite Z.shiftr_spec by lia. f_equal. lia.
    + rewrite reverse32_step_bits by lia.
      assert (j = Z.of_nat n) by lia. subst j.
      replace (Z.of_nat n - Z.of_nat n =? 0) with true
        by (symmetry; apply Z.eqb_eq; lia).
      f_equal. lia.
    + rewrite reverse32_step_bits by lia.
      replace (j - Z.of_nat n =? 0) with false
        by (symmetry; apply Z.eqb_neq; lia).
      f_equal. lia.
Qed.

Lemma reverse32_bits (x j : Z) :
  0 <= j ->
  Z.testbit (reverse32 x) j = if j <? 32 then Z.testbit x (31 - j) else false.
Proof.
  intros Hj. unfold reverse32. rewrite reverse32_loop_bits by exact Hj.
  change (Z.of_nat 32) with 32.
  destruct (j <? 32); [f_equal; lia | apply Z.bits_0].
Qed.

(** X1: [reverse32] mirrors the low 32 bits of its argument and drops the
    rest; applied twice it gives back the low 32 bits. *)
Theorem reverse32_involutive (x : Z) :
  (forall j, 0 <= j < 32 -> Z.testbit (reverse32 x) j = Z.testbit x (31 - j))
  /\ 0 <= reverse32 x < 2 ^ 32
  /\ reverse32 (reverse32 x) = Z.land x 0xFFFFFFFF.
Proof.
  split; [|split].
  - intros j Hj. rewrite reverse32_bits by lia.
    destruct (j <? 32) eqn:E; [reflexivity | apply Z.ltb_ge in E; lia].
  - apply reverse32_reduced.
  - apply Z.bits_inj'. intros j Hj.
    rewrite reverse32_bits by exact Hj. rewrite Z.land_spec.
    change 0xFFFFFFFF with (Z.ones 32).
    destruct (j <? 32) eqn:E.
    + apply Z.ltb_lt in E. rewrite reverse32_bits by lia.
      replace (31 - j <? 32) with true by (symmetry; apply Z.ltb_lt; lia).
      rewrite Z.ones_spec_low by lia. rewrite andb_true_r. f_equal. lia.
    + apply Z.ltb_ge in E. rewrite Z.ones_spec_high by lia.
      now rewrite andb_false_r.
Qed.

(** ** [multiply_mod]: when the loop ends *)

Lemma multiply_mod_loop_large (n : nat) :
  forall x y z, 2 ^ Z.of_nat n <= y -> multiply_mod_loop n x y z = OutOfFuel.
Proof.
  induction n as [|n IH]; intros x y z Hy; rewrite multiply_mod_loop_unfold.
  - change (2 ^ Z.of_nat 0) with 1 in Hy.
    destruct (y =? 0) eqn:E; [apply Z.eqb_eq in E; lia | reflexivity].
  - assert (Hp : 0 < 2 ^ Z.of_nat n) by (apply Z.pow_pos_nonneg; lia).
    rewrite Nat2Z.inj_succ, Z.pow_succ_r in Hy by lia.
    destruct (y =? 0) eqn:E; [apply Z.eqb_eq in E; lia|].
    apply IH. rewrite Z.shiftr_div_pow2 by lia. change (2 ^ 1) with 2.
    apply Z.div_le_lower_bound; lia.
Qed.

(** X2: The loop of [multiply_mod] ends exactly for a non-negative
    multiplier, after as many rounds as the multiplier has bits: with
    [fuel] rounds it returns when [0 <= y < 2^fuel] and not otherwise.
    It never raises. *)
Theorem multiply_mod_ends (fuel : nat) (x y : Z) :
  (0 <= y < 2 ^ Z.of_nat fuel -> multiply_mod fuel x y = Ok (peasant fuel x y))
  /\ (y < 0 \/ 2 ^ Z.of_nat fuel <= y -> multiply_mod fuel x y = OutOfFuel).
Proof.
  split.
  - apply multiply_mod_spec.
  - intros [Hneg | Hbig].
    + now apply multiply_mod_negative.
    + now apply multiply_mod_loop_large.
Qed.

(** ** The product of reduced polynomials *)

Lemma peasant_comm_basis :
  forallb (fun i =>
    forallb (fun j =>
      peasant 32 (2 ^ Z.of_nat i) (2 ^ Z.of_nat j)
      =? peasant 32 (2 ^ Z.of_nat j) (2 ^ Z.of_nat i)) (seq 0 32)) (seq 0 32)
  = true.
Proof. vm_compute. reflexivity. Qed.

Lemma peasant_comm (x y : Z) :
  reduced x -> reduced y -> peasant 32 x y = peasant 32 y x.
Proof.
  intros Hx Hy. revert x Hx.
  apply (linear_basis (fun x => peasant 32 x y) (fun x => peasant 32 y x) 32).
  - intros a b. apply peasant_lxor_l.
  - intros a b. apply peasant_lxor_r.
  - intros i Hi. revert y Hy.
    apply (linear_basis (fun y => peasant 32 (2 ^ Z.of_nat i) y)
             (fun y => peasant 32 y (2 ^ Z.of_nat i)) 32).
    + intros a b. apply peasant_lxor_r.
    + intros a b. apply peasant_lxor_l.
    + intros j Hj. pose proof peasant_comm_basis as H.
      rewrite forallb_forall in H.
      specialize (H i ltac:(apply in_seq; lia)).
      rewrite forallb_forall in H.
      apply Z.eqb_eq, H, in_seq. lia.
Qed.

Lemma reduced_fuel (fuel : nat) (y : Z) :
  (32 <= fuel)%nat -> reduced y -> 0 <= y < 2 ^ Z.of_nat fuel.
Proof.
  intros Hf [Hy0 Hy]. split; [exact Hy0|].
  eapply Z.lt_le_trans; [exact Hy|]. apply Z.pow_le_mono_r; lia.
Qed.

Lemma multiply_mod_reduced (fuel : nat) (x y : Z) :
  (32 <= fuel)%nat -> reduced y ->
  multiply_mod fuel x y = Ok (peasant 32 x y).
Proof.
  intros Hf Hy. rewrite multiply_mod_spec by (now apply reduced_fuel).
  now rewrite (peasant_more 32 fuel x y Hy Hf).
Qed.

(** X3: On reduced polynomials (degree at most 31) [multiply_mod] is
    commutative, and the product is reduced again. *)
Theorem multiply_mod_comm (fuel : nat) (x y : Z) :
  (32 <= fuel)%nat -> reduced x -> reduced y ->
  exists z, multiply_mod fuel x y = Ok z /\ multiply_mod fuel y x = Ok z
            /\ reduced z.
Proof.
  intros Hf Hx Hy. exists (peasant 32 x y).
  rewrite !multiply_mod_reduced by assumption.
  split; [reflexivity|]. split; [now rewrite peasant_comm|].
  now apply peasant_reduced.
Qed.

Lemma multiply_mod_comm_witness :
  exists z, multiply_mod 32 0x04C11DB7 0xCBF1ACDA = Ok z
            /\ multiply_mod 32 0xCBF1ACDA 0x04C11DB7 = Ok z /\ reduced z.
Proof. apply multiply_mod_comm; [lia | unfold reduced; lia..]. Defined.

Lemma peasant_1_r (n : nat) (x : Z) : peasant (S n) x 1 = x.
Proof.
  rewrite peasant_S. change (Z.shiftr 1 1) with 0. rewrite peasant_0.
  change (Z.land 1 1) with 1. rewrite Z.mul_1_r. apply Z.lxor_0_r.
Qed.

Lemma peasant_1_l (y : Z) : reduced y -> peasant 32 1 y = y.
Proof.
  intros Hy. rewrite peasant_comm; [apply peasant_1_r | unfold reduced; lia | exact Hy].
Qed.

(** X4: The polynomial 1 is neutral for [multiply_mod] and 0 absorbs: on
    the right for every [x], on the left for a reduced [y]. *)
Theorem multiply_mod_unit (fuel : nat) (x y : Z) :
  (32 <= fuel)%nat -> reduced y ->
  multiply_mod fuel x 1 = Ok x
  /\ multiply_mod fuel 1 y = Ok y
  /\ multiply_mod fuel x 0 = Ok 0
  /\ multiply_mod fuel 0 y = Ok 0.
Proof.
  intros Hf Hy.
  assert (H1 : reduced 1) by (unfold reduced; lia).
  assert (H0 : reduced 0) by (unfold reduced; lia).
  rewrite !multiply_mod_reduced by assumption.
  rewrite peasant_1_r, (peasant_1_l y Hy), peasant_0, peasant_0_l.
  repeat split; reflexivity.
Qed.

Lemma multiply_mod_unit_witness :
  multiply_mod 32 (2 ^ 40) 1 = Ok (2 ^ 40)
  /\ multiply_mod 32 1 12345 = Ok 12345
  /\ multiply_mod 32 (2 ^ 40) 0 = Ok 0
  /\ multiply_mod 32 0 12345 = Ok 0.
Proof. apply multiply_mod_unit; [lia | unfold reduced; lia]. Defined.

(** ** [pow_mod], inlined in [reciprocal_mod] *)

(** x^k modulo the generator: [k] doublings of 1. *)
Lemma power_reduced (k : nat) : reduced (Nat.iter k shift_reduce 1).
Proof.
  induction k as [|k IH]; [unfold reduced; simpl; lia|].
  rewrite Nat.iter_succ. now apply shift_reduce_reduced.
Qed.

Lemma peasant33 (x y : Z) : reduced y -> peasant 33 x y = peasant 32 x y.
Proof. intros Hy. apply (peasant_more 32 33 x y Hy). lia. Qed.

Lemma peasant_power (a : Z) (k : nat) :
  reduced a ->
  peasant 32 a (Nat.iter k shift_reduce 1) = Nat.iter k shift_reduce a.
Proof.
  intros Ha. induction k as [|k IH].
  - apply peasant_1_r.
  - rewrite !Nat.iter_succ.
    rewrite <- peasant33 by apply shift_reduce_reduced, power_reduced.
    rewrite peasant_shift_reduce_r by (try apply power_reduced; assumption).
    rewrite peasant33 by apply power_reduced. now rewrite IH.
Qed.

Lemma iter_reduced (k : nat) (a : Z) :
  reduced a -> reduced (Nat.iter k shift_reduce a).
Proof.
  intros Ha. induction k as [|k IH]; [exact Ha|].
  rewrite Nat.iter_succ. now apply shift_reduce_reduced.
Qed.

Lemma pow_loop_spec (fuel : nat) (Hf : (32 <= fuel)%nat) (n : nat) :
  forall (x : Z) (k : nat) (b : Z),
    reduced x -> 0 <= b < 2 ^ Z.of_nat n ->
    pow_loop fuel n x (Nat.iter k shift_reduce 1) b
    = Ok (Nat.iter (k * Z.to_nat b) shift_reduce x).
Proof.
  induction n as [|n IH]; intros x k b Hx Hb; rewrite pow_loop_unfold.
  - change (2 ^ Z.of_nat 0) with 1 in Hb. assert (b = 0) by lia. subst b.
    cbn [Z.eqb]. rewrite Nat.mul_0_r. reflexivity.
  - destruct (b =? 0) eqn:E.
    + apply Z.eqb_eq in E. subst b. rewrite Nat.mul_0_r. reflexivity.
    + apply Z.eqb_neq in E.
      pose proof (power_reduced k) as Hk.
      rewrite !multiply_mod_reduced by assumption.
      rewrite (peasant_power _ k Hk), <- Nat.iter_add.
      assert (Hb' : 0 <= Z.shiftr b 1 < 2 ^ Z.of_nat n).
      { apply shiftr_below; [lia|].
        replace (Z.of_nat n + 1) with (Z.of_nat (S n)) by lia. exact Hb. }
      assert (Hdiv : Z.shiftr b 1 = b / 2)
        by (rewrite Z.shiftr_div_pow2 by lia; reflexivity).
      rewrite land_1_odd.
      pose proof (Zdiv2_odd_eqn b) as Hodd. rewrite Z.div2_div in Hodd.
      destruct (Z.odd b) eqn:Eo.
      * change (negb (1 =? 0)) with true. cbn iota.
        rewrite (peasant_power x k Hx). cbn [mbind result_bind].
        rewrite (IH _ (k + k)%nat) by (try apply iter_reduced; assumption).
        rewrite <- Nat.iter_add. f_equal. f_equal. rewrite Hdiv. nia.
      * change (negb (0 =? 0)) with false. cbn iota. cbn [mbind result_bind].
        rewrite (IH _ (k + k)%nat) by assumption.
        f_equal. f_equal. rewrite Hdiv. nia.
Qed.

(** X5: The squaring loop inlined in [reciprocal_mod] computes x^b modulo
    the generator for every exponent [b >= 0]: the result is 1 doubled
    (with reduction) [b] times. *)
Theorem pow_mod_power (fuel n : nat) (b : Z) :
  (32 <= fuel)%nat -> 0 <= b < 2 ^ Z.of_nat n ->
  pow_loop fuel n 1 2 b = Ok (Nat.iter (Z.to_nat b) shift_reduce 1).
Proof.
  intros Hf Hb.
  change 2 with (Nat.iter 1 shift_reduce 1) at 1.
  rewrite (pow_loop_spec fuel Hf n 1 1%nat b); [|unfold reduced; lia | exact Hb].
  now rewrite Nat.mul_1_l.
Qed.

Lemma pow_mod_power_witness :
  pow_loop 33 33 1 2 32 = Ok (Nat.iter (Z.to_nat 32) shift_reduce 1).
Proof. apply pow_mod_power; [lia|]. split; [lia | reflexivity]. Defined.

End EngineLaws.

(* ===================================================================== *)
(** * The forcer: patching and failures *)
(* ===================================================================== *)

Module ForcerLaws.

Import Bits EngineProps ForcerProps EngineLaws.

#[local] Arguments Z.shiftl : simpl never.
#[local] Arguments Z.shiftr : simpl never.
#[local] Arguments Z.lxor : simpl never.
#[local] Arguments Z.lor : simpl never.
#[local] Arguments Z.land : simpl never.
#[local] Arguments Z.testbit : simpl never.
#[local] Arguments Z.mul : simpl never.
#[local] Arguments Z.pow : simpl never.

(** ** The reciprocal *)

Lemma reciprocal_times_power : peasant 33 RECIPROCAL (Nat.iter 32 shift_reduce 1) = 1.
Proof. vm_compute. reflexivity. Qed.

(** X6: What [reciprocal_mod] returns undoes a multiplication by x^32 (the
    value of the inlined [pow_mod] for the 4-byte patch zone): for every
    reduced [y], multiplying [y] by x^32 and then by the reciprocal
    gives [y] back. *)
Theorem reciprocal_undoes_power (fuel : nat) (length y : Z) :
  (33 <= fuel)%nat -> reduced y ->
  exists r p,
    reciprocal_mod fuel length (length - 4) = Ok r
    /\ pow_loop fuel fuel 1 2 ((length - (length - 4)) * 8) = Ok p
    /\ (m ← multiply_mod fuel y p; multiply_mod fuel r m) = Ok y.
Proof.
  intros Hf Hy. exists RECIPROCAL, (Nat.iter 32 shift_reduce 1).
  split; [now apply reciprocal_mod_value|].
  replace ((length - (length - 4)) * 8) with 32 by lia.
  split.
  { change 2 with (Nat.iter 1 shift_reduce 1) at 1.
    rewrite (pow_loop_spec fuel ltac:(lia) fuel 1 1%nat 32);
      [reflexivity | unfold reduced; lia |].
    split; [lia|]. change 32 with (2 ^ 5) at 1.
    apply Z.pow_lt_mono_r; lia. }
  pose proof (power_reduced 32) as Hp.
  rewrite multiply_mod_reduced by (try lia; assumption).
  cbn [mbind result_bind].
  rewrite multiply_mod_reduced by (try lia; now apply peasant_reduced).
  f_equal.
  rewrite (peasant_comm y _ Hy Hp).
  rewrite <- peasant33 by (now apply peasant_reduced).
  rewrite peasant_assoc by (try assumption; unfold reduced, RECIPROCAL; lia).
  rewrite reciprocal_times_power. now apply peasant_1_l.
Qed.

Lemma reciprocal_undoes_power_witness :
  exists r p,
    reciprocal_mod 33 19 (19 - 4) = Ok r
    /\ pow_loop 33 33 1 2 ((19 - (19 - 4)) * 8) = Ok p
    /\ (m ← multiply_mod 33 12345 p; multiply_mod 33 r m) = Ok 12345.
Proof. apply reciprocal_undoes_power; [lia | unfold reduced; lia]. Defined.

(** ** [modify_string_crc32] on every input *)

Lemma split_last4 (s : list Z) :
  (4 <= length s)%nat ->
  exists pre z0 z1 z2 z3,
    s = pre ++ [z0; z1; z2; z3] /\ pre = take (length s - 4) s.
Proof.
  intros Hlen. exists (take (length s - 4) s).
  pose proof (take_drop (length s - 4) s) as Hs.
  assert (Hd : length (drop (length s - 4) s) = 4%nat)
    by (rewrite length_drop; lia).
  destruct (drop (length s - 4) s) as [|z0 [|z1 [|z2 [|z3 [|? ?]]]]];
    try discriminate.
  exists z0, z1, z2, z3. split; [now symmetry | reflexivity].
Qed.

Lemma patch_byte_range (d i : Z) : 0 <= patch_byte d i < 256.
Proof.
  unfold patch_byte. change 0xFF with (Z.ones 8).
  rewrite Z.land_ones by lia. apply Z.mod_pos_bound. reflexivity.
Qed.

Lemma patched_byte_range (z d i : Z) :
  ascii_code z -> 0 <= Z.lxor z (patch_byte d i) < 2 ^ 8.
Proof.
  intros Hz. pose proof (patch_byte_range d i) as Hp.
  apply lxor_below; [lia | unfold ascii_code in Hz; lia | exact Hp].
Qed.

(** X7: For an ascii string of at least four characters and a 32-bit
    target, [modify_string_crc32] always returns: the recheck never
    fails.  The bytes returned have the target CRC-32 and differ from
    the string in the last four positions only. *)
Theorem modify_string_crc32_succeeds (fuel : nat) (s : list Z) (T : Z) :
  (33 <= fuel)%nat -> Forall ascii_code s -> (4 <= length s)%nat -> reduced T ->
  exists b,
    modify_string_crc32 fuel s T = Ok b
    /\ crc32 b = T
    /\ length b = length s
    /\ take (length s - 4) b = take (length s - 4) s.
Proof.
  intros Hf Hs Hlen HT.
  destruct (split_last4 s Hlen) as (pre & z0 & z1 & z2 & z3 & Es & Epre).
  assert (Hn : (length s - 4)%nat = length pre).
  { rewrite Es at 1. rewrite length_app. simpl. lia. }
  rewrite Hn. rewrite Es in Hs |- *.
  destruct (modify_string_crc32_spec fuel pre z0 z1 z2 z3 T Hf Hs HT)
    as (p0 & p1 & p2 & p3 & Hmod & Hcrc).
  exists (pre ++ [p0; p1; p2; p3]).
  split; [exact Hmod|]. split; [exact Hcrc|].
  split; [now rewrite !length_app|].
  now rewrite !take_app_length.
Qed.

Lemma modify_string_crc32_succeeds_witness :
  exists b,
    modify_string_crc32 33 (str_of "0000012345.00000000") 12345 = Ok b
    /\ crc32 b = 12345
    /\ length b = length (str_of "0000012345.00000000")
    /\ take (length (str_of "0000012345.00000000") - 4) b
       = take (length (str_of "0000012345.00000000") - 4)
           (str_of "0000012345.00000000").
Proof.
  apply modify_string_crc32_succeeds.
  - lia.
  - apply encode_ascii_forallb. reflexivity.
  - simpl. lia.
  - unfold reduced. lia.
Defined.

(** ** Strings shorter than the patch zone *)

Lemma patch_string_unfold (fuel : nat) (s : list Z) (T : Z) :
  (33 <= fuel)%nat -> Forall ascii_code s ->
  exists f,
    patch_string fuel s T
    = for_fold [0; 1; 2; 3]
        (fun string i => xor_item string (Z.of_nat (length s) - 4 + i) (f i)) s.
Proof.
  intros Hf Hs. unfold patch_string.
  rewrite (encode_ascii_ascii _ Hs). cbn [mbind result_bind].
  destruct (Z.of_nat (length s) - 4 + 4 >? Z.of_nat (length s)) eqn:E;
    [rewrite Z.gtb_ltb in E; apply Z.ltb_lt in E; lia|].
  rewrite (reciprocal_mod_value fuel _ Hf). cbn [mbind result_bind].
  pose proof (reverse32_reduced (Z.lxor (crc32 s) T)) as Hrev.
  rewrite multiply_mod_reduced by (try lia; assumption).
  cbn [mbind result_bind]. eexists (fun i => _). reflexivity.
Qed.

(** X8: The guard [offset + 4 > length] of [modify_string_crc32] can never
    fire, since [offset] is [length - 4]: a string with fewer than four
    characters is not refused with the ValueError.  For a string of at
    most one character the patch loop subscripts out of range and the
    call ends with IndexError. *)
Theorem modify_string_crc32_short (fuel : nat) (s : list Z) (T : Z) :
  (33 <= fuel)%nat -> Forall ascii_code s ->
  modify_string_crc32 fuel s T
  <> Raise (ValueError "Byte offset plus 4 exceeds file length")
  /\ ((length s <= 1)%nat -> modify_string_crc32 fuel s T = Raise IndexError).
Proof.
  intros Hf Hs. destruct (patch_string_unfold fuel s T Hf Hs) as [f Hp].
  unfold modify_string_crc32. rewrite Hp. clear Hp. split.
  - cbn [for_fold].
    assert (Hx : forall l i v, xor_item l i v = Raise IndexError
                               \/ exists l', xor_item l i v = Ok l').
    { intros l i v. unfold xor_item.
      destruct (py_index l i) as [j| |] eqn:Ej; cbn [mbind result_bind].
      - destruct (l !! j); [right; eexists; reflexivity | now left].
      - unfold py_index in Ej.
        destruct ((0 <=? _) && _) in Ej; [discriminate|].
        inversion Ej. now left.
      - unfold py_index in Ej.
        destruct ((0 <=? _) && _) in Ej; discriminate. }
    destruct (Hx s (Z.of_nat (length s) - 4 + 0) (f 0)) as [-> | [l1 ->]];
      cbn [mbind result_bind]; [discriminate|].
    destruct (Hx l1 (Z.of_nat (length s) - 4 + 1) (f 1)) as [-> | [l2 ->]];
      cbn [mbind result_bind]; [discriminate|].
    destruct (Hx l2 (Z.of_nat (length s) - 4 + 2) (f 2)) as [-> | [l3 ->]];
      cbn [mbind result_bind]; [discriminate|].
    destruct (Hx l3 (Z.of_nat (length s) - 4 + 3) (f 3)) as [-> | [l4 ->]];
      cbn [mbind result_bind]; [discriminate|].
    destruct (negb (crc32 l4 =? T)); discriminate.
  - intros Hlen. cbn [for_fold].
    assert (E : xor_item s (Z.of_nat (length s) - 4 + 0) (f 0) = Raise IndexError).
    { unfold xor_item, py_index.
      destruct (Z.of_nat (length s) - 4 + 0 <? 0) eqn:E1;
        [|apply Z.ltb_ge in E1; lia].
      destruct ((0 <=? Z.of_nat (length s) - 4 + 0 + Z.of_nat (length s))
                && (Z.of_nat (length s) - 4 + 0 + Z.of_nat (length s)
                    <? Z.of_nat (length s))) eqn:E2; [|reflexivity].
      apply andb_true_iff in E2 as [E2 _]. apply Z.leb_le in E2. lia. }
    rewrite E. reflexivity.
Qed.

Lemma modify_string_crc32_short_witness :
  modify_string_crc32 33 (str_of "a") 0
  <> Raise (ValueError "Byte offset plus 4 exceeds file length")
  /\ ((length (str_of "a") <= 1)%nat ->
      modify_string_crc32 33 (str_of "a") 0 = Raise IndexError).
Proof.
  apply modify_string_crc32_short; [lia|].
  apply encode_ascii_forallb. reflexivity.
Defined.

(** ** The failure modes of the search *)

Lemma first_candidate : candidates !! 0%nat = Some (48, 48, 48, 48).
Proof. lazy. reflexivity. Qed.

Lemma generate_first_raises (fuel : nat) (s : list Z) (T : Z) (e : exn) :
  run_candidate fuel s T (48, 48, 48, 48) = Raise e ->
  generateStrWithNewCRC fuel s T = Raise e.
Proof.
  intros He. rewrite generate_flat.
  rewrite (for_in_decided candidates (run_candidate fuel s T) 0 _ first_candidate).
  - now rewrite He.
  - rewrite He. discriminate.
  - intros j c' Hj. lia.
Qed.

Lemma crc32_bytes_reduced (l : list Z) :
  Forall (fun b => 0 <= b < 2 ^ 8) l -> reduced (crc32 l).
Proof.
  intros Hl. unfold crc32. apply lxor_below; [lia | | lia].
  apply crc32_update_reduced; [unfold reduced; lia|].
  eapply List.Forall_impl; [|exact Hl].
  intros b Hb. cbv beta in Hb. unfold reduced.
  assert (2 ^ 8 < 2 ^ 32) by (apply Z.pow_lt_mono_r; lia). lia.
Qed.

(** X9: How the search fails.  A skeleton with a character outside ascii
    ends the search with UnicodeEncodeError, and an ascii skeleton with a
    target that is not a 32-bit value ends it with AssertionError, both
    on the first candidate; in every other case the search raises
    nothing and returns a name or -1. *)
Theorem generateStrWithNewCRC_failures (fuel : nat) (s : list Z) (T : Z) :
  (33 <= fuel)%nat ->
  (~ Forall ascii_code s ->
   generateStrWithNewCRC fuel s T = Raise UnicodeEncodeError)
  /\ (Forall ascii_code s -> ~ reduced T ->
      generateStrWithNewCRC fuel s T
      = Raise (AssertionError "Failed to update CRC-32 to desired value"))
  /\ (Forall ascii_code s -> reduced T ->
      exists v, generateStrWithNewCRC fuel s T = Ok v).
Proof.
  intros Hf. split; [|split].
  - intros Hs. apply generate_first_raises.
    pose proof (run_candidate_spec fuel s T (48, 48, 48, 48) Hf) as H.
    cbv beta iota in H. rewrite H.
    destruct (forallb _ ((s ++ [48; 48; 48; 48]) ++ [48; 48; 48; 48])) eqn:E;
      [|reflexivity].
    exfalso. apply Hs. apply encode_ascii_forallb in E.
    apply Forall_app in E as [E _]. now apply Forall_app in E as [E _].
  - intros Hs HT. apply generate_first_raises.
    pose proof (run_candidate_spec fuel s T (48, 48, 48, 48) Hf) as H.
    cbv beta iota in H. rewrite H.
    assert (Hasc : Forall ascii_code ((s ++ [48; 48; 48; 48]) ++ [48; 48; 48; 48])).
    { apply Forall_app. split; [apply Forall_app; split; [exact Hs|]|];
        repeat (apply List.Forall_cons; [unfold ascii_code; lia|]);
        apply List.Forall_nil. }
    rewrite (proj2 (encode_ascii_forallb _) Hasc).
    destruct (crc32 _ =? T) eqn:E; [|reflexivity].
    exfalso. apply HT. apply Z.eqb_eq in E. rewrite <- E.
    apply crc32_bytes_reduced. apply Forall_app. split.
    + apply Forall_app in Hasc as [Hasc _].
      eapply List.Forall_impl; [|exact Hasc].
      intros b Hb. unfold ascii_code in Hb. lia.
    + unfold candidate_patch. cbv zeta.
      repeat (apply List.Forall_cons;
              [apply patched_byte_range; unfold ascii_code; lia|]).
      apply List.Forall_nil.
  - intros Hs HT. rewrite generate_flat.
    destruct (for_in_outcome candidates (run_candidate fuel s T))
      as [[Hnone _] | (i & c & Hi & Hc & Hfor & _)].
    + rewrite Hnone. eexists. reflexivity.
    + rewrite Hfor.
      rewrite (run_candidate_closed fuel s T c Hf Hs HT (lookup_In _ _ _ Hi)) in *.
      destruct (candidate_outcome_cases s T c) as [Hout | [v Hout]];
        [contradiction|].
      rewrite Hout. eexists. reflexivity.
Qed.

Lemma generateStrWithNewCRC_failures_witness :
  generateStrWithNewCRC 33 (str_of "0000012345.") (-1)
  = Raise (AssertionError "Failed to update CRC-32 to desired value").
Proof.
  destruct (generateStrWithNewCRC_failures 33 (str_of "0000012345.") (-1))
    as (_ & H & _); [lia|].
  apply H.
  - apply encode_ascii_forallb. reflexivity.
  - unfold reduced. lia.
Defined.

End ForcerLaws.

(* ===================================================================== *)
(** * The index that [getSoundscriptsFromFiles] returns *)
(* ===================================================================== *)

Module IndexLaws.

Import MainProps IndexProps.

Lemma encode_utf8_cases (s : list Z) :
  encodable s \/ encode_utf8 s = Raise UnicodeEncodeError.
Proof.
  induction s as [|c s IH]; [left; now exists []|].
  cbn [encode_utf8]. unfold encodable. cbn [encode_utf8].
  destruct (utf8_encode_char c) as [bs|]; [|now right].
  destruct IH as [[b Hb] | Hr].
  - left. rewrite Hb. eexists. reflexivity.
  - right. now rewrite Hr.
Qed.





Lemma hash_loop_raises (l : list (list Z)) :
  forall (m0 : gmap Z (list Z)) (w : world),
    ~ Forall encodable l ->
    forM l
      (fun soundscriptCandidates souncscript =>
         b ← lift (encode_utf8 souncscript);
         mret (<[crc32 b := souncscript]> soundscriptCandidates)) m0 w
    = (Raise UnicodeEncodeError, w).
Proof.
  induction l as [|s l IH]; intros m0 w Hl.
  - exfalso. apply Hl. constructor.
  - cbn [forM]. rewrite run_bind, run_bind. unfold lift at 1.
    destruct (encode_utf8_cases s) as [[b Hb] | Hr].
    + rewrite Hb. unfold mret at 1, M_ret at 1. apply IH.
      intros Hall. apply Hl. constructor; [now exists b | exact Hall].
    + now rewrite Hr.
Qed.

(** A name that has no utf-8 encoding (a lone surrogate) makes the
    whole index build fail with UnicodeEncodeError: no index is
    returned, not even for the names before it. *)
Lemma hash_names_unencodable (l : list (list Z)) (w : world) :
  ~ Forall encodable l ->
  hash_names l w = (Raise UnicodeEncodeError, w).
Proof. intros Hl. unfold hash_names. now apply hash_loop_raises. Qed.

(** ** [getSoundscriptsFromFiles] as a whole *)

Lemma quiet_mret {A} (x : A) : quiet (mret x) x.
Proof. intros w. exists w. repeat split. Qed.

Lemma quiet_print (s : list Z) : quiet (print s) tt.
Proof. intros w. eexists. split; [reflexivity|]. repeat split. Qed.

Lemma quiet_when (b : bool) (m : M unit) : quiet m tt -> quiet (when b m) tt.
Proof. intros H. destruct b; [exact H | apply quiet_mret]. Qed.

Lemma quiet_bind {A B} (m : M A) (k : A -> M B) (x : A) (y : B) :
  quiet m x -> quiet (k x) y -> quiet (m ≫= k) y.
Proof.
  intros Hm Hk w. destruct (Hm w) as (w1 & E1 & Hc1 & Hp1 & Hps1 & Hw1 & Hm1).
  destruct (Hk w1) as (w2 & E2 & Hc2 & Hp2 & Hps2 & Hw2 & Hm2).
  exists w2. rewrite (run_bind_Ok _ _ _ _ _ E1). split; [exact E2|].
  repeat split; congruence.
Qed.

Lemma files_loop_quiet (a : Args) (c : Collaborators) (files : list (list Z)) :
  forall acc,
    quiet
      (forM files
         (fun foundSoundscripts fileEntry =>
            when (1 <=? verbose a)
              (print (str_of (String "009" "Reading ") ++ fileEntry));;
            let names := names_in_file c fileEntry in
            when (1 <=? verbose a)
              (print (str_of (String "009" (String "009" "Found "))
                      ++ str_int (Z.of_nat (length names))
                      ++ str_of " soundscapes in file"));;
            mret (foundSoundscripts ++ names))
         acc)
      (acc ++ concat (map (names_in_file c) files)).
Proof.
  induction files as [|f files IH]; intros acc.
  - cbn [forM map concat]. rewrite app_nil_r. apply quiet_mret.
  - cbn [forM map concat]. rewrite (app_assoc acc (names_in_file c f)).
    apply (quiet_bind _ _ (acc ++ names_in_file c f)); [|exact (IH (acc ++ names_in_file c f))].
    apply (quiet_bind _ _ tt); [apply quiet_when, quiet_print|].
    cbv zeta.
    apply (quiet_bind _ _ tt); [apply quiet_when, quiet_print|].
    apply quiet_mret.
Qed.

Lemma collect_quiet (a : Args) (c : Collaborators) :
  quiet
    (let gameSoundsFiles :=
       (if sound_dir_set a then manifest_files c else []) ++ sound_script a in
     let foundSoundscripts := concat (sound_list a) ++ sound_name a in
     if 0 <? Z.of_nat (length gameSoundsFiles) then
       print (str_of "Extracting soundscript names...");;
       foundSoundscripts ←
         forM gameSoundsFiles
           (fun foundSoundscripts fileEntry =>
              when (1 <=? verbose a)
                (print (str_of (String "009" "Reading ") ++ fileEntry));;
              let names := names_in_file c fileEntry in
              when (1 <=? verbose a)
                (print (str_of (String "009" (String "009" "Found "))
                        ++ str_int (Z.of_nat (length names))
                        ++ str_of " soundscapes in file"));;
              mret (foundSoundscripts ++ names))
           foundSoundscripts;
       print (str_of "Found a total of "
              ++ str_int (Z.of_nat (length foundSoundscripts))
              ++ str_of " soundscripts, "
              ++ str_int (Z.of_nat (length (set_list c foundSoundscripts)))
              ++ str_of " unique");;
       mret (set_list c foundSoundscripts)
     else
       print (str_of "Checking "
              ++ str_int (Z.of_nat (length foundSoundscripts))
              ++ str_of " soundscript names");;
       mret foundSoundscripts)
    (found_names a c).
Proof.
  cbv zeta. unfold found_names. cbv zeta.
  set (files := (if sound_dir_set a then manifest_files c else []) ++ sound_script a).
  set (given := concat (sound_list a) ++ sound_name a).
  destruct (0 <? Z.of_nat (length files)).
  - apply (quiet_bind _ _ tt); [apply quiet_print|].
    apply (quiet_bind _ _ (given ++ concat (map (names_in_file c) files)));
      [exact (files_loop_quiet a c files given)|].
    apply (quiet_bind _ _ tt); [apply quiet_print | apply quiet_mret].
  - apply (quiet_bind _ _ tt); [apply quiet_print | apply quiet_mret].
Qed.

Lemma getSoundscripts_run (a : Args) (c : Collaborators) (w : world) :
  any_source a = true ->
  exists w1,
    getSoundscriptsFromFiles a c w = hash_names (found_names a c) w1
    /\ content w1 = content w /\ pos w1 = pos w
    /\ positions w1 = positions w /\ written w1 = written w
    /\ seek_max w1 = seek_max w.
Proof.
  intros Hany. unfold getSoundscriptsFromFiles. unfold any_source in Hany.
  rewrite Hany. cbv zeta.
  destruct (collect_quiet a c w) as (w0 & E & Hw). cbv zeta in E.
  rewrite (run_bind_Ok _ _ _ _ _ E). rewrite run_bind.
  cbn [print print_noend]. eexists. split; [reflexivity|]. exact Hw.
Qed.



(** X11: A name found that has no utf-8 encoding (a lone surrogate) makes
    [getSoundscriptsFromFiles] fail with UnicodeEncodeError: no index is
    returned, not even for the names before it. *)
Theorem getSoundscriptsFromFiles_unencodable (a : Args) (c : Collaborators)
    (w : world) :
  any_source a = true ->
  ~ Forall encodable (found_names a c) ->
  fst (getSoundscriptsFromFiles a c w) = Raise UnicodeEncodeError.
Proof.
  intros Hany Henc.
  destruct (getSoundscripts_run a c w Hany) as (w1 & E & _).
  rewrite E, (hash_names_unencodable _ w1 Henc). reflexivity.
Qed.

Lemma getSoundscriptsFromFiles_unencodable_witness :
  fst (getSoundscriptsFromFiles
         {| sound_dir := None; sound_script := [];
            sound_name := [str_of "plumless"; [0xD800]];
            sound_list := []; same_hashes := false; padding := 4;
            no_align := false; tabs := false; verbose := 0 |}
         no_files (opened []))
  = Raise UnicodeEncodeError.
Proof.
  apply getSoundscriptsFromFiles_unencodable; [reflexivity|].
  intros H. inversion H as [|? ? _ H2]; subst.
  inversion H2 as [|? ? [b Hb] _]; subst. discriminate.
Defined.

(** With no candidate source the index is empty. *)
Lemma getSoundscripts_none (a : Args) (c : Collaborators) (w : world) :
  any_source a = false ->
  fst (getSoundscriptsFromFiles a c w) = Ok ∅.
Proof.
  intros Hany. unfold getSoundscriptsFromFiles. unfold any_source in Hany.
  rewrite Hany. reflexivity.
Qed.

End IndexLaws.

(* ===================================================================== *)
(** * Reading the directory *)
(* ===================================================================== *)

Module DirectoryProps.

Import Bits MainProps IndexProps ReaderProps.

#[local] Arguments Z.shiftl : simpl never.
#[local] Arguments Z.shiftr : simpl never.
#[local] Arguments Z.lor : simpl never.
#[local] Arguments Z.land : simpl never.
#[local] Arguments Z.pow : simpl never.
#[local] Arguments Z.mul : simpl never.

(** ** Little-endian fields *)

Lemma split_low_byte (n : Z) :
  Z.lor (Z.land n 0xFF) (Z.shiftl (Z.shiftr n 8) 8) = n.
Proof.
  apply Z.bits_inj'. intros j Hj.
  rewrite Z.lor_spec. change 0xFF with (Z.ones 8).
  destruct (Z.lt_ge_cases j 8) as [Hlt | Hge].
  - rewrite Z.land_spec, Z.ones_spec_low by lia.
    rewrite Z.shiftl_spec_low by lia.
    now rewrite andb_true_r, orb_false_r.
  - rewrite Z.land_spec, Z.ones_spec_high by lia.
    rewrite Z.shiftl_spec by lia. rewrite Z.shiftr_spec by lia.
    rewrite andb_false_r. cbn [orb]. f_equal. lia.
Qed.

Lemma land_small (n : Z) : 0 <= n < 256 -> Z.land n 0xFF = n.
Proof.
  intros Hn. change 0xFF with (Z.ones 8). rewrite Z.land_ones by lia.
  apply Z.mod_small. exact Hn.
Qed.

Lemma shiftr_range (n k m : Z) :
  0 <= k -> 0 <= m -> 0 <= n < 2 ^ (k + m) -> 0 <= Z.shiftr n k < 2 ^ m.
Proof.
  intros Hk Hm Hn. rewrite Z.shiftr_div_pow2 by lia.
  rewrite Z.pow_add_r in Hn by lia.
  assert (0 < 2 ^ k) by (apply Z.pow_pos_nonneg; lia).
  split; [apply Z.div_pos; lia | apply Z.div_lt_upper_bound; lia].
Qed.

Lemma int_from_u16 (n : Z) :
  0 <= n < 2 ^ 16 -> int_from_bytes_little (u16 n) = n.
Proof.
  intros Hn. unfold u16. cbn [int_from_bytes_little].
  change (Z.shiftl 0 8) with 0. rewrite Z.lor_0_r.
  rewrite (land_small (Z.shiftr n 8)).
  - apply split_low_byte.
  - change 256 with (2 ^ 8). apply shiftr_range; [lia | lia | exact Hn].
Qed.

Lemma int_from_u32 (n : Z) :
  0 <= n < 2 ^ 32 -> int_from_bytes_little (u32 n) = n.
Proof.
  intros Hn. unfold u32. cbn [int_from_bytes_little].
  change (Z.shiftl 0 8) with 0. rewrite Z.lor_0_r.
  rewrite (land_small (Z.shiftr n 24)).
  2:{ change 256 with (2 ^ 8). apply shiftr_range; [lia | lia | exact Hn]. }
  replace (Z.shiftr n 24) with (Z.shiftr (Z.shiftr n 16) 8)
    by (rewrite Z.shiftr_shiftr by lia; reflexivity).
  rewrite split_low_byte.
  replace (Z.shiftr n 16) with (Z.shiftr (Z.shiftr n 8) 8)
    by (rewrite Z.shiftr_shiftr by lia; reflexivity).
  rewrite split_low_byte. apply split_low_byte.
Qed.

Lemma int_from_bytes_range (b : list Z) :
  Forall byte b ->
  0 <= int_from_bytes_little b < 2 ^ (8 * Z.of_nat (length b)).
Proof.
  intros Hb. induction Hb as [|x b Hx Hb IH].
  - cbn [int_from_bytes_little length]. change (2 ^ (8 * Z.of_nat 0)) with 1. lia.
  - cbn [int_from_bytes_little length].
    replace (8 * Z.of_nat (S (length b))) with (8 * Z.of_nat (length b) + 8) by lia.
    assert (Hs : 0 <= Z.shiftl (int_from_bytes_little b) 8
                 < 2 ^ (8 * Z.of_nat (length b) + 8)).
    { rewrite Z.shiftl_mul_pow2 by lia. rewrite Z.pow_add_r by lia.
      assert (0 < 2 ^ 8) by (apply Z.pow_pos_nonneg; lia). nia. }
    assert (Hx' : 0 <= x < 2 ^ (8 * Z.of_nat (length b) + 8)).
    { unfold byte in Hx. split; [lia|].
      apply Z.lt_le_trans with (2 ^ 8); [change (2 ^ 8) with 256; lia|].
      apply Z.pow_le_mono_r; lia. }
    split; [apply Z.lor_nonneg; lia|].
    apply bits_below_pow2; [lia | apply Z.lor_nonneg; lia |].
    intros j Hj. rewrite Z.lor_spec.
    rewrite (below_pow2_bits x (8 * Z.of_nat (length b) + 8) ltac:(lia) Hx' j Hj).
    now rewrite (below_pow2_bits _ (8 * Z.of_nat (length b) + 8) ltac:(lia) Hs j Hj).
Qed.

(** ** Reading from the stream *)

Lemma read_exact (n : Z) (bs tl : list Z) (w : world) :
  0 <= pos w -> n = Z.of_nat (length bs) -> avail w = bs ++ tl ->
  read n w = (Ok bs, move w (pos w + n))
  /\ avail (move w (pos w + n)) = tl.
Proof.
  intros Hpos -> Hav. unfold read. fold (avail w). rewrite Hav.
  rewrite Nat2Z.id, take_app_length. split; [reflexivity|].
  unfold avail in *. cbn [move pos content].
  replace (Z.to_nat (pos w + Z.of_nat (length bs)))
    with (Z.to_nat (pos w) + length bs)%nat by lia.
  rewrite <- drop_drop, Hav. now rewrite drop_app_length.
Qed.

Lemma read_bytes (n : Z) (w : world) :
  Forall byte (content w) ->
  exists b, read n w = (Ok b, move w (pos w + Z.of_nat (length b)))
            /\ Forall byte b /\ Z.of_nat (length b) <= Z.max n 0.
Proof.
  intros Hc. unfold read. eexists. split; [reflexivity|]. split.
  - apply Forall_take, Forall_drop, Hc.
  - rewrite length_take. lia.
Qed.

(** ** [getDirEntries] *)

Lemma entry_bytes_length (e : entry) : length (entry_bytes_of e) = 12%nat.
Proof. reflexivity. Qed.

Lemma dir_loop_roundtrip (es : list entry) :
  forall (i : nat) (acc : list entry) (tl : list Z) (w : world),
    0 <= pos w -> Forall entry_ok es ->
    avail w = flat_map entry_bytes_of es ++ tl ->
    exists w',
      forM (seq i (length es))
        (fun entries _ =>
           HASH ← read 4;
           BLOCK_INDEX ← read 4;
           OFFSET ← read 2;
           LENGTH ← read 2;
           mret (entries ++ [{| hash := int_from_bytes_little HASH;
                                index := int_from_bytes_little BLOCK_INDEX;
                                offset := int_from_bytes_little OFFSET;
                                length_ := int_from_bytes_little LENGTH |}]))
        acc w
      = (Ok (acc ++ es), w')
      /\ pos w' = pos w + 12 * Z.of_nat (length es)
      /\ avail w' = tl
      /\ same_but_pos w w'.
Proof.
  induction es as [|e es IH]; intros i acc tl w Hpos Hok Hav.
  - exists w. cbn [length seq forM]. rewrite app_nil_r.
    split; [reflexivity|]. split; [simpl; lia|]. split; [exact Hav|].
    repeat split.
  - inversion Hok as [|? ? (Hh & Hi & Ho & Hl) Hok']; subst.
    cbn [length seq forM]. cbn [flat_map] in Hav.
    unfold entry_bytes_of at 1 in Hav. rewrite <- !app_assoc in Hav.
    destruct (read_exact 4 (u32 (hash e)) _ w Hpos eq_refl Hav) as [R1 A1].
    set (w1 := move w (pos w + 4)) in *.
    destruct (read_exact 4 (u32 (index e)) _ w1 ltac:(simpl; lia) eq_refl A1)
      as [R2 A2].
    set (w2 := move w1 (pos w1 + 4)) in *.
    destruct (read_exact 2 (u16 (offset e)) _ w2 ltac:(simpl; lia) eq_refl A2)
      as [R3 A3].
    set (w3 := move w2 (pos w2 + 2)) in *.
    destruct (read_exact 2 (u16 (length_ e)) _ w3 ltac:(simpl; lia) eq_refl A3)
      as [R4 A4].
    set (w4 := move w3 (pos w3 + 2)) in *.
    rewrite run_bind.
    rewrite (run_bind_Ok _ _ _ _ _ R1), (run_bind_Ok _ _ _ _ _ R2),
      (run_bind_Ok _ _ _ _ _ R3), (run_bind_Ok _ _ _ _ _ R4).
    unfold mret at 1, M_ret at 1.
    rewrite !int_from_u32, !int_from_u16 by assumption.
    destruct (IH (S i) (acc ++ [e]) tl w4 ltac:(simpl; lia) Hok' A4)
      as (w' & Hrun & Hp & Ha & Hs).
    exists w'. replace {| hash := hash e; index := index e; offset := offset e;
                          length_ := length_ e |} with e by (now destruct e).
    rewrite Hrun, <- app_assoc. split; [reflexivity|].
    split; [rewrite Hp; simpl; lia|]. split; [exact Ha|].
    destruct Hs as (H1 & H2 & H3 & H4).
    repeat split; assumption.
Qed.

Lemma getDirEntries_reads (es : list entry) (pre post : list Z) (w : world) :
  Forall entry_ok es ->
  content w = pre ++ flat_map entry_bytes_of es ++ post ->
  exists w',
    getDirEntries (Z.of_nat (length pre)) (Z.of_nat (length es)) w = (Ok es, w')
    /\ pos w' = Z.of_nat (length pre) + 12 * Z.of_nat (length es)
    /\ avail w' = post
    /\ content w' = content w /\ written w' = written w
    /\ stdout w' = stdout w ++ [str_of "Retrieving captions..." ++ [10]]
    /\ seek_max w' = seek_max w.
Proof.
  intros Hok Hc. unfold getDirEntries. rewrite run_bind.
  cbn [print print_noend]. rewrite run_bind.
  rewrite seek_inside by (cbn [content]; rewrite Hc, length_app; lia).
  set (w1 := move _ _). unfold range. rewrite Nat2Z.id.
  destruct (dir_loop_roundtrip es 0 [] post w1) as (w' & Hrun & Hp & Ha & Hs).
  - simpl. lia.
  - exact Hok.
  - unfold avail. subst w1. cbn [move pos content]. rewrite Hc, Nat2Z.id.
    now rewrite drop_app_length.
  - exists w'. rewrite Hrun. split; [reflexivity|].
    split; [rewrite Hp; reflexivity|]. split; [exact Ha|].
    destruct Hs as (H1 & H2 & H3 & H4). rewrite H1, H2, H3, H4. repeat split.
Qed.

(** X12: Reading back a directory.  When the stream holds, from byte
    [HEADER_SIZE] on, the 12-byte records of the entries [es] (fields
    little-endian, each within its width), [getDirEntries] returns
    exactly [es] and leaves the stream just behind the directory. *)
Theorem getDirEntries_roundtrip (es : list entry) (pre post : list Z) (w : world) :
  Forall entry_ok es ->
  content w = pre ++ flat_map entry_bytes_of es ++ post ->
  exists w',
    getDirEntries (Z.of_nat (length pre)) (Z.of_nat (length es)) w = (Ok es, w')
    /\ pos w' = Z.of_nat (length pre) + 12 * Z.of_nat (length es)
    /\ avail w' = post
    /\ content w' = content w /\ written w' = written w.
Proof.
  intros Hok Hc.
  destruct (getDirEntries_reads es pre post w Hok Hc)
    as (w' & Hrun & Hp & Ha & Hct & Hw & _ & _).
  exists w'. repeat split; assumption.
Qed.

Lemma getDirEntries_roundtrip_witness :
  exists w',
    getDirEntries (Z.of_nat (length (header_bytes 2 8 2 48)))
      (Z.of_nat (length overfull_entries)) (opened overfull_archive)
    = (Ok overfull_entries, w')
    /\ pos w' = Z.of_nat (length (header_bytes 2 8 2 48))
                + 12 * Z.of_nat (length overfull_entries)
    /\ avail w' = encode_utf16le (str_of "Hello" ++ [0])
                  ++ encode_utf16le (str_of "Hi" ++ [0])
    /\ content w' = content (opened overfull_archive)
    /\ written w' = written (opened overfull_archive).
Proof.
  apply getDirEntries_roundtrip.
  - repeat (apply List.Forall_cons; [unfold entry_ok; cbn; lia|]).
    apply List.Forall_nil.
  - reflexivity.
Defined.

Lemma dir_loop_total (l : list nat) :
  forall (acc : list entry) (w : world),
    Forall byte (content w) -> Forall entry_ok acc ->
    exists es w',
      forM l
        (fun entries _ =>
           HASH ← read 4;
           BLOCK_INDEX ← read 4;
           OFFSET ← read 2;
           LENGTH ← read 2;
           mret (entries ++ [{| hash := int_from_bytes_little HASH;
                                index := int_from_bytes_little BLOCK_INDEX;
                                offset := int_from_bytes_little OFFSET;
                                length_ := int_from_bytes_little LENGTH |}]))
        acc w
      = (Ok es, w')
      /\ length es = (length acc + length l)%nat
      /\ Forall entry_ok es
      /\ same_but_pos w w'.
Proof.
  induction l as [|x l IH]; intros acc w Hc Hacc.
  - exists acc, w. cbn [forM length]. split; [reflexivity|].
    split; [lia|]. split; [exact Hacc|]. repeat split.
  - cbn [forM length].
    destruct (read_bytes 4 w Hc) as (b1 & R1 & B1 & L1).
    set (w1 := move w _) in *.
    destruct (read_bytes 4 w1 Hc) as (b2 & R2 & B2 & L2).
    set (w2 := move w1 _) in *.
    destruct (read_bytes 2 w2 Hc) as (b3 & R3 & B3 & L3).
    set (w3 := move w2 _) in *.
    destruct (read_bytes 2 w3 Hc) as (b4 & R4 & B4 & L4).
    set (w4 := move w3 _) in *.
    rewrite run_bind.
    rewrite (run_bind_Ok _ _ _ _ _ R1), (run_bind_Ok _ _ _ _ _ R2),
      (run_bind_Ok _ _ _ _ _ R3), (run_bind_Ok _ _ _ _ _ R4).
    unfold mret at 1, M_ret at 1.
    assert (Hpow : forall k b, Forall byte b -> Z.of_nat (length b) <= k ->
                     0 <= int_from_bytes_little b < 2 ^ (8 * k)).
    { intros k b Hb Hk. pose proof (int_from_bytes_range b Hb) as Hr.
      split; [lia|]. eapply Z.lt_le_trans; [apply Hr|].
      apply Z.pow_le_mono_r; lia. }
    destruct (IH (acc ++ [{| hash := int_from_bytes_little b1;
                             index := int_from_bytes_little b2;
                             offset := int_from_bytes_little b3;
                             length_ := int_from_bytes_little b4 |}]) w4 Hc)
      as (es & w' & Hrun & Hlen & Hok & Hs).
    { apply Forall_app. split; [exact Hacc|].
      apply List.Forall_cons; [|apply List.Forall_nil].
      unfold entry_ok. cbn [hash index offset length_].
      pose proof (Hpow 4 b1 B1 ltac:(lia)). pose proof (Hpow 4 b2 B2 ltac:(lia)).
      pose proof (Hpow 2 b3 B3 ltac:(lia)). pose proof (Hpow 2 b4 B4 ltac:(lia)).
      change (8 * 4) with 32 in *. change (8 * 2) with 16 in *. lia. }
    exists es, w'. rewrite Hrun. split; [reflexivity|].
    split; [rewrite Hlen, length_app; simpl; lia|]. split; [exact Hok|].
    destruct Hs as (H1 & H2 & H3 & H4).
    repeat split; assumption.
Qed.

Lemma getDirEntries_run (HEADER_SIZE DIRECTORY_SIZE : Z) (w : world) :
  0 <= HEADER_SIZE <= seek_limit w -> Forall byte (content w) ->
  exists es w',
    getDirEntries HEADER_SIZE DIRECTORY_SIZE w = (Ok es, w')
    /\ length es = Z.to_nat DIRECTORY_SIZE
    /\ Forall entry_ok es
    /\ content w' = content w /\ written w' = written w
    /\ seek_max w' = seek_max w.
Proof.
  intros HH Hc. unfold getDirEntries. rewrite run_bind.
  cbn [print print_noend]. rewrite run_bind.
  rewrite seek_ok by exact HH.
  set (w1 := move _ _).
  destruct (dir_loop_total (range DIRECTORY_SIZE) [] w1 Hc (List.Forall_nil _))
    as (es & w' & Hrun & Hlen & Hok & Hs).
  exists es, w'. rewrite Hrun. split; [reflexivity|].
  split; [rewrite Hlen; unfold range; rewrite length_seq; reflexivity|].
  split; [exact Hok|]. destruct Hs as (H1 & H2 & H3 & H4). rewrite H1, H3, H4.
  repeat split.
Qed.

(** X13: [getDirEntries] on a stream of bytes, however short.  When the
    directory offset is one the file system accepts, it does not fail:
    it returns exactly [DIRECTORY_SIZE] entries (none for a negative
    size), each with a hash and a block index below 2^32 and an offset
    and a length below 2^16 (the fields of a record cut off by the end
    of the stream are read from the bytes that are there, as 0 when
    there are none).  When the offset is negative or beyond the limit of
    the file system, the seek is refused with OSError (ValueError from
    2^63 on) and nothing is read. *)
Theorem getDirEntries_total (HEADER_SIZE DIRECTORY_SIZE : Z) (w : world) :
  Forall byte (content w) ->
  (0 <= HEADER_SIZE <= seek_limit w ->
   exists es w',
     getDirEntries HEADER_SIZE DIRECTORY_SIZE w = (Ok es, w')
     /\ length es = Z.to_nat DIRECTORY_SIZE
     /\ Forall entry_ok es
     /\ content w' = content w /\ written w' = written w)
  /\ (HEADER_SIZE < 0 \/ seek_limit w < HEADER_SIZE ->
      exists e w',
        getDirEntries HEADER_SIZE DIRECTORY_SIZE w = (Raise e, w')
        /\ (e = OSError
            \/ e = ValueError "cannot fit 'int' into an offset-sized integer")
        /\ pos w' = pos w /\ positions w' = positions w).
Proof.
  intros Hc. split.
  - intros HH.
    destruct (getDirEntries_run HEADER_SIZE DIRECTORY_SIZE w HH Hc)
      as (es & w' & H1 & H2 & H3 & H4 & H5 & _).
    exists es, w'. repeat split; assumption.
  - intros HH. unfold getDirEntries. rewrite run_bind.
    cbn [print print_noend]. rewrite run_bind.
    match goal with
    | |- context [seek HEADER_SIZE ?w0] =>
        destruct (seek_outcome HEADER_SIZE w0) as [[Hin _] | [_ (e & -> & He)]]
    end.
    + exfalso. unfold seek_limit in *. cbn [content seek_max] in Hin. lia.
    + do 2 eexists. split; [reflexivity|]. split; [exact He|].
      split; reflexivity.
Qed.

Lemma getDirEntries_total_witness :
  (0 <= 24 <= seek_limit (opened truncated_archive) ->
   exists es w',
     getDirEntries 24 3 (opened truncated_archive) = (Ok es, w')
     /\ length es = Z.to_nat 3
     /\ Forall entry_ok es
     /\ content w' = content (opened truncated_archive)
     /\ written w' = written (opened truncated_archive))
  /\ (24 < 0 \/ seek_limit (opened truncated_archive) < 24 ->
      exists e w',
        getDirEntries 24 3 (opened truncated_archive) = (Raise e, w')
        /\ (e = OSError
            \/ e = ValueError "cannot fit 'int' into an offset-sized integer")
        /\ pos w' = pos (opened truncated_archive)
        /\ positions w' = positions (opened truncated_archive)).
Proof.
  apply getDirEntries_total.
  apply List.Forall_forall. intros b Hb.
  assert (H : forallb (fun b => (0 <=? b) && (b <? 256)) truncated_archive = true)
    by (vm_compute; reflexivity).
  rewrite forallb_forall in H. specialize (H b Hb).
  apply andb_true_iff in H as [H1 H2].
  apply Z.leb_le in H1. apply Z.ltb_lt in H2. unfold byte. lia.
Defined.

End DirectoryProps.

(* ===================================================================== *)
(** * Reading the caption blocks *)
(* ===================================================================== *)

Module ReaderLaws.

Import Bits MainProps IndexProps ReaderProps ForcerProps DirectoryProps.

(** ** Computations that leave the console alone *)

Lemma keeps_console_mret {A} (x : A) : keeps_console (mret x : M A).
Proof. intros w. repeat split. Qed.

Lemma keeps_console_lift {A} (r : result A) : keeps_console (lift r).
Proof. intros w. repeat split. Qed.

Lemma keeps_console_read (n : Z) : keeps_console (read n).
Proof. intros w. repeat split. Qed.

Lemma keeps_console_seek (p : Z) : keeps_console (seek p).
Proof.
  intros w. destruct (seek_cases p w) as [-> | [e ->]]; repeat split.
Qed.

Lemma keeps_console_bind {A B} (m : M A) (k : A -> M B) :
  keeps_console m -> (forall x, keeps_console (k x)) -> keeps_console (m ≫= k).
Proof.
  intros Hm Hk w. rewrite run_bind. specialize (Hm w).
  destruct (m w) as [[x| |] w1]; cbn [snd] in *; try exact Hm.
  destruct (Hk x w1) as (H1 & H2 & H3 & H4).
  destruct Hm as (G1 & G2 & G3 & G4).
  repeat split; congruence.
Qed.

Lemma keeps_console_when (b : bool) (m : M unit) :
  keeps_console m -> keeps_console (when b m).
Proof. intros H. destruct b; [exact H | apply keeps_console_mret]. Qed.

Lemma keeps_console_forM {A S} (body : S -> A -> M S) (l : list A) :
  (forall s x, keeps_console (body s x)) ->
  forall s, keeps_console (forM l body s).
Proof.
  intros Hb. induction l as [|x l IH]; intros s; cbn [forM].
  - apply keeps_console_mret.
  - apply keeps_console_bind; [apply Hb | apply IH].
Qed.

Lemma keeps_console_read_caption (e : entry) : keeps_console (read_caption e).
Proof.
  unfold read_caption. apply keeps_console_bind.
  - apply keeps_console_forM. intros cap i. unfold caption_step.
    apply keeps_console_bind; [apply keeps_console_read|]. intros b.
    apply keeps_console_bind; [apply keeps_console_lift|]. intros c.
    apply keeps_console_mret.
  - intros cap. apply keeps_console_bind; [apply keeps_console_read|].
    intros _. apply keeps_console_mret.
Qed.

(** A successful loop keeps what every successful round keeps. *)
Lemma forM_invariant {A S} (I : S -> world -> Prop) (body : S -> A -> M S)
    (l : list A) :
  (forall s x w s1 w1, In x l -> I s w -> body s x w = (Ok s1, w1) -> I s1 w1) ->
  forall s w s' w',
    I s w -> forM l body s w = (Ok s', w') -> I s' w'.
Proof.
  induction l as [|x l IH]; intros Hb s w s' w' HI Hrun; cbn [forM] in Hrun.
  - inversion Hrun; subst. exact HI.
  - rewrite run_bind in Hrun.
    destruct (body s x w) as [[s1| |] w1] eqn:E; try discriminate.
    apply (IH (fun s x w s1 w1 Hin => Hb s x w s1 w1 (or_intror Hin)) s1 w1).
    + apply (Hb s x w s1 w1); [now left | exact HI | exact E].
    + exact Hrun.
Qed.

(** ** Reading one caption *)

Lemma caption_loop_exact (c : list Z) :
  forall (i : nat) (cap tl : list Z) (w : world),
    0 <= pos w -> Forall bmp_unit c ->
    avail w = encode_utf16le c ++ tl ->
    exists w',
      forM (seq i (length c)) caption_step cap w = (Ok (cap ++ c), w')
      /\ pos w' = pos w + 2 * Z.of_nat (length c)
      /\ avail w' = tl /\ same_but_pos w w'.
Proof.
  induction c as [|u c IH]; intros i cap tl w Hpos Hbmp Hav.
  - exists w. cbn [length seq forM]. rewrite app_nil_r.
    split; [reflexivity|]. split; [simpl; lia|]. split; [exact Hav|].
    repeat split.
  - inversion Hbmp as [|? ? Hu Hbmp']; subst.
    cbn [length seq forM]. cbn [encode_utf16le flat_map] in Hav.
    rewrite <- app_assoc in Hav.
    destruct (caption_step_unit cap i w u _ Hpos Hu Hav) as [Hstep Hav'].
    rewrite (run_bind_Ok _ _ _ _ _ Hstep).
    destruct (IH (S i) (cap ++ [u]) tl (move w (pos w + 2)))
      as (w' & Hrun & Hp & Ha & Hs);
      [simpl; lia | exact Hbmp' | exact Hav' |].
    exists w'. rewrite Hrun, <- app_assoc.
    split; [reflexivity|]. split; [rewrite Hp; simpl; lia|].
    split; [exact Ha|]. destruct Hs as (H1 & H2 & H3 & H4).
    repeat split; assumption.
Qed.

Lemma read_caption_exact (e : entry) (c tl : list Z) (t1 t2 : Z) (w : world) :
  0 <= pos w -> Forall bmp_unit c ->
  length_ e = 2 * (Z.of_nat (length c) + 1) ->
  avail w = encode_utf16le c ++ [t1; t2] ++ tl ->
  exists w',
    read_caption e w = (Ok c, w')
    /\ pos w' = pos w + length_ e
    /\ avail w' = tl /\ same_but_pos w w'.
Proof.
  intros Hpos Hbmp Hlen Hav. unfold read_caption, range.
  assert (Hq : Z.to_nat (Z.quot (length_ e) 2 - 1) = length c).
  { rewrite Hlen, Z.mul_comm, Z.quot_mul by lia. lia. }
  rewrite Hq.
  destruct (caption_loop_exact c 0 [] _ w Hpos Hbmp Hav)
    as (w1 & Hrun & Hp & Ha & Hs).
  rewrite (run_bind_Ok _ _ _ _ _ Hrun). cbn [app].
  destruct (read_exact 2 [t1; t2] tl w1 ltac:(lia) eq_refl Ha) as [R A].
  rewrite (run_bind_Ok _ _ _ _ _ R).
  eexists. split; [reflexivity|]. split; [cbn [move pos]; lia|].
  split; [exact A|]. destruct Hs as (H1 & H2 & H3 & H4).
    repeat split; assumption.
Qed.

(** X14: Reading back one caption.  When the stream holds, at the current
    position, the utf-16-le code units of a caption of
    [int(length / 2) - 1] characters and two more bytes, [read_caption]
    returns the caption and leaves the stream behind those two bytes,
    which it does not look at.  A length that is odd counts as the even
    number below it, and a length below 4 gives the empty caption and
    still takes two bytes.  (The length is below 2^53, where the float
    quotient [length / 2] is exact.) *)
Theorem read_caption_roundtrip (e : entry) (c tl : list Z) (t1 t2 : Z) (w : world) :
  0 <= pos w -> length_ e < 2 ^ 53 -> Forall bmp_unit c ->
  Z.of_nat (length c) = Z.max (Z.quot (length_ e) 2 - 1) 0 ->
  avail w = encode_utf16le c ++ [t1; t2] ++ tl ->
  exists w',
    read_caption e w = (Ok c, w')
    /\ pos w' = pos w + 2 * (Z.of_nat (length c) + 1)
    /\ avail w' = tl /\ same_but_pos w w'.
Proof.
  intros Hpos _ Hbmp Hlen Hav. unfold read_caption, range.
  assert (Hq : Z.to_nat (Z.quot (length_ e) 2 - 1) = length c) by lia.
  rewrite Hq.
  destruct (caption_loop_exact c 0 [] _ w Hpos Hbmp Hav)
    as (w1 & Hrun & Hp & Ha & Hs).
  rewrite (run_bind_Ok _ _ _ _ _ Hrun). cbn [app].
  destruct (read_exact 2 [t1; t2] tl w1 ltac:(lia) eq_refl Ha) as [R A].
  rewrite (run_bind_Ok _ _ _ _ _ R).
  eexists. split; [reflexivity|]. split; [cbn [move pos]; lia|].
  split; [exact A|]. destruct Hs as (H1 & H2 & H3 & H4).
    repeat split; assumption.
Qed.

Lemma read_caption_roundtrip_witness :
  exists w',
    read_caption {| hash := 12345; index := 0; offset := 0; length_ := 7 |}
      (opened (encode_utf16le [72; 105] ++ [0; 0] ++ [1; 2; 3]))
    = (Ok [72; 105], w')
    /\ pos w' = pos (opened (encode_utf16le [72; 105] ++ [0; 0] ++ [1; 2; 3]))
                + 2 * (Z.of_nat (length [72; 105]) + 1)
    /\ avail w' = [1; 2; 3]
    /\ same_but_pos (opened (encode_utf16le [72; 105] ++ [0; 0] ++ [1; 2; 3])) w'.
Proof.
  apply (read_caption_roundtrip _ [72; 105] [1; 2; 3] 0 0).
  - simpl. lia.
  - simpl. lia.
  - repeat (apply List.Forall_cons; [unfold bmp_unit; lia|]).
    apply List.Forall_nil.
  - reflexivity.
  - reflexivity.
Defined.

(** ** Naming an entry *)

Lemma size_zero_lookup (idx : gmap Z (list Z)) (h : Z) :
  (0 <? Z.of_nat (size idx)) = false -> idx !! h = None.
Proof.
  intros H. apply Z.ltb_ge in H.
  assert (E : size idx = 0%nat) by lia.
  apply map_size_empty_iff in E. subst idx. apply lookup_empty.
Qed.

Lemma resolve_name_plain (fuel : nat) (a : Args) (idx : gmap Z (list Z))
    (e : entry) (line m : Z) (w : world) :
  same_hashes a = false ->
  exists m' w',
    resolve_name fuel a idx (0 <? Z.of_nat (size idx)) e line m w
    = (Ok (PStr (name_of idx e), m'), w')
    /\ content w' = content w /\ pos w' = pos w /\ written w' = written w.
Proof.
  intros Hsh. unfold resolve_name, name_of.
  destruct (0 <? Z.of_nat (size idx)) eqn:E.
  - destruct (idx !! hash e) as [name|].
    + do 2 eexists. split; [reflexivity|]. repeat split.
    + rewrite Hsh. destruct (1 <=? verbose a);
        do 2 eexists; (split; [reflexivity|]); repeat split.
  - rewrite (size_zero_lookup idx (hash e) E).
    do 2 eexists. split; [reflexivity|]. repeat split.
Qed.

(** ** The loop over a well-formed directory *)

Section WellFormed.

Variables (fuel : nat) (a : Args) (idx : gmap Z (list Z)).
Variables (DATA_OFFSET BLOCK_SIZE : Z) (ct : list Z).
Hypothesis Hsh : same_hashes a = false.
Hypothesis HDO : 0 <= DATA_OFFSET.
Hypothesis HBS : 0 <= BLOCK_SIZE.

Lemma stored_inside (e : entry) (c : list Z) :
  0 <= DATA_OFFSET + BLOCK_SIZE * index e + offset e ->
  stored ct DATA_OFFSET BLOCK_SIZE e c ->
  DATA_OFFSET + BLOCK_SIZE * index e + offset e < Z.of_nat (length ct).
Proof.
  intros H0 (_ & _ & t1 & t2 & rest & Hdrop).
  destruct (Z.lt_ge_cases (DATA_OFFSET + BLOCK_SIZE * index e + offset e)
              (Z.of_nat (length ct))) as [H | H]; [exact H|].
  exfalso. rewrite drop_ge in Hdrop by lia.
  destruct c; discriminate.
Qed.

Lemma read_entry_wellformed (s : rstate) (e : entry) (c : list Z) (w : world)
    (next : Z) :
  content w = ct -> entry_ok e -> 0 <= blockIndex s -> 0 <= next ->
  (index e = blockIndex s /\ offset e = next)
  \/ (blockIndex s < index e /\ offset e = 0) ->
  pos w = DATA_OFFSET + BLOCK_SIZE * blockIndex s + next ->
  stored ct DATA_OFFSET BLOCK_SIZE e c ->
  exists s' w',
    read_entry fuel a idx (0 <? Z.of_nat (size idx)) DATA_OFFSET BLOCK_SIZE s e w
    = (Ok s', w')
    /\ blockIndex s' = index e
    /\ finalCaptions s' = dict_set (finalCaptions s) (PStr (name_of idx e)) c
    /\ pos w' = DATA_OFFSET + BLOCK_SIZE * index e + (offset e + length_ e)
    /\ content w' = ct /\ written w' = written w.
Proof.
  intros Hct (Hh & Hi & Ho & Hl) Hcur Hnext Hplace Hpos Hstored.
  assert (Hmul : 0 <= BLOCK_SIZE * index e) by (apply Z.mul_nonneg_nonneg; lia).
  pose proof (stored_inside e c ltac:(lia) Hstored) as Hin.
  destruct Hstored as (Hbmp & Hlen & t1 & t2 & rest & Hdrop).
  assert (Hseek : exists w1,
            when (blockIndex s <? index e)
              (seek (DATA_OFFSET + BLOCK_SIZE * index e)) w = (Ok tt, w1)
            /\ pos w1 = DATA_OFFSET + BLOCK_SIZE * index e + offset e
            /\ content w1 = ct /\ written w1 = written w).
  { destruct Hplace as [[Ei Eo] | [Ei Eo]].
    - replace (blockIndex s <? index e) with false
        by (symmetry; apply Z.ltb_ge; lia).
      exists w. split; [reflexivity|]. rewrite Ei, Eo. auto.
    - replace (blockIndex s <? index e) with true
        by (symmetry; apply Z.ltb_lt; lia).
      unfold when. rewrite seek_inside by (rewrite Hct; lia).
      eexists. split; [reflexivity|]. cbn [move pos content written].
      rewrite Eo. split; [lia | auto]. }
  destruct Hseek as (w1 & Es & Hp1 & Hc1 & Hw1).
  unfold read_entry. rewrite (run_bind_Ok _ _ _ _ _ Es).
  unfold after_seek.
  destruct (read_caption_exact e c rest t1 t2 w1) as (w2 & Er & Hp2 & _ & Hs2).
  { lia. }
  { exact Hbmp. }
  { exact Hlen. }
  { unfold avail. rewrite Hc1, Hp1. exact Hdrop. }
  rewrite (run_bind_Ok _ _ _ _ _ Er).
  destruct (resolve_name_plain fuel a idx e (captionLineIndex s) (ssHashMatches s)
              w2 Hsh) as (m' & w3 & En & Hc3 & Hp3 & Hw3).
  rewrite (run_bind_Ok _ _ _ _ _ En).
  do 2 eexists. split; [reflexivity|]. cbn [blockIndex finalCaptions].
  destruct Hs2 as (H1 & H2 & H3 & H4).
  repeat split; [lia | congruence | congruence].
Qed.

Lemma block_loop_wellformed (es : list entry) (cs : list (list Z)) :
  Forall2 (stored ct DATA_OFFSET BLOCK_SIZE) es cs ->
  forall (s : rstate) (w : world) (next : Z),
    content w = ct -> Forall entry_ok es -> 0 <= blockIndex s -> 0 <= next ->
    contiguous (blockIndex s) next es ->
    pos w = DATA_OFFSET + BLOCK_SIZE * blockIndex s + next ->
    exists s' w',
      forM es (read_entry fuel a idx (0 <? Z.of_nat (size idx))
                 DATA_OFFSET BLOCK_SIZE) s w
      = (Ok s', w')
      /\ finalCaptions s' = captions_of idx es cs (finalCaptions s)
      /\ content w' = ct /\ written w' = written w.
Proof.
  intros Hst. induction Hst as [|e c es cs Hse Hst IH];
    intros s w next Hct Hok Hcur Hnext Hcont Hpos.
  - exists s, w. split; [reflexivity|]. auto.
  - apply Forall_cons in Hok as [Hoe Hok'].
    destruct Hcont as [Hplace Hcont].
    destruct (read_entry_wellformed s e c w next Hct Hoe Hcur Hnext Hplace
                Hpos Hse) as (s1 & w1 & E1 & Hb1 & Hf1 & Hp1 & Hc1 & Hw1).
    cbn [forM]. rewrite (run_bind_Ok _ _ _ _ _ E1).
    destruct Hoe as (_ & Hi & Ho & Hl).
    destruct (IH s1 w1 (offset e + length_ e)) as (s' & w' & E & Hf & Hc & Hw);
      rewrite ?Hb1; try assumption; try lia.
    exists s', w'. split; [exact E|]. split.
    + rewrite Hf, Hf1. reflexivity.
    + split; [exact Hc | congruence].
Qed.

End WellFormed.

Lemma readCaptionBlocks_reads (fuel : nat) (a : Args) (es : list entry)
    (cs : list (list Z)) (idx : gmap Z (list Z)) (DATA_OFFSET BLOCK_SIZE : Z)
    (w : world) :
  same_hashes a = false ->
  0 <= DATA_OFFSET -> 0 <= BLOCK_SIZE ->
  (es = [] -> DATA_OFFSET <= seek_limit w) ->
  Forall entry_ok es ->
  contiguous 0 0 es ->
  Forall2 (stored (content w) DATA_OFFSET BLOCK_SIZE) es cs ->
  exists w',
    readCaptionBlocks fuel a es idx DATA_OFFSET BLOCK_SIZE w
    = (Ok (captions_of idx es cs []), w')
    /\ content w' = content w /\ written w' = written w.
Proof.
  intros Hsh HDO HBS Hempty Hok Hcont Hst.
  assert (Hlim : DATA_OFFSET <= seek_limit w).
  { destruct Hst as [|e c es cs Hse _]; [now apply Hempty|].
    apply Forall_cons in Hok as [(_ & Hi & Ho & _) _].
    assert (0 <= BLOCK_SIZE * index e) by (apply Z.mul_nonneg_nonneg; lia).
    pose proof (stored_inside DATA_OFFSET BLOCK_SIZE (content w) e c
                  ltac:(lia) Hse).
    unfold seek_limit. lia. }
  unfold readCaptionBlocks.
  rewrite run_bind. cbn [print_noend]. rewrite run_bind.
  set (w1 := {| content := content w; pos := pos w; positions := positions w;
                stdout := stdout w ++ [str_of "Reading caption blocks"];
                written := written w;
                seek_max := seek_max w |}).
  assert (Hw2 : exists w2,
            when (0 <? Z.of_nat (size idx))
              (print_noend (str_of " and attempting to match hashes and names")) w1
            = (Ok tt, w2) /\ content w2 = content w /\ written w2 = written w
              /\ seek_max w2 = seek_max w).
  { destruct (0 <? Z.of_nat (size idx)); eexists; (split; [reflexivity|]);
      repeat split; reflexivity. }
  destruct Hw2 as (w2 & -> & Hc2 & Hwr2 & Hsm2).
  rewrite run_bind. unfold print at 1. cbn [print_noend].
  rewrite run_bind.
  rewrite seek_ok
    by (unfold seek_limit in *; cbn [content seek_max]; rewrite Hc2, Hsm2; lia).
  set (w4 := move _ DATA_OFFSET).
  destruct (block_loop_wellformed fuel a idx DATA_OFFSET BLOCK_SIZE (content w)
              Hsh HDO HBS es cs Hst
              {| blockIndex := 0; ssHashMatches := 0; captionLineIndex := 6;
                 finalCaptions := [] |} w4 0)
    as (s' & w' & E & Hf & Hc & Hw); try assumption;
    try (cbn [blockIndex]; lia); try (subst w4; cbn; assumption).
  { subst w4. cbn [move pos blockIndex]. lia. }
  rewrite (run_bind_Ok _ _ _ _ _ E). cbn [finalCaptions] in Hf.
  rewrite run_bind. unfold print at 1. cbn [print_noend]. rewrite run_bind.
  destruct (negb (ssHashMatches s' =? Z.of_nat (length es)));
    cbn [print print_noend]; unfold mret, M_ret;
    eexists; (split; [rewrite Hf; reflexivity|]); cbn [content written];
    (split; [exact Hc | rewrite Hw; subst w4; cbn; exact Hwr2]).
Qed.

(** X15: Reading back a well-formed archive.  When the directory lists the
    captions of each block in order and without gaps, blocks in
    increasing order, and every caption is stored where its entry says,
    [readCaptionBlocks] (without [--same-hashes]) returns exactly the
    stored captions, each under the candidate matching its hash or else
    under the hash in decimal; it changes neither the archive nor the
    output file.  (For an empty directory the data offset is one the
    file system accepts; with entries it lies inside the file.) *)
Theorem readCaptionBlocks_wellformed (fuel : nat) (a : Args) (es : list entry)
    (cs : list (list Z)) (idx : gmap Z (list Z)) (DATA_OFFSET BLOCK_SIZE : Z)
    (w : world) :
  same_hashes a = false ->
  0 <= DATA_OFFSET -> 0 <= BLOCK_SIZE ->
  (es = [] -> DATA_OFFSET <= seek_limit w) ->
  Forall entry_ok es ->
  contiguous 0 0 es ->
  Forall2 (stored (content w) DATA_OFFSET BLOCK_SIZE) es cs ->
  exists w',
    readCaptionBlocks fuel a es idx DATA_OFFSET BLOCK_SIZE w
    = (Ok (captions_of idx es cs []), w')
    /\ content w' = content w /\ written w' = written w.
Proof.
  exact (readCaptionBlocks_reads fuel a es cs idx DATA_OFFSET BLOCK_SIZE w).
Qed.

Lemma readCaptionBlocks_wellformed_witness :
  exists w',
    readCaptionBlocks 0 default_args
      [ {| hash := 12345; index := 0; offset := 0; length_ := 6 |};
        {| hash := 54321; index := 0; offset := 6; length_ := 6 |};
        {| hash := 777; index := 2; offset := 0; length_ := 4 |} ]
      ∅ 4 8
      (opened ([0; 0; 0; 0] ++ encode_utf16le (str_of "Hi" ++ [0])
               ++ encode_utf16le (str_of "Yo" ++ [0])
               ++ [0; 0; 0; 0] ++ encode_utf16le (str_of "x" ++ [0])))
    = (Ok (captions_of ∅
             [ {| hash := 12345; index := 0; offset := 0; length_ := 6 |};
               {| hash := 54321; index := 0; offset := 6; length_ := 6 |};
               {| hash := 777; index := 2; offset := 0; length_ := 4 |} ]
             [str_of "Hi"; str_of "Yo"; str_of "x"] []), w')
    /\ content w'
       = content (opened ([0; 0; 0; 0] ++ encode_utf16le (str_of "Hi" ++ [0])
                          ++ encode_utf16le (str_of "Yo" ++ [0])
                          ++ [0; 0; 0; 0] ++ encode_utf16le (str_of "x" ++ [0])))
    /\ written w'
       = written (opened ([0; 0; 0; 0] ++ encode_utf16le (str_of "Hi" ++ [0])
                          ++ encode_utf16le (str_of "Yo" ++ [0])
                          ++ [0; 0; 0; 0] ++ encode_utf16le (str_of "x" ++ [0]))).
Proof.
  apply readCaptionBlocks_wellformed.
  - reflexivity.
  - lia.
  - lia.
  - discriminate.
  - repeat (apply List.Forall_cons; [unfold entry_ok; cbn; lia|]).
    apply List.Forall_nil.
  - cbn. lia.
  - repeat (constructor;
            [unfold stored; split;
             [apply List.Forall_forall; intros u Hu; unfold bmp_unit;
              vm_compute in Hu;
              repeat (destruct Hu as [<- | Hu]; [lia|]); contradiction
             | split; [reflexivity | do 3 eexists; vm_compute; reflexivity]]|]).
    constructor.
Defined.

(** ** One round of the loop, whatever the archive *)

Lemma read_entry_inv (fuel : nat) (a : Args) (idx : gmap Z (list Z)) (att : bool)
    (DATA_OFFSET BLOCK_SIZE : Z) (s : rstate) (e : entry) (w : world)
    (s1 : rstate) (w1 : world) :
  read_entry fuel a idx att DATA_OFFSET BLOCK_SIZE s e w = (Ok s1, w1) ->
  exists c k m w2,
    resolve_name fuel a idx att e (captionLineIndex s) (ssHashMatches s) w2
    = (Ok (k, m), w1)
    /\ s1 = {| blockIndex := index e; ssHashMatches := m;
               captionLineIndex := captionLineIndex s + 1;
               finalCaptions := dict_set (finalCaptions s) k c |}
    /\ same_but_pos w w2.
Proof.
  unfold read_entry. rewrite run_bind.
  pose proof (keeps_console_when (blockIndex s <? index e)
                (seek (DATA_OFFSET + BLOCK_SIZE * index e))
                (keeps_console_seek _) w) as H0.
  destruct (when _ _ w) as [[[]| |] w0]; try discriminate. cbn [snd] in H0.
  unfold after_seek. rewrite run_bind.
  pose proof (keeps_console_read_caption e w0) as H1.
  destruct (read_caption e w0) as [[c| |] w2]; try discriminate. cbn [snd] in H1.
  rewrite run_bind.
  destruct (resolve_name _ _ _ _ _ _ _ w2) as [[[k m]| |] w3] eqn:En;
    try discriminate.
  unfold mret, M_ret. intros H. inversion H; subst.
  exists c, k, m, w2. split; [exact En|]. split; [reflexivity|].
  destruct H0 as (A1 & A2 & A3 & A4), H1 as (B1 & B2 & B3 & B4).
  repeat split; congruence.
Qed.

(** ** The report on the console *)

Lemma resolve_name_count (fuel : nat) (a : Args) (idx : gmap Z (list Z))
    (e : entry) (line m : Z) (w : world) (k : pyval) (m' : Z) (w' : world) :
  verbose a <= 0 ->
  resolve_name fuel a idx (0 <? Z.of_nat (size idx)) e line m w = (Ok (k, m'), w') ->
  w' = w
  /\ m' = m + (if bool_decide (is_Some (idx !! hash e)) then 1 else 0).
Proof.
  intros Hv. unfold resolve_name.
  replace (1 <=? verbose a) with false by (symmetry; apply Z.leb_gt; lia).
  destruct (0 <? Z.of_nat (size idx)) eqn:E.
  - destruct (idx !! hash e) as [name|] eqn:El.
    + intros H. inversion H; subst. split; [reflexivity|].
      rewrite bool_decide_eq_true_2 by (now eexists). reflexivity.
    + rewrite bool_decide_eq_false_2 by (intros [x Hx]; discriminate).
      unfold when. rewrite run_mret_bind.
      destruct (same_hashes a).
      * rewrite run_mret_bind, run_lift_bind.
        destruct (generateStrWithNewCRC _ _ _); try discriminate.
        intros H. inversion H; subst. split; [reflexivity | lia].
      * rewrite run_mret_bind. intros H. inversion H; subst.
        split; [reflexivity | lia].
  - rewrite (size_zero_lookup idx (hash e) E).
    rewrite bool_decide_eq_false_2 by (intros [x Hx]; discriminate).
    intros H. inversion H; subst. split; [reflexivity | lia].
Qed.

Lemma matched_cons (idx : gmap Z (list Z)) (e : entry) (es : list entry) :
  matched idx (e :: es)
  = (if bool_decide (is_Some (idx !! hash e)) then 1 else 0) + matched idx es.
Proof.
  unfold matched. cbn [List.filter].
  destruct (bool_decide (is_Some (idx !! hash e))); cbn [length]; lia.
Qed.

Lemma block_loop_count (fuel : nat) (a : Args) (idx : gmap Z (list Z))
    (DATA_OFFSET BLOCK_SIZE : Z) (es : list entry) :
  verbose a <= 0 ->
  forall (s : rstate) (w : world) (s' : rstate) (w' : world),
    forM es (read_entry fuel a idx (0 <? Z.of_nat (size idx))
               DATA_OFFSET BLOCK_SIZE) s w = (Ok s', w') ->
    stdout w' = stdout w
    /\ ssHashMatches s' = ssHashMatches s + matched idx es.
Proof.
  intros Hv. induction es as [|e es IH]; intros s w s' w' Hrun; cbn [forM] in Hrun.
  - inversion Hrun; subst. split; [reflexivity|]. unfold matched. simpl. lia.
  - rewrite run_bind in Hrun.
    destruct (read_entry _ _ _ _ _ _ s e w) as [[s1| |] w1] eqn:E1;
      try discriminate.
    apply read_entry_inv in E1 as (c & k & m & w2 & En & -> & (_ & Hs2 & _)).
    apply resolve_name_count in En as [-> Hm]; [|exact Hv].
    apply IH in Hrun as [Hout Hcount]. cbn [ssHashMatches] in Hcount.
    split; [congruence|]. rewrite matched_cons. lia.
Qed.

(** X16: What the reader prints at verbosity 0: the progress line (which
    mentions the matching when the index is not empty), then the number
    of entries whose hash is a key of the index against the number of
    entries, and "All caption names found" exactly when the two are
    equal, a warning with the difference otherwise. *)
Theorem readCaptionBlocks_report (fuel : nat) (a : Args) (es : list entry)
    (idx : gmap Z (list Z)) (DATA_OFFSET BLOCK_SIZE : Z) (w w' : world)
    (fc : list (pyval * list Z)) :
  verbose a <= 0 ->
  readCaptionBlocks fuel a es idx DATA_OFFSET BLOCK_SIZE w = (Ok fc, w') ->
  stdout w'
  = stdout w
    ++ [str_of "Reading caption blocks"]
    ++ (if 0 <? Z.of_nat (size idx)
        then [str_of " and attempting to match hashes and names"] else [])
    ++ [str_of "..." ++ [10];
        str_of "Hashes found: " ++ str_int (matched idx es)
        ++ str_of ", Expected: " ++ str_int (Z.of_nat (length es)) ++ [10];
        if matched idx es =? Z.of_nat (length es)
        then str_of "All caption names found" ++ [10]
        else str_of "WARNING: Did not find names for "
             ++ str_int (Z.of_nat (length es) - matched idx es)
             ++ str_of " captions! (Either we couldn't find them or they are unused)"
             ++ [10]].
Proof.
  intros Hv. unfold readCaptionBlocks.
  rewrite run_bind. cbn [print_noend]. rewrite run_bind.
  set (w1 := {| content := content w; pos := pos w; positions := positions w;
                stdout := stdout w ++ [str_of "Reading caption blocks"];
                written := written w;
                seek_max := seek_max w |}).
  assert (Hw2 : exists w2,
            when (0 <? Z.of_nat (size idx))
              (print_noend (str_of " and attempting to match hashes and names")) w1
            = (Ok tt, w2)
            /\ stdout w2
               = stdout w ++ [str_of "Reading caption blocks"]
                 ++ (if 0 <? Z.of_nat (size idx)
                     then [str_of " and attempting to match hashes and names"]
                     else [])).
  { destruct (0 <? Z.of_nat (size idx)); eexists; (split; [reflexivity|]);
      cbn [stdout w1]; rewrite <- ?app_assoc, ?app_nil_r; reflexivity. }
  destruct Hw2 as (w2 & -> & Hout2).
  rewrite run_bind. unfold print at 1. cbn [print_noend].
  rewrite run_bind. case_seek; [|discriminate].
  set (w4 := move _ DATA_OFFSET). rewrite run_bind.
  destruct (forM es _ _ w4) as [[s'| |] w5] eqn:Eloop; try discriminate.
  apply (block_loop_count fuel a idx DATA_OFFSET BLOCK_SIZE es Hv) in Eloop
    as [Hout5 Hcount].
  cbn [ssHashMatches] in Hcount. rewrite Z.add_0_l in Hcount.
  rewrite run_bind. unfold print at 1. cbn [print_noend]. rewrite run_bind.
  rewrite Hcount.
  destruct (matched idx es =? Z.of_nat (length es)); cbn [negb];
    cbn [print print_noend]; unfold mret, M_ret;
    intros H; inversion H; subst; cbn [stdout];
    rewrite Hout5; subst w4; cbn [move stdout]; rewrite Hout2;
    rewrite <- !app_assoc; reflexivity.
Qed.

Lemma readCaptionBlocks_report_witness :
  stdout (snd (readCaptionBlocks 0 default_args overfull_entries ∅ 48 8
                 (opened overfull_archive)))
  = stdout (opened overfull_archive)
    ++ [str_of "Reading caption blocks"]
    ++ (if 0 <? Z.of_nat (size (∅ : gmap Z (list Z)))
        then [str_of " and attempting to match hashes and names"] else [])
    ++ [str_of "..." ++ [10];
        str_of "Hashes found: " ++ str_int (matched ∅ overfull_entries)
        ++ str_of ", Expected: " ++ str_int (Z.of_nat (length overfull_entries))
        ++ [10];
        if matched ∅ overfull_entries =? Z.of_nat (length overfull_entries)
        then str_of "All caption names found" ++ [10]
        else str_of "WARNING: Did not find names for "
             ++ str_int (Z.of_nat (length overfull_entries)
                         - matched ∅ overfull_entries)
             ++ str_of " captions! (Either we couldn't find them or they are unused)"
             ++ [10]].
Proof.
  destruct (readCaptionBlocks 0 default_args overfull_entries ∅ 48 8
              (opened overfull_archive)) as [r w'] eqn:E.
  destruct r as [fc| |]; [|vm_compute in E; discriminate..].
  apply (readCaptionBlocks_report 0 default_args overfull_entries ∅ 48 8
           (opened overfull_archive) w' fc); [simpl; lia | exact E].
Defined.

(** ** The names in the result *)

Lemma pyval_eqb_eq (k k' : pyval) : pyval_eqb k k' = true <-> k = k'.
Proof.
  destruct k as [s|n], k' as [t|m]; cbn [pyval_eqb]; split;
    try discriminate; intros H.
  - unfold str_eqb in H. apply bool_decide_eq_true in H. now subst.
  - inversion H; subst. unfold str_eqb. now apply bool_decide_eq_true.
  - apply Z.eqb_eq in H. now subst.
  - inversion H; subst. apply Z.eqb_refl.
Qed.

Lemma dict_set_keys {V} (d : list (pyval * V)) (k : pyval) (v : V) :
  (In k (map fst d) /\ map fst (dict_set d k v) = map fst d)
  \/ (~ In k (map fst d) /\ map fst (dict_set d k v) = map fst d ++ [k]).
Proof.
  induction d as [|[k' v'] d IH]; cbn [dict_set map fst].
  - right. split; [intros [] | reflexivity].
  - destruct (pyval_eqb k' k) eqn:E.
    + apply pyval_eqb_eq in E. subst k'. left. split; [now left | reflexivity].
    + assert (Hne : k' <> k).
      { intros ->. assert (pyval_eqb k k = true) by now apply pyval_eqb_eq.
        congruence. }
      cbn [map fst]. destruct IH as [[Hin ->] | [Hnin ->]].
      * left. split; [now right | reflexivity].
      * right. split; [|reflexivity]. intros [? | ?]; [now apply Hne | tauto].
Qed.

Lemma dict_set_lookup {V} (d : list (pyval * V)) (k : pyval) (v : V) :
  In (k, v) (dict_set d k v).
Proof.
  induction d as [|[k' v'] d IH]; cbn [dict_set]; [now left|].
  destruct (pyval_eqb k' k) eqn:E.
  - apply pyval_eqb_eq in E. subst. now left.
  - now right.
Qed.

Lemma dict_set_nodup {V} (d : list (pyval * V)) (k : pyval) (v : V) :
  NoDup (map fst d) -> NoDup (map fst (dict_set d k v)).
Proof.
  intros Hnd. destruct (dict_set_keys d k v) as [[_ ->] | [Hnin ->]];
    [exact Hnd|].
  apply NoDup_app. split; [exact Hnd|]. split.
  - intros x Hx Hk. apply list_elem_of_singleton in Hk. subst.
    apply Hnin. now apply list_elem_of_In.
  - apply NoDup_singleton.
Qed.

Lemma dict_set_length {V} (d : list (pyval * V)) (k : pyval) (v : V) :
  (length d <= length (dict_set d k v) <= S (length d))%nat.
Proof.
  rewrite <- !(length_map fst).
  destruct (dict_set_keys d k v) as [[_ ->] | [_ ->]];
    rewrite ?length_app; simpl; lia.
Qed.

Lemma dict_set_nonempty {V} (d : list (pyval * V)) (k : pyval) (v : V) :
  (1 <= length (dict_set d k v))%nat.
Proof.
  pose proof (dict_set_lookup d k v) as H.
  destruct (dict_set d k v); [destruct H | simpl; lia].
Qed.

Lemma block_loop_names (fuel : nat) (a : Args) (idx : gmap Z (list Z)) (att : bool)
    (DATA_OFFSET BLOCK_SIZE : Z) (es : list entry) :
  forall (s : rstate) (w : world) (s' : rstate) (w' : world),
    forM es (read_entry fuel a idx att DATA_OFFSET BLOCK_SIZE) s w = (Ok s', w') ->
    NoDup (map fst (finalCaptions s)) ->
    NoDup (map fst (finalCaptions s'))
    /\ (length (finalCaptions s) <= length (finalCaptions s')
        <= length (finalCaptions s) + length es)%nat
    /\ (es <> [] -> (1 <= length (finalCaptions s'))%nat).
Proof.
  induction es as [|e es IH]; intros s w s' w' Hrun Hnd; cbn [forM] in Hrun.
  - inversion Hrun; subst. split; [exact Hnd|]. split; [lia | congruence].
  - rewrite run_bind in Hrun.
    destruct (read_entry _ _ _ _ _ _ s e w) as [[s1| |] w1] eqn:E1;
      try discriminate.
    apply read_entry_inv in E1 as (c & k & m & w2 & _ & -> & _).
    apply IH in Hrun as (Hnd' & Hlen & _);
      [|cbn [finalCaptions]; now apply dict_set_nodup].
    cbn [finalCaptions] in Hlen.
    pose proof (dict_set_length (finalCaptions s) k c) as Hl.
    pose proof (dict_set_nonempty (finalCaptions s) k c) as Hn.
    split; [exact Hnd'|]. split; [cbn [length]; lia|].
    intros _. lia.
Qed.

(** X17: The captions returned have pairwise distinct names: entries that
    get one and the same name are merged into a single caption, the text
    of the later entry replacing the earlier one.  So there are at most
    as many captions as directory entries, and at least one when the
    directory is not empty. *)
Theorem readCaptionBlocks_distinct_names (fuel : nat) (a : Args) (es : list entry)
    (idx : gmap Z (list Z)) (DATA_OFFSET BLOCK_SIZE : Z) (w w' : world)
    (fc : list (pyval * list Z)) :
  readCaptionBlocks fuel a es idx DATA_OFFSET BLOCK_SIZE w = (Ok fc, w') ->
  NoDup (map fst fc)
  /\ (length fc <= length es)%nat
  /\ (es <> [] -> fc <> []).
Proof.
  unfold readCaptionBlocks.
  rewrite run_bind. cbn [print_noend]. rewrite run_bind.
  destruct (when _ _ _) as [[[]| |] w2]; try discriminate.
  rewrite run_bind. unfold print at 1. cbn [print_noend].
  rewrite run_bind. case_seek; [|discriminate].
  rewrite run_bind.
  destruct (forM es _ _ _) as [[s'| |] w5] eqn:Eloop; try discriminate.
  apply block_loop_names in Eloop as (Hnd & Hlen & Hne); [|constructor].
  cbn [finalCaptions length] in Hlen.
  rewrite run_bind. unfold print at 1. cbn [print_noend]. rewrite run_bind.
  destruct (negb _); cbn [print print_noend]; unfold mret, M_ret;
    intros H; inversion H; subst;
    (split; [exact Hnd|]; split; [lia|]);
    intros Hes Hnil; specialize (Hne Hes); rewrite Hnil in Hne; simpl in Hne; lia.
Qed.

Lemma readCaptionBlocks_distinct_names_witness :
  NoDup (map fst [(PStr (str_of "0000012345"), [111; 0])])
  /\ (length [(PStr (str_of "0000012345"), [111; 0])]
      <= length [ {| hash := 12345; index := 0; offset := 0; length_ := 6 |};
                  {| hash := 12345; index := 1; offset := 0; length_ := 6 |} ])%nat
  /\ ([ {| hash := 12345; index := 0; offset := 0; length_ := 6 |};
        {| hash := 12345; index := 1; offset := 0; length_ := 6 |} ] <> [] ->
      [(PStr (str_of "0000012345"), [111; 0])] <> []).
Proof.
  apply (readCaptionBlocks_distinct_names 0 default_args
           [ {| hash := 12345; index := 0; offset := 0; length_ := 6 |};
             {| hash := 12345; index := 1; offset := 0; length_ := 6 |} ]
           ∅ 48 8 (opened overfull_archive)
           (snd (readCaptionBlocks 0 default_args
                   [ {| hash := 12345; index := 0; offset := 0; length_ := 6 |};
                     {| hash := 12345; index := 1; offset := 0; length_ := 6 |} ]
                   ∅ 48 8 (opened overfull_archive)))).
  vm_compute. reflexivity.
Defined.

(** ** Without candidates *)

Lemma block_loop_plain (fuel : nat) (a : Args) (DATA_OFFSET BLOCK_SIZE : Z)
    (all es : list entry) :
  (forall e, In e es -> In e all) ->
  forall (s : rstate) (w : world) (s' : rstate) (w' : world),
    forM es (read_entry fuel a ∅ false DATA_OFFSET BLOCK_SIZE) s w = (Ok s', w') ->
    Forall (fun kc => exists e, In e all
                                /\ fst kc = PStr (rjust (str_int (hash e)) 10 48))
      (finalCaptions s) ->
    Forall (fun kc => exists e, In e all
                                /\ fst kc = PStr (rjust (str_int (hash e)) 10 48))
      (finalCaptions s').
Proof.
  induction es as [|e es IH]; intros Hall s w s' w' Hrun HI; cbn [forM] in Hrun.
  - inversion Hrun; subst. exact HI.
  - rewrite run_bind in Hrun.
    destruct (read_entry _ _ _ _ _ _ s e w) as [[s1| |] w1] eqn:E1;
      try discriminate.
    apply read_entry_inv in E1 as (c & k & m & w2 & En & -> & _).
    cbn [resolve_name] in En. unfold mret, M_ret in En. inversion En; subst.
    apply IH in Hrun; [exact Hrun | intros e' He'; apply Hall; now right |].
    cbn [finalCaptions]. clear - HI Hall.
    induction (finalCaptions s) as [|[k' c'] d IHd]; cbn [dict_set].
    + constructor; [|constructor]. exists e. split; [apply Hall; now left|].
      reflexivity.
    + apply Forall_cons in HI as [Hk' Hd].
      destruct (pyval_eqb k' _).
      * constructor; assumption.
      * constructor; [exact Hk' | now apply IHd].
Qed.

(** X18: [--same-hashes] does nothing without candidates.  With an empty
    index and a verbosity below 2 the reader does not depend on the
    arguments at all (no name is forced, whatever [--same-hashes] says,
    and no loop of the forcer runs), and every caption is named by the
    decimal hash of an entry. *)
Theorem same_hashes_needs_candidates (fuel fuel' : nat) (a a' : Args)
    (es : list entry) (DATA_OFFSET BLOCK_SIZE : Z) (w : world) :
  verbose a < 2 -> verbose a' < 2 ->
  readCaptionBlocks fuel a es ∅ DATA_OFFSET BLOCK_SIZE w
  = readCaptionBlocks fuel' a' es ∅ DATA_OFFSET BLOCK_SIZE w
  /\ forall fc w',
       readCaptionBlocks fuel a es ∅ DATA_OFFSET BLOCK_SIZE w = (Ok fc, w') ->
       forall k c, In (k, c) fc ->
         exists e, In e es /\ k = PStr (rjust (str_int (hash e)) 10 48).
Proof.
  intros _ _. split; [reflexivity|].
  intros fc w'. unfold readCaptionBlocks.
  change (0 <? Z.of_nat (size (∅ : gmap Z (list Z)))) with false. cbv zeta.
  rewrite run_bind. cbn [print_noend]. rewrite run_bind. cbn [when].
  unfold mret at 1, M_ret at 1. rewrite run_bind.
  unfold print at 1. cbn [print_noend].
  rewrite run_bind. case_seek; [|discriminate].
  rewrite run_bind.
  destruct (forM es _ _ _) as [[s'| |] w5] eqn:Eloop; try discriminate.
  apply (block_loop_plain fuel a DATA_OFFSET BLOCK_SIZE es es (fun e H => H))
    in Eloop; [|constructor].
  rewrite run_bind. unfold print at 1. cbn [print_noend]. rewrite run_bind.
  destruct (negb _); cbn [print print_noend]; unfold mret, M_ret;
    intros H; inversion H; subst; intros k c Hin;
    rewrite List.Forall_forall in Eloop;
    destruct (Eloop (k, c) Hin) as (e & He & Hk); exists e; auto.
Qed.

Lemma same_hashes_needs_candidates_witness :
  readCaptionBlocks 0 default_args overfull_entries ∅ 48 8
    (opened overfull_archive)
  = readCaptionBlocks 33
      {| sound_dir := None; sound_script := []; sound_name := [];
         sound_list := []; same_hashes := true; padding := 4;
         no_align := false; tabs := false; verbose := 1 |}
      overfull_entries ∅ 48 8 (opened overfull_archive)
  /\ forall fc w',
       readCaptionBlocks 0 default_args overfull_entries ∅ 48 8
         (opened overfull_archive) = (Ok fc, w') ->
       forall k c, In (k, c) fc ->
         exists e, In e overfull_entries
                   /\ k = PStr (rjust (str_int (hash e)) 10 48).
Proof. apply same_hashes_needs_candidates; simpl; lia. Defined.

(** ** Names that compile back to the hash *)

Lemma generate_result (fuel : nat) (s : list Z) (T : Z) (v : pyval) :
  (33 <= fuel)%nat ->
  generateStrWithNewCRC fuel s T = Ok v ->
  v = PInt (-1)
  \/ exists S, v = PStr S /\ encode_utf8 S = Ok S /\ crc32 S = T.
Proof.
  intros Hfuel. rewrite generate_flat.
  destruct (for_in_outcome candidates (run_candidate fuel s T))
    as [[Hnone _] | (i & c & Hi & Hc & Hfor & _)].
  - rewrite Hnone. cbn [mbind result_bind]. intros H. inversion H. now left.
  - rewrite Hfor.
    destruct (run_candidate fuel s T c) as [[v'|]| |] eqn:Erun;
      cbn [mbind result_bind]; try discriminate; try congruence.
    intros Hv. inversion Hv; subst v'.
    pose proof (run_candidate_accepted fuel s T c _ Hfuel Erun) as Hacc.
    destruct c as [[[c1 c2] c3] c4]. cbv zeta in Hacc.
    destruct Hacc as (HS & Hus & Hasc & Hcrc).
    right. eexists. split; [exact HS|]. split; [|exact Hcrc].
    apply encode_utf8_ascii. apply Forall_app. split; [exact Hasc|].
    eapply List.Forall_impl; [|exact Hus]. apply usable_ascii.
Qed.

Lemma resolve_name_hashes_back (fuel : nat) (a : Args) (idx : gmap Z (list Z))
    (e : entry) (line m : Z) (w : world) (k : pyval) (m' : Z) (w' : world) :
  (33 <= fuel)%nat -> same_hashes a = true -> index_sound idx ->
  resolve_name fuel a idx true e line m w = (Ok (k, m'), w') ->
  hashes_back e k.
Proof.
  intros Hfuel Hsh Hidx. unfold resolve_name.
  destruct (idx !! hash e) as [name|] eqn:El.
  - intros H. inversion H; subst. right.
    destruct (Hidx _ _ El) as [[b Hb] Hcrc]. unfold name_crc in Hcrc.
    rewrite Hb in Hcrc. exists name, b. auto.
  - rewrite Hsh. rewrite run_bind.
    destruct (when _ _ w) as [[[]| |] w1]; try discriminate.
    rewrite run_bind.
    destruct (when _ _ w1) as [[[]| |] w2]; try discriminate.
    rewrite run_lift_bind.
    destruct (generateStrWithNewCRC _ _ _) as [v| |] eqn:Eg; try discriminate.
    intros H. inversion H; subst.
    destruct (generate_result fuel _ _ _ Hfuel Eg) as [-> | (S & -> & Henc & Hcrc)].
    + now left.
    + right. exists S, S. auto.
Qed.

Lemma block_loop_hashes_back (fuel : nat) (a : Args) (idx : gmap Z (list Z))
    (DATA_OFFSET BLOCK_SIZE : Z) (all : list entry) (es : list entry) :
  (33 <= fuel)%nat -> same_hashes a = true -> index_sound idx ->
  (forall e, In e es -> In e all) ->
  forall (s : rstate) (w : world) (s' : rstate) (w' : world),
    forM es (read_entry fuel a idx true DATA_OFFSET BLOCK_SIZE) s w = (Ok s', w') ->
    Forall (fun kc => exists e, In e all /\ hashes_back e (fst kc)) (finalCaptions s) ->
    Forall (fun kc => exists e, In e all /\ hashes_back e (fst kc)) (finalCaptions s').
Proof.
  intros Hfuel Hsh Hidx. induction es as [|e es IH];
    intros Hall s w s' w' Hrun HI; cbn [forM] in Hrun.
  - inversion Hrun; subst. exact HI.
  - rewrite run_bind in Hrun.
    destruct (read_entry _ _ _ _ _ _ s e w) as [[s1| |] w1] eqn:E1;
      try discriminate.
    apply read_entry_inv in E1 as (c & k & m & w2 & En & -> & _).
    apply (resolve_name_hashes_back fuel a idx e _ _ _ _ _ _ Hfuel Hsh Hidx) in En.
    apply IH in Hrun; [exact Hrun | intros e' He'; apply Hall; now right |].
    cbn [finalCaptions]. clear - HI En Hall.
    induction (finalCaptions s) as [|[k' c'] d IHd]; cbn [dict_set].
    + constructor; [|constructor]. exists e. split; [apply Hall; now left | exact En].
    + apply Forall_cons in HI as [Hk' Hd].
      destruct (pyval_eqb k' k).
      * constructor; assumption.
      * constructor; [exact Hk' | now apply IHd].
Qed.

(** X19: With [--same-hashes] and a non-empty index, every name in the
    result compiles back to the hash of a directory entry: it is either
    a candidate stored under that hash or a forced name whose CRC-32 is
    that hash (or the value -1 of an exhausted search).  No caption is
    left under the bare decimal hash. *)
Theorem readCaptionBlocks_names_hash_back (fuel : nat) (a : Args) (es : list entry)
    (idx : gmap Z (list Z)) (DATA_OFFSET BLOCK_SIZE : Z) (w w' : world)
    (fc : list (pyval * list Z)) :
  (33 <= fuel)%nat -> same_hashes a = true ->
  index_sound idx -> (0 < size idx)%nat ->
  readCaptionBlocks fuel a es idx DATA_OFFSET BLOCK_SIZE w = (Ok fc, w') ->
  forall k c, In (k, c) fc -> exists e, In e es /\ hashes_back e k.
Proof.
  intros Hfuel Hsh Hidx Hsize. unfold readCaptionBlocks.
  replace (0 <? Z.of_nat (size idx)) with true by (symmetry; apply Z.ltb_lt; lia).
  rewrite run_bind. cbn [print_noend]. rewrite run_bind.
  destruct (when _ _ _) as [[[]| |] w2]; try discriminate.
  rewrite run_bind. unfold print at 1. cbn [print_noend].
  rewrite run_bind. case_seek; [|discriminate].
  rewrite run_bind.
  destruct (forM es _ _ _) as [[s'| |] w5] eqn:Eloop; try discriminate.
  apply (block_loop_hashes_back fuel a idx DATA_OFFSET BLOCK_SIZE es es
           Hfuel Hsh Hidx (fun e H => H)) in Eloop; [|constructor].
  rewrite run_bind. unfold print at 1. cbn [print_noend]. rewrite run_bind.
  destruct (negb _); cbn [print print_noend]; unfold mret, M_ret;
    intros H; inversion H; subst; intros k c Hin;
    rewrite List.Forall_forall in Eloop; apply (Eloop (k, c) Hin).
Qed.

Lemma readCaptionBlocks_names_hash_back_witness :
  exists e,
    In e [ {| hash := 0x4DDB0C25; index := 0; offset := 0; length_ := 2 |};
           {| hash := 12345; index := 0; offset := 2; length_ := 2 |} ]
    /\ hashes_back e (PStr (str_of "0000012345.00lhpckn")).
Proof.
  refine (readCaptionBlocks_names_hash_back 33
           {| sound_dir := None; sound_script := [];
              sound_name := [str_of "buckeroo"]; sound_list := [];
              same_hashes := true; padding := 4; no_align := false;
              tabs := false; verbose := 0 |}
           [ {| hash := 0x4DDB0C25; index := 0; offset := 0; length_ := 2 |};
             {| hash := 12345; index := 0; offset := 2; length_ := 2 |} ]
           {[ 0x4DDB0C25 := str_of "buckeroo" ]} 0 8 (opened [0; 0; 0; 0])
           (snd (readCaptionBlocks 33
                   {| sound_dir := None; sound_script := [];
                      sound_name := [str_of "buckeroo"]; sound_list := [];
                      same_hashes := true; padding := 4; no_align := false;
                      tabs := false; verbose := 0 |}
                   [ {| hash := 0x4DDB0C25; index := 0; offset := 0; length_ := 2 |};
                     {| hash := 12345; index := 0; offset := 2; length_ := 2 |} ]
                   {[ 0x4DDB0C25 := str_of "buckeroo" ]} 0 8 (opened [0; 0; 0; 0])))
           [(PStr (str_of "buckeroo"), []);
            (PStr (str_of "0000012345.00lhpckn"), [])]
           _ _ _ _ _ (PStr (str_of "0000012345.00lhpckn")) [] _).
  - lia.
  - reflexivity.
  - intros h n H. apply lookup_singleton_Some in H as [<- <-].
    split; [eexists; reflexivity | vm_compute; reflexivity].
  - rewrite map_size_singleton. lia.
  - vm_compute. reflexivity.
  - right. left. reflexivity.
Defined.

End ReaderLaws.

(* ===================================================================== *)
(** * What [main] does to the files *)
(* ===================================================================== *)

Module MainLaws.

Import Bits MainProps IndexProps ReaderProps ForcerProps EmitterProps.
Import IndexLaws DirectoryProps ReaderLaws.

(** ** Text without surrogates *)















(** ** Computations that leave the files alone *)






















(** ** Spaces and no padding *)

(** X21: With [--tabs] (spaces instead of tabs) and a padding that is not
    positive there is no pad character at all: the lines are not
    indented and nothing stands between the quoted name and the quoted
    caption. *)
Theorem spaces_without_padding_touch (a : Args) (W : Z) (output : list Z)
    (name : pyval) (caption : list Z) (w : world) :
  tabs a = true -> padding a <= 0 ->
  padChar a = []
  /\ exists w',
       caption_line a W output (name, caption) w
       = (Ok (output ++ quote ++ format name ++ quote
              ++ quote ++ caption ++ quote ++ newline), w').
Proof.
  intros Ht Hp.
  assert (Hpad : padChar a = []).
  { unfold padChar. rewrite Ht.
    replace (0 <? padding a) with false by (symmetry; apply Z.ltb_ge; lia).
    reflexivity. }
  split; [exact Hpad|].
  unfold caption_line, paddingAlignment.
  replace (0 <? padding a) with false by (symmetry; apply Z.ltb_ge; lia).
  rewrite andb_false_r. rewrite run_lift_bind. cbn [negb when].
  rewrite run_bind. cbn [print print_noend]. unfold mret, M_ret.
  rewrite Hpad. cbn [app]. eexists. reflexivity.
Qed.

Lemma spaces_without_padding_touch_witness :
  padChar (with_padding default_args 0 true) = []
  /\ exists w',
       caption_line (with_padding default_args 0 true) 12 []
         (PStr (str_of "npc.hello"), str_of "Hello") (opened [])
       = (Ok ([] ++ quote ++ format (PStr (str_of "npc.hello")) ++ quote
              ++ quote ++ str_of "Hello" ++ quote ++ newline), w').
Proof.
  apply spaces_without_padding_touch; [reflexivity | simpl; lia].
Defined.

(** ** The width computation *)

Lemma max_loop_spec (fc : list (pyval * list Z)) :
  Forall (fun kv => is_str (fst kv)) fc ->
  forall m0,
    exists m,
      for_fold fc
        (fun maxCaptionLength kv =>
           n ← len (fst kv);
           Ok (if maxCaptionLength <? n then n else maxCaptionLength)) m0 = Ok m
      /\ m0 <= m
      /\ (forall s c, In (PStr s, c) fc -> Z.of_nat (length s) <= m)
      /\ (m = m0 \/ exists s c, In (PStr s, c) fc /\ Z.of_nat (length s) = m).
Proof.
  intros Hall. induction Hall as [|[k v] fc [s Hs] Hall IH]; intros m0.
  - exists m0. cbn [for_fold]. split; [reflexivity|]. split; [lia|].
    split; [intros ? ? []|]. now left.
  - cbn [fst] in Hs. subst k. cbn [for_fold fst len mbind result_bind].
    destruct (IH (if m0 <? Z.of_nat (length s) then Z.of_nat (length s) else m0))
      as (m & E & Hle & Hbound & Hatt).
    exists m. split; [exact E|].
    assert (Hm0 : m0 <= m /\ Z.of_nat (length s) <= m).
    { destruct (m0 <? Z.of_nat (length s)) eqn:E0;
        [apply Z.ltb_lt in E0 | apply Z.ltb_ge in E0]; lia. }
    split; [lia|]. split.
    + intros s' c' [Heq | Hin].
      * inversion Heq; subst. lia.
      * now apply (Hbound s' c').
    + destruct Hatt as [-> | (s' & c' & Hin & Hlen)].
      * destruct (m0 <? Z.of_nat (length s)) eqn:E0.
        -- right. exists s, v. split; [now left | reflexivity].
        -- now left.
      * right. exists s', c'. split; [now right | exact Hlen].
Qed.

Lemma max_loop_int (fc : list (pyval * list Z)) :
  ~ Forall (fun kv => is_str (fst kv)) fc ->
  forall m0,
    for_fold fc
      (fun maxCaptionLength kv =>
         n ← len (fst kv);
         Ok (if maxCaptionLength <? n then n else maxCaptionLength)) m0
    = Raise TypeError.
Proof.
  induction fc as [|[k v] fc IH]; intros Hnot m0.
  - exfalso. apply Hnot. constructor.
  - cbn [for_fold fst]. destruct k as [s|n]; cbn [len mbind result_bind].
    + apply IH. intros Hall. apply Hnot. constructor; [now exists s | exact Hall].
    + reflexivity.
Qed.

(** X22: The loop of [main] that measures the names: when every name is a
    string it returns the length of a longest one (0 for no captions at
    all); a name that is not a string (the -1 of an exhausted search)
    makes it fail with TypeError. *)
Theorem max_name_length_spec (fc : list (pyval * list Z)) :
  (Forall (fun kv => is_str (fst kv)) fc ->
   exists m,
     max_name_length fc = Ok m
     /\ (forall s c, In (PStr s, c) fc -> Z.of_nat (length s) <= m)
     /\ (fc = [] -> m = 0)
     /\ (fc <> [] -> exists s c, In (PStr s, c) fc /\ Z.of_nat (length s) = m))
  /\ (~ Forall (fun kv => is_str (fst kv)) fc ->
      max_name_length fc = Raise TypeError).
Proof.
  split.
  - intros Hall. destruct (max_loop_spec fc Hall 0) as (m & E & Hle & Hb & Hatt).
    exists m. split; [exact E|]. split; [exact Hb|]. split.
    + intros ->. cbn [for_fold] in E. now inversion E.
    + intros Hne. destruct Hatt as [-> | Hatt]; [|exact Hatt].
      destruct fc as [|[k v] fc]; [contradiction|].
      apply Forall_cons in Hall as [[s Hs] _]. cbn [fst] in Hs. subst k.
      exists s, v. split; [now left|].
      pose proof (Hb s v (or_introl eq_refl)). lia.
  - intros Hnot. now apply max_loop_int.
Qed.

(** ** Hoare rules *)







(** ** The caption file stays a byte stream, the file system the same *)





(** ** The header *)





(** ** The directory and the index *)



(** ** Reading blocks without candidates *)



Section Blocks.

Variables (fuel : nat) (a : Args) (DATA_OFFSET BLOCK_SIZE L far : Z)
  (lang : list Z).
Hypothesis HDO : 0 <= DATA_OFFSET.
Hypothesis HBS : 0 <= BLOCK_SIZE.
Hypothesis Hfar : DATA_OFFSET + BLOCK_SIZE * (2 ^ 32 - 1) <= far.



End Blocks.

(** ** Writing *)








End MainLaws.

(* ===================================================================== *)
(** * Decompiling a well-formed file *)
(* ===================================================================== *)

Module PipelineProps.

Import Bits MainProps IndexProps ReaderProps ForcerProps EmitterProps.
Import IndexLaws DirectoryProps ReaderLaws MainLaws.

#[local] Arguments Z.shiftl : simpl never.
#[local] Arguments Z.shiftr : simpl never.
#[local] Arguments Z.lor : simpl never.
#[local] Arguments Z.land : simpl never.
#[local] Arguments Z.pow : simpl never.
#[local] Arguments Z.mul : simpl never.









End PipelineProps.

(* ===================================================================== *)
(** * Language and output path *)
(* ===================================================================== *)

Module StartupProps.

Import MainProps.

Lemma alnum_not_sep (c : Z) : alnum c = true -> (c =? 95) = false.
Proof.
  unfold alnum. intros H. apply Z.eqb_neq. intros ->. discriminate.
Qed.

Lemma split_on_cons (sep : Z) (s : list Z) :
  exists h t, split_on sep s = h :: t.
Proof.
  induction s as [|c r (h & t & IH)]; cbn [split_on]; [now eexists _, _|].
  destruct (c =? sep); [now eexists _, _|]. rewrite IH. now eexists _, _.
Qed.

(** The first field of a split: it holds no separator, and what follows
    it is nothing or begins with a separator. *)
Lemma split_on_head (sep : Z) (s : list Z) :
  exists h t tail,
    split_on sep s = h :: t /\ s = h ++ tail
    /\ Forall (fun c => c <> sep) h
    /\ (tail = [] \/ exists r, tail = sep :: r)
    /\ (t = [] <-> tail = []).
Proof.
  induction s as [|c r (h & t & tail & IH & Es & Hh & Htail & Ht)];
    cbn [split_on].
  - exists [], [], []. repeat split; auto.
  - destruct (c =? sep) eqn:E.
    + apply Z.eqb_eq in E. subst c.
      destruct (split_on_cons sep r) as (h' & t' & E').
      exists [], (split_on sep r), (sep :: r). rewrite E'.
      repeat split; auto; try discriminate. right. now eexists.
    + apply Z.eqb_neq in E. rewrite IH.
      exists (c :: h), t, tail. split; [reflexivity|].
      split; [now rewrite Es|]. split; [now constructor|].
      split; [exact Htail | exact Ht].
Qed.

Lemma skip_alnum_split (s : list Z) :
  exists pre, s = pre ++ skip_alnum s /\ Forall (fun c => alnum c = true) pre.
Proof.
  induction s as [|c r (pre & Er & Hpre)]; cbn [skip_alnum].
  - exists []. split; [reflexivity | constructor].
  - destruct (alnum c) eqn:E.
    + exists (c :: pre). split; [cbn; now rewrite <- Er | now constructor].
    + exists []. split; [reflexivity | constructor].
Qed.

Lemma split_on_prefix (sep : Z) (pre r : list Z) :
  Forall (fun c => (c =? sep) = false) pre ->
  split_on sep (pre ++ sep :: r) = pre :: split_on sep r.
Proof.
  intros Hpre. induction Hpre as [|c pre Hc Hpre IH].
  - cbn [app split_on]. now rewrite Z.eqb_refl.
  - cbn [app split_on]. rewrite Hc, IH. reflexivity.
Qed.

(** X25: The language taken from the file name.  When no language is given
    and the name matches the pattern, the lookup [split("_")[1]] never
    fails, nothing is printed, and the language is the text between the
    first underscore and the next one (or the end of the name): it is
    not empty and the name before it is alphanumeric.  When the name
    does not match, the language stays empty and the warning is
    printed. *)
Theorem language_of_file_name (filenameNoExt : list Z) (w : world) :
  (name_matches filenameNoExt = true ->
   exists language pre tail,
     language_of None filenameNoExt w = (Ok language, w)
     /\ filenameNoExt = pre ++ [95] ++ language ++ tail
     /\ pre <> [] /\ Forall (fun c => alnum c = true) pre
     /\ language <> [] /\ Forall (fun c => c <> 95) language
     /\ (tail = [] \/ exists r, tail = 95 :: r))
  /\ (name_matches filenameNoExt = false ->
      exists w',
        language_of None filenameNoExt w = (Ok [], w')
        /\ stdout w'
           = stdout w
             ++ [str_of "WARNING: Input filename does not match regular format, and no language specified. Language will not be set!"
                 ++ [10]]).
Proof.
  split.
  - intros Hm. unfold language_of. cbn [given]. rewrite Hm.
    unfold name_matches in Hm.
    destruct filenameNoExt as [|c r]; [discriminate|].
    apply andb_true_iff in Hm as [Hc Hm].
    destruct (skip_alnum_split r) as (pre & Er & Hpre).
    destruct (skip_alnum r) as [|u [|d rest]]; try discriminate.
    apply andb_true_iff in Hm as [Hu Hd]. apply Z.eqb_eq in Hu. subst u.
    destruct (split_on_head 95 rest) as (h & t & tail & Eh & Erest & Hh & Htail & _).
    assert (Hsplit : split_on 95 (c :: r) = (c :: pre) :: (d :: h) :: t).
    { rewrite Er. change (c :: pre ++ 95 :: d :: rest)
        with ((c :: pre) ++ 95 :: d :: rest).
      rewrite split_on_prefix.
      - cbn [split_on]. rewrite (alnum_not_sep d Hd), Eh. reflexivity.
      - constructor; [now apply alnum_not_sep|].
        eapply List.Forall_impl; [|exact Hpre]. apply alnum_not_sep. }
    assert (Hsub : subscript ((c :: pre) :: (d :: h) :: t) 1 = Ok (d :: h)).
    { unfold subscript, py_index. cbn [length].
      change (1 <? 0) with false. cbv iota.
      replace ((0 <=? 1) && (1 <? Z.of_nat (S (S (length t))))) with true
        by (symmetry; apply andb_true_iff; split;
            [reflexivity | apply Z.ltb_lt; lia]).
      reflexivity. }
    rewrite Hsplit. rewrite run_lift_bind, Hsub.
    exists (d :: h), (c :: pre), tail.
    split; [reflexivity|]. split.
    { rewrite Er at 1. rewrite Erest. reflexivity. }
    split; [discriminate|]. split; [now constructor|].
    split; [discriminate|]. split; [|exact Htail].
    constructor; [|exact Hh].
    intros ->. discriminate.
  - intros Hm. unfold language_of. cbn [given]. rewrite Hm.
    eexists. split; reflexivity.
Qed.

Lemma language_of_file_name_witness :
  exists language pre tail,
    language_of None (str_of "closecaption_pt_br") (opened [])
    = (Ok language, opened [])
    /\ str_of "closecaption_pt_br" = pre ++ [95] ++ language ++ tail
    /\ pre <> [] /\ Forall (fun c => alnum c = true) pre
    /\ language <> [] /\ Forall (fun c => c <> 95) language
    /\ (tail = [] \/ exists r, tail = 95 :: r).
Proof.
  destruct (language_of_file_name (str_of "closecaption_pt_br") (opened []))
    as [H _].
  apply H. reflexivity.
Defined.

(** X26: The default output path does not depend on the directory of the
    input: whatever [os.path.dirname] gave, the path is the input's
    base name without extension, followed by "_d.txt" unless
    [--no-suffix] is set.  (The test [filepath == "."] that would prepend
    the directory comes after [filepath] was reset from "." to the
    empty string.)  A
    non-empty [--output] is used as it is. *)
Theorem output_path_default (args_output : option str)
    (filepath filenameNoExt : list Z) (no_suffix : bool) :
  (given args_output = false ->
   output_path args_output filepath filenameNoExt no_suffix
   = filenameNoExt ++ (if no_suffix then [] else str_of "_d.txt"))
  /\ (forall o, args_output = Some o -> o <> [] ->
      output_path args_output filepath filenameNoExt no_suffix = o).
Proof.
  split.
  - intros Hg. unfold output_path. rewrite Hg.
    assert (E : str_eqb (if str_eqb filepath (str_of ".") then [] else filepath)
                  (str_of ".") = false).
    { destruct (str_eqb filepath (str_of ".")) eqn:E1; [reflexivity | exact E1]. }
    rewrite E. cbn [app]. destruct no_suffix; cbn [negb];
      [now rewrite app_nil_r | reflexivity].
  - intros o -> Ho. unfold output_path. cbn [given].
    destruct o; [contradiction | reflexivity].
Qed.

End StartupProps.
